(** * Mutation and scheduling core of the rare-branch fuzzer (afl-fuzz-one.c)

    A shallow embedding of the parts of [src/afl-fuzz-one.c] that the
    specification talks about: the ADWIN change detector, the bandit
    selectors, the rare-branch selector, the rare-branch trimmer, the branch
    mask and the havoc stage with its restore phase.

    Conventions.
    - C unsigned integers are [Z] values with the wrap-around written out
      ([u8], [u16], [u32], [u64]).
    - C arrays are lists; an access the C code would perform outside the
      allocation makes the model return [None].
    - The execution harness ([common_fuzz_stuff], [hits_branch]), the random
      source ([rand_below], the GSL samplers) and every floating-point test
      are parameters of the sections that use them.
    - Constants of the configuration header, which is not part of the
      sources at hand, are section variables carrying the macro's name. *)

From Stdlib Require Import ZArith QArith List Bool Lia Arith.
Import ListNotations.

Set Implicit Arguments.
Open Scope Z_scope.

(** ** Machine integers *)

Definition u8 (x : Z) : Z := x mod 2 ^ 8.
Definition u16 (x : Z) : Z := x mod 2 ^ 16.
Definition u32 (x : Z) : Z := x mod 2 ^ 32.
Definition u64 (x : Z) : Z := x mod 2 ^ 64.

Arguments u8 : simpl never.
Arguments u16 : simpl never.
Arguments u32 : simpl never.
Arguments u64 : simpl never.

(** ** A small error monad for accesses that may leave the allocation *)

Definition bind {A B : Type} (m : option A) (k : A -> option B) : option B :=
  match m with
  | Some a => k a
  | None => None
  end.

Notation "x <- m ;; k" := (bind m (fun x => k))
  (at level 61, m at next level, right associativity).

(** ** Arrays *)

(** [rd l i] reads slot [i]; the callers establish that [i] is in range. *)
Definition rd (l : list Z) (i : nat) : Z := nth i l 0.

(** [upd l i v] is [l[i] = v] for [i] inside the array. *)
Fixpoint upd (l : list Z) (i : nat) (v : Z) : list Z :=
  match l, i with
  | [], _ => []
  | _ :: t, O => v :: t
  | h :: t, S i' => h :: upd t i' v
  end.

Definition list_sumZ (l : list Z) : Z := fold_right Z.add 0 l.

(** [memcpy(dst + doff, src + soff, n)]. With [src] the old contents of
    [dst] it is also [memmove], whose result does not depend on the order
    of the byte copies. The callers keep both ranges inside the buffers. *)
Definition blit (dst : list Z) (doff : nat) (src : list Z) (soff n : nat)
  : list Z :=
  firstn doff dst ++ firstn n (skipn soff src) ++ skipn (doff + n) dst.

(** ** Little-endian words in byte arrays *)

(** The byte array [m] read and written as an array of [u32] on a
    little-endian machine: entry [i] occupies the bytes [4i .. 4i+3]. *)
Definition rd32 (m : list Z) (i : nat) : Z :=
  rd m (4 * i) + 2 ^ 8 * rd m (4 * i + 1) + 2 ^ 16 * rd m (4 * i + 2)
  + 2 ^ 24 * rd m (4 * i + 3).

Definition wr32 (m : list Z) (i : nat) (v : Z) : list Z :=
  let v := u32 v in
  upd (upd (upd (upd m (4 * i) (v mod 2 ^ 8))
              (4 * i + 1) (Z.shiftr v 8 mod 2 ^ 8))
         (4 * i + 2) (Z.shiftr v 16 mod 2 ^ 8))
    (4 * i + 3) (Z.shiftr v 24 mod 2 ^ 8).

(** * ADWIN *)

Module Adwin.

(** [adwin_node_t]: the array [sum] of partial sums and the number [size] of
    windows in use. The [next]/[prev] pointers are the order of the list
    [nodes] below. *)
Record adwin_node_t := mk_node {
  n_sum : list Z;
  n_size : Z
}.

(** [adwin_t]: [head] is the first element of [nodes], [tail] the last. *)
Record adwin_t := mk_adwin {
  nodes : list adwin_node_t;
  last_node_idx : Z;
  W : Z;
  sum : Z;
  num_add : Z
}.

(** [sum[0..size-1]] of a node, the windows that are in use. *)
Definition windows (n : adwin_node_t) : list Z :=
  firstn (Z.to_nat (n_size n)) (n_sum n).

(** The two sums of the specification: [Σ_k |node_k| * 2^k] from node [k]
    on, and [Σ_k Σ_i node_k[i]]. *)
Fixpoint weighted_count (k : Z) (ns : list adwin_node_t) : Z :=
  match ns with
  | [] => 0
  | n :: rest => n_size n * 2 ^ k + weighted_count (k + 1) rest
  end.

Fixpoint total_sum (ns : list adwin_node_t) : Z :=
  match ns with
  | [] => 0
  | n :: rest => list_sumZ (windows n) + total_sum rest
  end.

Fixpoint set_node (ns : list adwin_node_t) (k : nat) (n : adwin_node_t)
  : list adwin_node_t :=
  match ns, k with
  | [], _ => []
  | _ :: t, O => n :: t
  | h :: t, S k' => h :: set_node t k' n
  end.

Section Model.

(** Configuration constants. [ADWIN_CAP] is the declared length of the
    array [sum] of a node. *)
Variable ADWIN_M : Z.
Variable ADWIN_CAP : nat.
Variable ADWIN_MIN_ELEM_TO_START_DROP : Z.
Variable ADWIN_MIN_ELEM_TO_CHECK : Z.
Variable ADWIN_DROP_INTERVAL : Z.
Variable ADWIN_ADAPTIVE_RESETTING : bool.

(** The Hoeffding-style test of [adwin_should_drop] is computed in double
    precision from [s0 n0 s1 n1] and from [ddv2], [dd2_3], which are
    themselves computed from [W] and [sum]; it is kept as a parameter with
    these six integers as arguments. *)
Variable adwin_should_drop : Z -> Z -> Z -> Z -> Z -> Z -> bool.

(** A node as [calloc] returns it. *)
Definition fresh_node : adwin_node_t :=
  {| n_sum := repeat 0 ADWIN_CAP; n_size := 0 |}.

(** [init_adwin] on a zeroed [adwin_t]. *)
Definition init_adwin : adwin_t :=
  {| nodes := [fresh_node]; last_node_idx := 0; W := 0; sum := 0;
     num_add := 0 |}.

(** The loop [for (i=0; i<lim; i++) node->sum[i] = node->sum[i+num];],
    [n] iterations starting at [i]. *)
Fixpoint shift_loop (n i num : nat) (l : list Z) : list Z :=
  match n with
  | O => l
  | S n' => shift_loop n' (S i) num (upd l i (rd l (i + num)))
  end.

Definition adwin_remove_front_windows (node : adwin_node_t) (num : Z)
  : adwin_node_t :=
  let lim := n_size node - num in
  {| n_sum := shift_loop (Z.to_nat lim) 0 (Z.to_nat num) (n_sum node);
     n_size := n_size node - num |}.

(** [node->sum[node->size++] = s]. *)
Definition adwin_add_tail_window (node : adwin_node_t) (s : Z)
  : option adwin_node_t :=
  if (0 <=? n_size node) && (Z.to_nat (n_size node) <? length (n_sum node))%nat
  then Some {| n_sum := upd (n_sum node) (Z.to_nat (n_size node)) s;
               n_size := n_size node + 1 |}
  else None.

Definition adwin_add_tail_node (a : adwin_t) : adwin_t :=
  {| nodes := nodes a ++ [fresh_node];
     last_node_idx := last_node_idx a + 1;
     W := W a; sum := sum a; num_add := num_add a |}.

Definition with_nodes (a : adwin_t) (ns : list adwin_node_t) : adwin_t :=
  {| nodes := ns; last_node_idx := last_node_idx a;
     W := W a; sum := sum a; num_add := num_add a |}.

(** [1ull << e], defined for [0 <= e < 64] only. *)
Definition shl1 (e : Z) : option Z :=
  if (0 <=? e) && (e <? 64) then Some (Z.shiftl 1 e) else None.

Definition adwin_expire_last_window (a : adwin_t) : option adwin_t :=
  p <- shl1 (last_node_idx a) ;;
  match rev (nodes a) with
  | [] => None
  | tail :: before =>
      let W' := u64 (W a - p) in
      let sum' := u64 (sum a - rd (n_sum tail) 0) in
      let tail' := adwin_remove_front_windows tail 1 in
      match before with
      | _ :: _ =>
          if n_size tail' =? 0
          then Some {| nodes := rev before;
                       last_node_idx := last_node_idx a - 1;
                       W := W'; sum := sum'; num_add := num_add a |}
          else Some {| nodes := rev (tail' :: before);
                       last_node_idx := last_node_idx a;
                       W := W'; sum := sum'; num_add := num_add a |}
      | [] =>
          Some {| nodes := [tail'];
                  last_node_idx := last_node_idx a;
                  W := W'; sum := sum'; num_add := num_add a |}
      end
  end.

(** The loop of [adwin_normlize_buckets], entered at node number [k]. *)
Fixpoint adwin_normlize_loop (fuel : nat) (k : nat) (a : adwin_t)
  : option adwin_t :=
  match fuel with
  | O => None
  | S fuel' =>
      match nth_error (nodes a) k with
      | None => Some a
      | Some node =>
          if n_size node <=? ADWIN_M then Some a
          else
            let a1 :=
              match nth_error (nodes a) (S k) with
              | None => adwin_add_tail_node a
              | Some _ => a
              end in
            let s := u64 (rd (n_sum node) 0 + rd (n_sum node) 1) in
            nxt <- nth_error (nodes a1) (S k) ;;
            nxt' <- adwin_add_tail_window nxt s ;;
            let ns2 := set_node (nodes a1) (S k) nxt' in
            let ns3 := set_node ns2 k (adwin_remove_front_windows node 2) in
            adwin_normlize_loop fuel' (S k) (with_nodes a1 ns3)
      end
  end.

Definition adwin_normlize_buckets (a : adwin_t) : option adwin_t :=
  adwin_normlize_loop (length (nodes a) + 2) 0 a.

(** One pass of the two nested [for] loops of
    [adwin_drop_last_till_identical]. *)
Inductive scan_result :=
| ScanOn (n0 s0 n1 s1 : Z)
| ScanEnd
| ScanDrop.

(** The inner loop over the windows [k, k+1, ...] of one node; [todo] is the
    number of windows left. *)
Fixpoint scan_windows (a : adwin_t) (node : adwin_node_t) (e : Z)
    (todo k : nat) (n0 s0 n1 s1 : Z) : scan_result :=
  match todo with
  | O => ScanOn n0 s0 n1 s1
  | S todo' =>
      let n0' := u64 (n0 + Z.shiftl 1 e) in
      let n1' := u64 (n1 - Z.shiftl 1 e) in
      let s0' := u64 (s0 + rd (n_sum node) k) in
      let s1' := u64 (s1 - rd (n_sum node) k) in
      if n1' <? ADWIN_MIN_ELEM_TO_CHECK then ScanEnd
      else if n0' <? ADWIN_MIN_ELEM_TO_CHECK
      then scan_windows a node e todo' (S k) n0' s0' n1' s1'
      else if adwin_should_drop s0' n0' s1' n1' (W a) (sum a) then ScanDrop
      else scan_windows a node e todo' (S k) n0' s0' n1' s1'
  end.

(** The outer loop, from the tail towards the head ([back] is the list of
    nodes in that order). *)
Fixpoint scan_nodes (a : adwin_t) (back : list adwin_node_t) (e : Z)
    (n0 s0 n1 s1 : Z) : scan_result :=
  match back with
  | [] => ScanOn n0 s0 n1 s1
  | node :: before =>
      match scan_windows a node e (Z.to_nat (n_size node)) 0 n0 s0 n1 s1 with
      | ScanOn n0' s0' n1' s1' => scan_nodes a before (e - 1) n0' s0' n1' s1'
      | r => r
      end
  end.

Definition adwin_scan (a : adwin_t) : scan_result :=
  scan_nodes a (rev (nodes a)) (last_node_idx a) 0 0 (W a) (sum a).

(** The [while (1)] loop of [adwin_drop_last_till_identical]. *)
Fixpoint adwin_drop_loop (fuel : nat) (a : adwin_t) : option adwin_t :=
  match fuel with
  | O => None
  | S fuel' =>
      match adwin_scan a with
      | ScanDrop =>
          if ADWIN_ADAPTIVE_RESETTING then Some init_adwin
          else a' <- adwin_expire_last_window a ;; adwin_drop_loop fuel' a'
      | _ => Some a
      end
  end.

(** Number of windows in use, which bounds the number of passes. *)
Definition wc (ns : list adwin_node_t) : nat :=
  fold_right (fun n acc => (Z.to_nat (n_size n) + acc)%nat) O ns.

Definition window_count (a : adwin_t) : nat := wc (nodes a).

Definition adwin_drop_last_till_identical (a : adwin_t) : option adwin_t :=
  if W a <? ADWIN_MIN_ELEM_TO_START_DROP then Some a
  else adwin_drop_loop (S (window_count a)) a.

Definition adwin_add_elem (a : adwin_t) (reward : Z) : option adwin_t :=
  match nodes a with
  | [] => None
  | head :: rest =>
      head' <- adwin_add_tail_window head reward ;;
      let a1 := {| nodes := head' :: rest;
                   last_node_idx := last_node_idx a;
                   W := u64 (W a + 1);
                   sum := u64 (sum a + reward);
                   num_add := num_add a |} in
      a2 <- adwin_normlize_buckets a1 ;;
      if ADWIN_DROP_INTERVAL =? 1 then adwin_drop_last_till_identical a2
      else
        let a3 := {| nodes := nodes a2; last_node_idx := last_node_idx a2;
                     W := W a2; sum := sum a2; num_add := num_add a2 + 1 |} in
        if num_add a3 =? ADWIN_DROP_INTERVAL
        then adwin_drop_last_till_identical
               {| nodes := nodes a3; last_node_idx := last_node_idx a3;
                  W := W a3; sum := sum a3; num_add := 0 |}
        else Some a3
  end.

(** The instance after feeding the rewards [rs], oldest first, to a new
    instance. *)
Fixpoint adwin_run_from (a : adwin_t) (rs : list Z) : option adwin_t :=
  match rs with
  | [] => Some a
  | r :: rest => a' <- adwin_add_elem a r ;; adwin_run_from a' rest
  end.

Definition adwin_run (rs : list Z) : option adwin_t :=
  adwin_run_from init_adwin rs.

(** Well-formedness of a node: the array has its declared length and the
    windows in use are non-negative. *)
Definition node_ok (n : adwin_node_t) : Prop :=
  length (n_sum n) = ADWIN_CAP /\ 0 <= n_size n /\
  Forall (fun w => 0 <= w) (windows n).

(** The state between two calls of [adwin_add_elem]. [Inv] holds the two
    equations of the specification together with what keeps them stable:
    every node holds at most [ADWIN_M] windows, only a lone head may be
    empty, and the two counters fit their 64 bits. *)
Record Inv (a : adwin_t) : Prop := mk_Inv {
  inv_nodes : nodes a <> [];
  inv_idx : last_node_idx a = Z.of_nat (length (nodes a)) - 1;
  inv_node : Forall node_ok (nodes a);
  inv_size : Forall (fun n => n_size n <= ADWIN_M) (nodes a);
  inv_nonempty :
    (1 < length (nodes a))%nat -> Forall (fun n => 1 <= n_size n) (nodes a);
  inv_W : W a = weighted_count 0 (nodes a);
  inv_sum : sum a = total_sum (nodes a);
  inv_W_range : W a < 2 ^ 64;
  inv_sum_range : sum a < 2 ^ 64
}.

(** The state inside [adwin_normlize_buckets] when the loop is at node [k]:
    as [Inv], but node [k] may hold [ADWIN_M + 1] windows and no node is
    empty. *)
Record PreInv (k : nat) (a : adwin_t) : Prop := mk_PreInv {
  pre_nodes : nodes a <> [];
  pre_idx : last_node_idx a = Z.of_nat (length (nodes a)) - 1;
  pre_node : Forall node_ok (nodes a);
  pre_size : forall j n, nth_error (nodes a) j = Some n ->
             n_size n <= (if Nat.eqb j k then ADWIN_M + 1 else ADWIN_M);
  pre_nonempty : Forall (fun n => 1 <= n_size n) (nodes a);
  pre_W : W a = weighted_count 0 (nodes a);
  pre_sum : sum a = total_sum (nodes a);
  pre_W_range : W a < 2 ^ 64;
  pre_sum_range : sum a < 2 ^ 64
}.

End Model.

End Adwin.

(** * Bandit selectors *)

Module Bandit.

(** [mask && mask[i]]: the mask pointer may be [NULL]. *)
Definition masked (mask : option (list Z)) (i : nat) : bool :=
  match mask with
  | None => false
  | Some m => negb (rd m i =? 0)
  end.

Section Uniform.

(** The random source of the fuzzer: [rand_below afl limit] advances the
    generator state and returns the draw. *)
Variable rng : Type.
Variable rand_below : rng -> Z -> rng * Z.

(** First loop of [uniform_select_arm]: the number of arms [i, i+1, ...]
    that the mask leaves enabled, [todo] arms to go. *)
Fixpoint uniform_count (mask : option (list Z)) (todo i : nat) (cnt : Z) : Z :=
  match todo with
  | O => cnt
  | S todo' =>
      if masked mask i then uniform_count mask todo' (S i) cnt
      else uniform_count mask todo' (S i) (cnt + 1)
  end.

(** Second loop: walk to the [k]-th enabled arm. [None] is the
    [assert(0)] behind the loop. *)
Fixpoint uniform_pick (mask : option (list Z)) (todo i : nat) (k : Z)
  : option nat :=
  match todo with
  | O => None
  | S todo' =>
      if masked mask i then uniform_pick mask todo' (S i) k
      else if k =? 0 then Some i
      else uniform_pick mask todo' (S i) (k - 1)
  end.

Definition uniform_select_arm (s : rng) (n_arms : Z) (mask : option (list Z))
  : rng * option nat :=
  let n := Z.to_nat n_arms in
  let cnt := uniform_count mask n 0 0 in
  let '(s', k) := rand_below s cnt in
  (s', uniform_pick mask n 0 k).

End Uniform.

(** The arms of the bandits. The accumulators that the C code keeps in
    double precision have the type [double] of the section below. *)
Record normal_bandit_arm (double : Type) := mk_normal_arm {
  na_num_selected : Z;
  na_total_rewards : Z;
  na_sample_mean : double
}.

Record uniform_bandit_arm := mk_uniform_arm {
  ua_num_selected : Z;
  ua_total_rewards : Z
}.

Record adwin_bandit_arm := mk_adwin_arm {
  aa_num_selected : Z;
  aa_total_rewards : Z;
  aa_adwin : Adwin.adwin_t
}.

Record dts_bandit_arm (double : Type) := mk_dts_arm {
  dts_num_selected : Z;
  dts_num_rewarded : Z;
  dts_total_rewards : double;
  dts_total_losses : double
}.

Record dbe_bandit_arm (double : Type) := mk_dbe_arm {
  dbe_num_selected : Z;
  dbe_num_rewarded : Z;
  dbe_total_rewards : double;
  dbe_dis_num_selected : double;
  dbe_sample_mean : double
}.

(** [ucb_t], [klucb_t] and [ts_t]: the number of arms, the global pull
    count and the arms ([ts_t] does not use the pull count). *)
Record normal_bandit (double : Type) := mk_normal {
  nb_n_arms : Z;
  nb_time_step : Z;
  nb_arms : list (normal_bandit_arm double)
}.

(** [exppp_t] and [expix_t]. *)
Record exppp_t (double : Type) := mk_exppp {
  ep_n_arms : Z;
  ep_t : Z;
  ep_pulls : list Z;
  ep_total_rewards : list Z;
  ep_weights : list double;
  ep_losses : list double;
  ep_unweighted_losses : list double;
  ep_trusts : list double
}.

Record expix_t (double : Type) := mk_expix {
  ei_n_arms : Z;
  ei_t : Z;
  ei_pulls : list Z;
  ei_total_rewards : list Z;
  ei_weights : list double;
  ei_losses : list double
}.

(** [arms[idx]] replaced by [f arms[idx]], for [idx] inside the array. *)
Fixpoint update_arm {A : Type} (arms : list A) (idx : nat) (f : A -> A)
  : list A :=
  match arms, idx with
  | [], _ => []
  | a :: rest, O => f a :: rest
  | a :: rest, S idx' => a :: update_arm rest idx' f
  end.

(** [uniform_add_reward] *)
Definition uniform_add_reward (arms : list uniform_bandit_arm) (idx : nat)
    (r : Z) : list uniform_bandit_arm :=
  update_arm arms idx
    (fun arm => {| ua_num_selected := u64 (ua_num_selected arm + 1);
                   ua_total_rewards := u64 (ua_total_rewards arm + r) |}).

(** [a[i] += 1] on an array of [u64]; [None] outside the array. *)
Definition incr (a : list Z) (i : Z) : option (list Z) :=
  if (0 <=? i) && (Z.to_nat i <? length a)%nat
  then Some (upd a (Z.to_nat i) (u64 (rd a (Z.to_nat i) + 1)))
  else None.

Section Family.

Variable rng : Type.
Variable rand_below : rng -> Z -> rng * Z.

(** Double precision: the type, the conversion from an integer, the
    operations and comparisons the selectors use, and the samplers of the
    GSL. [dlt a b] is [a < b], [dle a b] is [a <= b]. *)
Variable double : Type.
Variable d_of_Z : Z -> double.
Variable dadd : double -> double -> double.
Variable dmul : double -> double -> double.
Variable ddiv : double -> double -> double.
Variable dpow2 : double -> double.
Variable dlt : double -> double -> bool.
Variable dle : double -> double -> bool.
Variable gsl_ran_beta : rng -> double -> double -> rng * double.
Variable gsl_rng_uniform : rng -> rng * double.
Variable gsl_ran_discrete : rng -> list double -> rng * Z.

(** The two index formulas, double precision throughout:
    [sample_mean + sqrt(2 * log(time_step) / num_selected)] and the
    Newton iteration of [klucb_klucb]. *)
Variable ucb_index : Z -> normal_bandit_arm double -> double.
Variable klucb_klucb : Z -> normal_bandit_arm double -> double.

(** Constants of the headers. *)
Variable DTS_GAMMA : double.
Variable DBE_GAMMA : double.
Variable OPTIMISTIC_DTS : bool.

(** The trusts that [exppp_update_trusts] computes from the instance, and
    the arrays that [exppp_add_reward] ([unweighted_losses], [losses],
    [weights]) and [expix_add_reward] ([losses], [weights]) compute from
    the instance, the arm and the reward. *)
Variable exppp_update_trusts : exppp_t double -> list double.
Variable exppp_losses_weights :
  exppp_t double -> Z -> Z -> list double * list double * list double.
Variable expix_losses_weights :
  expix_t double -> Z -> Z -> list double * list double.

(** ** UCB and KL-UCB *)

(** The loop shared by [ucb_select_arm] and [klucb_select_arm] over the
    arms [i, i+1, ...]; [sel] is [selected_idx], which has no value until
    the loop assigns one. *)
Fixpoint index_loop (index : normal_bandit_arm double -> double)
    (mask : option (list Z)) (arms : list (normal_bandit_arm double))
    (i : nat) (max_ucb : double) (sel : option nat) : option nat :=
  match arms with
  | [] => sel
  | a :: rest =>
      if masked mask i then index_loop index mask rest (S i) max_ucb sel
      else if na_num_selected a =? 0 then Some i
      else
        let ucb := index a in
        if dlt max_ucb ucb
        then index_loop index mask rest (S i) ucb (Some i)
        else index_loop index mask rest (S i) max_ucb sel
  end.

Definition ucb_select_arm (inst : normal_bandit double)
    (mask : option (list Z)) : option nat :=
  index_loop (ucb_index (nb_time_step inst)) mask
    (firstn (Z.to_nat (nb_n_arms inst)) (nb_arms inst)) 0 (d_of_Z (-1)) None.

Definition klucb_select_arm (inst : normal_bandit double)
    (mask : option (list Z)) : option nat :=
  index_loop (klucb_klucb (nb_time_step inst)) mask
    (firstn (Z.to_nat (nb_n_arms inst)) (nb_arms inst)) 0 (d_of_Z (-1)) None.

(** The arm update shared by [ucb_add_reward], [klucb_add_reward] and
    [ts_add_reward]. *)
Definition normal_arm_reward (r : Z) (arm : normal_bandit_arm double)
  : normal_bandit_arm double :=
  let n := u64 (na_num_selected arm + 1) in
  let t := u64 (na_total_rewards arm + r) in
  {| na_num_selected := n; na_total_rewards := t;
     na_sample_mean := ddiv (d_of_Z t) (d_of_Z n) |}.

(** [ucb_add_reward] and [klucb_add_reward] *)
Definition ucb_add_reward (inst : normal_bandit double) (idx : nat) (r : Z)
  : normal_bandit double :=
  {| nb_n_arms := nb_n_arms inst;
     nb_time_step := u64 (nb_time_step inst + 1);
     nb_arms := update_arm (nb_arms inst) idx (normal_arm_reward r) |}.

(** [ts_add_reward] *)
Definition ts_add_reward (inst : normal_bandit double) (idx : nat) (r : Z)
  : normal_bandit double :=
  {| nb_n_arms := nb_n_arms inst;
     nb_time_step := nb_time_step inst;
     nb_arms := update_arm (nb_arms inst) idx (normal_arm_reward r) |}.

(** [adsts_add_reward]; [add_elem] is [adwin_add_elem] under the ADWIN
    configuration, and [None] is its failure. *)
Definition adsts_add_reward
    (add_elem : Adwin.adwin_t -> Z -> option Adwin.adwin_t)
    (arms : list adwin_bandit_arm) (idx : nat) (r : Z)
  : option (list adwin_bandit_arm) :=
  match nth_error arms idx with
  | None => Some arms
  | Some arm =>
      a <- add_elem (aa_adwin arm) r ;;
      Some (update_arm arms idx
              (fun arm =>
                 {| aa_num_selected := u64 (aa_num_selected arm + 1);
                    aa_total_rewards := u64 (aa_total_rewards arm + r);
                    aa_adwin := a |}))
  end.

(** [dts_add_reward] *)
Definition dts_add_reward (arms : list (dts_bandit_arm double)) (idx : nat)
    (r : Z) : list (dts_bandit_arm double) :=
  update_arm arms idx
    (fun arm =>
       {| dts_num_selected := u64 (dts_num_selected arm + 1);
          dts_num_rewarded := u64 (dts_num_rewarded arm + r);
          dts_total_rewards := dadd (dts_total_rewards arm) (d_of_Z r);
          dts_total_losses := dadd (dts_total_losses arm) (d_of_Z (1 - r)) |}).

(** [dbe_add_reward] *)
Definition dbe_add_reward (arms : list (dbe_bandit_arm double)) (idx : nat)
    (r : Z) : list (dbe_bandit_arm double) :=
  update_arm arms idx
    (fun arm =>
       let total := dadd (dbe_total_rewards arm) (d_of_Z r) in
       let dis := dadd (dbe_dis_num_selected arm) (d_of_Z 1) in
       {| dbe_num_selected := u64 (dbe_num_selected arm + 1);
          dbe_num_rewarded := u64 (dbe_num_rewarded arm + r);
          dbe_total_rewards := total;
          dbe_dis_num_selected := dis;
          dbe_sample_mean := ddiv total dis |}).

(** ** Thompson sampling *)

(** The loop of [ts_select_arm] and [adsts_select_arm] over the pairs
    (total rewards, number of selections) of the arms. *)
Fixpoint ts_loop (mask : option (list Z)) (arms : list (Z * Z)) (i : nat)
    (s : rng) (max_sampled : double) (sel : nat) : rng * nat :=
  match arms with
  | [] => (s, sel)
  | (total_rewards, num_selected) :: rest =>
      if masked mask i then ts_loop mask rest (S i) s max_sampled sel
      else
        let a := u64 (total_rewards + 1) in
        let b := u64 (num_selected - total_rewards + 1) in
        let '(s1, sampled) := gsl_ran_beta s (d_of_Z a) (d_of_Z b) in
        if dlt max_sampled sampled
        then ts_loop mask rest (S i) s1 sampled i
        else ts_loop mask rest (S i) s1 max_sampled sel
  end.

Definition ts_select_arm (s : rng) (inst : normal_bandit double)
    (mask : option (list Z)) : rng * nat :=
  ts_loop mask
    (map (fun a => (na_total_rewards a, na_num_selected a))
       (firstn (Z.to_nat (nb_n_arms inst)) (nb_arms inst)))
    0 s (d_of_Z (-1)) 0.

(** [adsts_t]: the rewards and the selections come from the ADWIN
    estimator of the arm. *)
Definition adsts_select_arm (s : rng) (n_arms : Z)
    (arms : list adwin_bandit_arm) (mask : option (list Z)) : rng * nat :=
  ts_loop mask
    (map (fun a => (Adwin.sum (aa_adwin a), Adwin.W (aa_adwin a)))
       (firstn (Z.to_nat n_arms) arms))
    0 s (d_of_Z (-1)) 0.

(** ** Discounted Thompson sampling *)

Fixpoint dts_loop (mask : option (list Z))
    (arms : list (dts_bandit_arm double)) (i : nat)
    (s : rng) (max_sampled : double) (sel : nat) : rng * nat :=
  match arms with
  | [] => (s, sel)
  | arm :: rest =>
      if masked mask i then dts_loop mask rest (S i) s max_sampled sel
      else
        let a := dadd (dts_total_rewards arm) (d_of_Z 1) in
        let b := dadd (dts_total_losses arm) (d_of_Z 1) in
        let '(s1, sampled0) := gsl_ran_beta s a b in
        let beta_mean := ddiv a (dadd a b) in
        let sampled :=
          if OPTIMISTIC_DTS && dlt sampled0 beta_mean
          then beta_mean else sampled0 in
        if dlt max_sampled sampled
        then dts_loop mask rest (S i) s1 sampled i
        else dts_loop mask rest (S i) s1 max_sampled sel
  end.

(** The second loop of [dts_select_arm]: every arm is discounted. *)
Definition dts_discount (arm : dts_bandit_arm double)
  : dts_bandit_arm double :=
  {| dts_num_selected := dts_num_selected arm;
     dts_num_rewarded := dts_num_rewarded arm;
     dts_total_rewards := dmul (dts_total_rewards arm) DTS_GAMMA;
     dts_total_losses := dmul (dts_total_losses arm) DTS_GAMMA |}.

(** [dts_select_arm]: the arms as the call leaves them and the index. *)
Definition dts_select_arm (s : rng) (n_arms : Z)
    (arms : list (dts_bandit_arm double)) (mask : option (list Z))
  : rng * list (dts_bandit_arm double) * nat :=
  let n := Z.to_nat n_arms in
  let '(s1, sel) := dts_loop mask (firstn n arms) 0 s (d_of_Z (-1)) 0 in
  (s1, map dts_discount (firstn n arms) ++ skipn n arms, sel).

(** ** Discounted Bayes exploration *)

(** First loop of [dbe_select_arm]: [ACTIVE] and [max_avg]. *)
Fixpoint dbe_stats (mask : option (list Z))
    (arms : list (dbe_bandit_arm double)) (i : nat)
    (active : Z) (max_avg : double) : Z * double :=
  match arms with
  | [] => (active, max_avg)
  | arm :: rest =>
      if masked mask i then dbe_stats mask rest (S i) active max_avg
      else
        let max_avg' :=
          if dlt (d_of_Z 0) (dbe_dis_num_selected arm)
             && dlt max_avg (dbe_sample_mean arm)
          then dbe_sample_mean arm else max_avg in
        dbe_stats mask rest (S i) (active + 1) max_avg'
  end.

(** The reset under [if (redcoef > 1 << 30)]. *)
Definition dbe_reset (arm : dbe_bandit_arm double) : dbe_bandit_arm double :=
  {| dbe_num_selected := dbe_num_selected arm;
     dbe_num_rewarded := dbe_num_rewarded arm;
     dbe_total_rewards := d_of_Z 1;
     dbe_dis_num_selected := d_of_Z 1;
     dbe_sample_mean := d_of_Z 1 |}.

(** The array [indices] of the enabled arms that were never sampled. *)
Fixpoint dbe_unsampled (mask : option (list Z))
    (arms : list (dbe_bandit_arm double)) (i : nat) : list nat :=
  match arms with
  | [] => []
  | arm :: rest =>
      if masked mask i then dbe_unsampled mask rest (S i)
      else if dle (dbe_dis_num_selected arm) (d_of_Z 0)
      then i :: dbe_unsampled mask rest (S i)
      else dbe_unsampled mask rest (S i)
  end.

(** The weights [w], zero for a masked arm (the array comes from
    [calloc]). *)
Fixpoint dbe_weights (mask : option (list Z))
    (arms : list (dbe_bandit_arm double)) (i : nat)
    (active : Z) (redcoef : double) : list double :=
  match arms with
  | [] => []
  | arm :: rest =>
      (if masked mask i then d_of_Z 0
       else
         let beta := d_of_Z (4 + 2 * active) in
         dpow2 (dmul beta (dmul redcoef (dbe_sample_mean arm))))
      :: dbe_weights mask rest (S i) active redcoef
  end.

Definition dbe_discount (arm : dbe_bandit_arm double)
  : dbe_bandit_arm double :=
  {| dbe_num_selected := dbe_num_selected arm;
     dbe_num_rewarded := dbe_num_rewarded arm;
     dbe_total_rewards := dmul (dbe_total_rewards arm) DBE_GAMMA;
     dbe_dis_num_selected := dmul (dbe_dis_num_selected arm) DBE_GAMMA;
     dbe_sample_mean := dbe_sample_mean arm |}.

Definition dbe_select_arm (s : rng) (n_arms : Z)
    (arms : list (dbe_bandit_arm double)) (mask : option (list Z))
  : rng * list (dbe_bandit_arm double) * Z :=
  let n := Z.to_nat n_arms in
  let slots := firstn n arms in
  let '(active, max_avg) := dbe_stats mask slots 0 0 (d_of_Z 0) in
  let redcoef :=
    if dlt (d_of_Z 0) max_avg
    then ddiv (d_of_Z 1) (dmul (d_of_Z 2) max_avg) else d_of_Z 1 in
  let slots1 :=
    if dlt (d_of_Z (2 ^ 30)) redcoef then map dbe_reset slots else slots in
  match dbe_unsampled mask slots1 0 with
  | (_ :: _) as indices =>
      let '(s1, k) := rand_below s (Z.of_nat (length indices)) in
      (s1, slots1 ++ skipn n arms,
       Z.of_nat (nth (Z.to_nat k) indices O))
  | [] =>
      let w := dbe_weights mask slots1 0 active redcoef in
      let '(s1, index) := gsl_ran_discrete s w in
      (s1, map dbe_discount slots1 ++ skipn n arms, index)
  end.

(** What [dbe_select_arm] holds when it comes to choose: the arms after
    the reset, the array [indices] of the arms never sampled, and the
    weights [w] for the discrete sampler. *)
Definition dbe_prepare (n_arms : Z) (arms : list (dbe_bandit_arm double))
    (mask : option (list Z))
  : list (dbe_bandit_arm double) * list nat * list double :=
  let slots := firstn (Z.to_nat n_arms) arms in
  let '(active, max_avg) := dbe_stats mask slots 0 0 (d_of_Z 0) in
  let redcoef :=
    if dlt (d_of_Z 0) max_avg
    then ddiv (d_of_Z 1) (dmul (d_of_Z 2) max_avg) else d_of_Z 1 in
  let slots1 :=
    if dlt (d_of_Z (2 ^ 30)) redcoef then map dbe_reset slots else slots in
  (slots1, dbe_unsampled mask slots1 0,
   dbe_weights mask slots1 0 active redcoef).

(** ** Exp3-PP and Exp3-IX *)

(** The loops [sum_of_possibility += p[i]; if (target < sum_of_possibility)
    return i;] of [choice_from_distribution] and [expix_select_arm]. *)
Fixpoint distribution_loop (target : double) (ps : list double) (i : nat)
    (sum_of_possibility : double) : option nat :=
  match ps with
  | [] => None
  | p :: rest =>
      let acc := dadd sum_of_possibility p in
      if dlt target acc then Some i
      else distribution_loop target rest (S i) acc
  end.

Definition choice_from_distribution (s : rng) (self : exppp_t double)
  : rng * exppp_t double * Z :=
  let '(s1, target) := gsl_rng_uniform s in
  let trusts := exppp_update_trusts self in
  let self1 :=
    {| ep_n_arms := ep_n_arms self; ep_t := ep_t self;
       ep_pulls := ep_pulls self; ep_total_rewards := ep_total_rewards self;
       ep_weights := ep_weights self; ep_losses := ep_losses self;
       ep_unweighted_losses := ep_unweighted_losses self;
       ep_trusts := trusts |} in
  match distribution_loop target
          (firstn (Z.to_nat (ep_n_arms self)) trusts) 0 (d_of_Z 0) with
  | Some i => (s1, self1, Z.of_nat i)
  | None => (s1, self1, u64 (ep_n_arms self - 1))
  end.

(** [exppp_select_arm]. The parameter [mask] is not used. *)
Definition exppp_select_arm (s : rng) (self : exppp_t double)
    (mask : option (list Z)) : option (rng * exppp_t double * Z) :=
  let t := u64 (ep_t self + 1) in
  let self1 :=
    {| ep_n_arms := ep_n_arms self; ep_t := t;
       ep_pulls := ep_pulls self; ep_total_rewards := ep_total_rewards self;
       ep_weights := ep_weights self; ep_losses := ep_losses self;
       ep_unweighted_losses := ep_unweighted_losses self;
       ep_trusts := ep_trusts self |} in
  let '(s1, self2, choice) :=
    if t <=? ep_n_arms self then (s, self1, u64 (t - 1))
    else choice_from_distribution s self1 in
  pulls <- incr (ep_pulls self2) choice ;;
  Some (s1,
        {| ep_n_arms := ep_n_arms self2; ep_t := ep_t self2;
           ep_pulls := pulls; ep_total_rewards := ep_total_rewards self2;
           ep_weights := ep_weights self2; ep_losses := ep_losses self2;
           ep_unweighted_losses := ep_unweighted_losses self2;
           ep_trusts := ep_trusts self2 |},
        choice).

(** [expix_select_arm]. The parameter [mask] is not used. *)
Definition expix_select_arm (s : rng) (self : expix_t double)
    (mask : option (list Z)) : option (rng * expix_t double * Z) :=
  let t := u64 (ei_t self + 1) in
  let '(s1, target) := gsl_rng_uniform s in
  let choice :=
    match distribution_loop target
            (firstn (Z.to_nat (ei_n_arms self)) (ei_weights self)) 0
            (d_of_Z 0) with
    | Some i => Z.of_nat i
    | None => u64 (ei_n_arms self - 1)
    end in
  pulls <- incr (ei_pulls self) choice ;;
  Some (s1,
        {| ei_n_arms := ei_n_arms self; ei_t := t; ei_pulls := pulls;
           ei_total_rewards := ei_total_rewards self;
           ei_weights := ei_weights self; ei_losses := ei_losses self |},
        choice).

(** [total_rewards[arm] += (int)reward] *)
Definition add_total (a : list Z) (arm reward : Z) : option (list Z) :=
  if (0 <=? arm) && (Z.to_nat arm <? length a)%nat
  then Some (upd a (Z.to_nat arm) (rd a (Z.to_nat arm) + reward))
  else None.

(** [exppp_add_reward]: the integer counter, then the double-precision
    update of the losses and the weights. *)
Definition exppp_add_reward (self : exppp_t double) (arm reward : Z)
  : option (exppp_t double) :=
  tr <- add_total (ep_total_rewards self) arm reward ;;
  let '(ul, l, w) := exppp_losses_weights self arm reward in
  Some {| ep_n_arms := ep_n_arms self; ep_t := ep_t self;
          ep_pulls := ep_pulls self; ep_total_rewards := tr;
          ep_weights := w; ep_losses := l; ep_unweighted_losses := ul;
          ep_trusts := ep_trusts self |}.

(** [expix_add_reward] *)
Definition expix_add_reward (self : expix_t double) (arm reward : Z)
  : option (expix_t double) :=
  tr <- add_total (ei_total_rewards self) arm reward ;;
  let '(l, w) := expix_losses_weights self arm reward in
  Some {| ei_n_arms := ei_n_arms self; ei_t := ei_t self;
          ei_pulls := ei_pulls self; ei_total_rewards := tr;
          ei_weights := w; ei_losses := l |}.

End Family.

(** The entries of an array at the arms the mask disables are the same
    [before] and [after] a step. *)
Definition keeps_masked {A : Type} (mask : option (list Z))
    (before after : list A) : Prop :=
  forall j, masked mask j = true -> nth_error after j = nth_error before j.

(** The integer counters of the arms with double-precision
    accumulators. *)
Definition dts_counters {double : Type} (arm : dts_bandit_arm double)
  : Z * Z :=
  (dts_num_selected arm, dts_num_rewarded arm).

Definition dbe_counters {double : Type} (arm : dbe_bandit_arm double)
  : Z * Z :=
  (dbe_num_selected arm, dbe_num_rewarded arm).

End Bandit.

(** * Rare-branch trimmer *)

Module Trim.

Record trim_state (World : Type) := mk_trim {
  t_world : World;
  t_in_buf : list Z;
  t_in_len : Z;
  t_out_buf : list Z;
  t_len_p2 : Z
}.

Section Model.

(** The harness. [common_fuzz_stuff w buf] runs the target on [buf] and
    returns the new harness state and the abandon flag; [hits_branch w b]
    tells whether the last run hit branch [b]; [stop_soon] is the
    interrupt flag. [next_p2] and the three [TRIM_] constants come from the
    headers. The progress display ([stage_name], [stage_cur], [stage_max],
    [show_stats]) is left out. *)
Variable World : Type.
Variable common_fuzz_stuff : World -> list Z -> World * Z.
Variable hits_branch : World -> Z -> bool.
Variable stop_soon : World -> bool.
Variable next_p2 : Z -> Z.
Variable TRIM_START_STEPS : Z.
Variable TRIM_END_STEPS : Z.
Variable TRIM_MIN_BYTES : Z.

(** The inner [while (remove_pos < in_len)]. The boolean of the result is
    set when the loop left through [goto abort_rb_trimming]. *)
Fixpoint trim_inner (fuel : nat) (rb_fuzzing remove_len remove_pos : Z)
    (st : trim_state World) : option (trim_state World * bool) :=
  match fuel with
  | O => None
  | S fuel' =>
      if remove_pos <? t_in_len st then
        let in_len := t_in_len st in
        let trim_avail := Z.min remove_len (u32 (in_len - remove_pos)) in
        let pos := Z.to_nat remove_pos in
        let tail_len := Z.to_nat (u32 (in_len - remove_pos - trim_avail)) in
        let src_off := Z.to_nat (remove_pos + trim_avail) in
        (* HEAD, TAIL *)
        let out1 := blit (t_out_buf st) 0 (t_in_buf st) 0 pos in
        let out2 := blit out1 pos (t_in_buf st) src_off tail_len in
        let '(w1, fault) :=
          common_fuzz_stuff (t_world st)
            (firstn (Z.to_nat (u32 (in_len - trim_avail))) out2) in
        if stop_soon w1 || negb (fault =? 0) then
          Some ({| t_world := w1; t_in_buf := t_in_buf st;
                   t_in_len := in_len; t_out_buf := out2;
                   t_len_p2 := t_len_p2 st |}, true)
        else if hits_branch w1 (u32 (rb_fuzzing - 1)) then
          let in_len' := u32 (in_len - trim_avail) in
          trim_inner fuel' rb_fuzzing remove_len remove_pos
            {| t_world := w1;
               t_in_buf := blit (t_in_buf st) pos (t_in_buf st) src_off
                             tail_len;
               t_in_len := in_len';
               t_out_buf := out2;
               t_len_p2 := next_p2 in_len' |}
        else
          trim_inner fuel' rb_fuzzing remove_len (u32 (remove_pos + remove_len))
            {| t_world := w1; t_in_buf := t_in_buf st;
               t_in_len := in_len; t_out_buf := out2;
               t_len_p2 := t_len_p2 st |}
      else Some (st, false)
  end.

(** The outer [while (remove_len >= MAX(len_p2 / TRIM_END_STEPS,
    TRIM_MIN_BYTES))]. *)
Fixpoint trim_outer (fuel : nat) (rb_fuzzing remove_len : Z)
    (st : trim_state World) : option (trim_state World) :=
  match fuel with
  | O => None
  | S fuel' =>
      if Z.max (t_len_p2 st / TRIM_END_STEPS) (u32 TRIM_MIN_BYTES)
           <=? remove_len
      then
        match trim_inner fuel rb_fuzzing remove_len 0 st with
        | None => None
        | Some (st', true) => Some st'
        | Some (st', false) =>
            trim_outer fuel' rb_fuzzing (Z.shiftr remove_len 1) st'
        end
      else Some st
  end.

(** [trim_case_rb]; the result holds the buffers as the call leaves them
    and the returned length. *)
Definition trim_case_rb (fuel : nat) (w : World) (rb_fuzzing : Z)
    (in_buf : list Z) (in_len : Z) (out_buf : list Z)
  : option (World * list Z * list Z * Z) :=
  if rb_fuzzing =? 0 then Some (w, in_buf, out_buf, in_len)
  else if in_len <? 5 then Some (w, in_buf, out_buf, 0)
  else
    let len_p2 := next_p2 in_len in
    let remove_len :=
      Z.max (len_p2 / TRIM_START_STEPS) (u32 TRIM_MIN_BYTES) in
    match trim_outer fuel rb_fuzzing remove_len
            {| t_world := w; t_in_buf := in_buf; t_in_len := in_len;
               t_out_buf := out_buf; t_len_p2 := len_p2 |} with
    | None => None
    | Some st =>
        Some (t_world st, t_in_buf st, t_out_buf st, t_in_len st)
    end.

(** The rare-branch trim step of [fuzz_one_original]: the call of
    [trim_case_rb], the adoption of a positive result and the
    [memcpy(out_buf, in_buf, len)] behind it. [measure_run w buf] is the
    timed run that refreshes [exec_us] and [bitmap_size]. The result is the
    harness state, [in_buf], the length [len] and [out_buf]. *)
Variable measure_run : World -> list Z -> World.

Definition rb_trim_stage (fuel : nat) (w : World)
    (rb_fuzzing : Z) (trim_for_branch : bool)
    (in_buf : list Z) (len : Z) (out_buf : list Z)
  : option (World * list Z * Z * list Z) :=
  if negb (rb_fuzzing =? 0) && trim_for_branch then
    match trim_case_rb fuel w rb_fuzzing in_buf len out_buf with
    | None => None
    | Some (w1, in1, out1, trim_len) =>
        if 0 <? trim_len then
          let w2 := measure_run w1 (firstn (Z.to_nat trim_len) in1) in
          Some (w2, in1, trim_len,
                blit out1 0 in1 0 (Z.to_nat trim_len))
        else
          Some (w1, in1, len, blit out1 0 in1 0 (Z.to_nat len))
    end
  else Some (w, in_buf, len, blit out_buf 0 in_buf 0 (Z.to_nat len)).

End Model.

End Trim.

(** * Branch mask *)

Module Mask.

(** The three flags of a mask byte. *)
Definition OVERWRITE_SAFE : Z := 1.
Definition DELETE_SAFE : Z := 2.
Definition INSERT_BEFORE_SAFE : Z := 4.

(** [branch_mask[i] & flag]. *)
Definition has_flag (mask : list Z) (i : nat) (flag : Z) : bool :=
  negb (Z.land (rd mask i) flag =? 0).

(** [alloc_branch_mask]; [None] is the [NULL] returned for size 0. *)
Definition alloc_branch_mask (size : Z) : option (list Z) :=
  if size =? 0 then None
  else Some (upd (repeat 7 (Z.to_nat size)) (Z.to_nat (size - 1)) 4).

(** [ck_alloc(size)]: zeroed memory. *)
Definition ck_alloc (size : Z) : list Z := repeat 0 (Z.to_nat size).

(** The allocation of [branch_mask] at the head of [fuzz_one_original],
    for an input of [len] bytes ([orig_branch_mask] is allocated the same
    way). *)
Definition initial_branch_mask (vanilla_afl shadow_mode : bool)
    (use_branch_mask : Z) (len : Z) : option (list Z) :=
  if vanilla_afl || shadow_mode || (use_branch_mask =? 0)
  then alloc_branch_mask (u32 (len + 1))
  else Some (ck_alloc (u32 (len + 1))).

Section Model.

(** The harness and the random source, both part of the fuzzer state
    [World]. [common_fuzz_stuff w buf] returns 0 unless the entry is to be
    abandoned. *)
Variable World : Type.
Variable common_fuzz_stuff : World -> list Z -> World * Z.
Variable hits_branch : World -> Z -> bool.
Variable rand_below : World -> Z -> World * Z.

(** The result of a loop of the deterministic stage: the fuzzer state and
    the mask, and whether the loop left through [goto abandon_entry]. *)
Record built := mk_built {
  b_world : World;
  b_mask : list Z;
  b_abandon : bool
}.

(** The walking-byte loop ("bitflip 8/8") as far as the mask is concerned,
    [todo] bytes from position [i] on. [rb] is set when the mask is being
    built ([rb_fuzzing && !shadow_mode && use_branch_mask > 0]). The
    effector map, which the loop fills on the side, is left out. *)
Fixpoint flip8_loop (rb : bool) (rb_fuzzing : Z) (todo i : nat)
    (w : World) (out_buf mask : list Z) : built :=
  match todo with
  | O => {| b_world := w; b_mask := mask; b_abandon := false |}
  | S todo' =>
      let flipped := upd out_buf i (Z.lxor (rd out_buf i) 255) in
      let '(w1, ab) := common_fuzz_stuff w flipped in
      if negb (ab =? 0)
      then {| b_world := w1; b_mask := mask; b_abandon := true |}
      else
        let mask1 :=
          if rb && hits_branch w1 (u32 (rb_fuzzing - 1))
          then upd mask i 1 else mask in
        flip8_loop rb rb_fuzzing todo' (S i) w1 out_buf mask1
  end.

(** "rbrem8": the run with byte [i] deleted decides [DELETE_SAFE]. *)
Fixpoint rbrem8_loop (rb_fuzzing : Z) (todo i : nat)
    (w : World) (out_buf mask : list Z) : built :=
  match todo with
  | O => {| b_world := w; b_mask := mask; b_abandon := false |}
  | S todo' =>
      let tmp_buf := firstn i out_buf ++ skipn (S i) out_buf in
      let '(w1, ab) := common_fuzz_stuff w tmp_buf in
      if negb (ab =? 0)
      then {| b_world := w1; b_mask := mask; b_abandon := true |}
      else
        let mask1 :=
          if hits_branch w1 (u32 (rb_fuzzing - 1))
          then upd mask i (u8 (rd mask i + 2)) else mask in
        rbrem8_loop rb_fuzzing todo' (S i) w1 out_buf mask1
  end.

(** "rbadd8": the run with a random byte inserted before position [i]
    decides [INSERT_BEFORE_SAFE]; the loop runs for [i = 0 .. len]. *)
Fixpoint rbadd8_loop (rb_fuzzing : Z) (todo i : nat)
    (w : World) (out_buf mask : list Z) : built :=
  match todo with
  | O => {| b_world := w; b_mask := mask; b_abandon := false |}
  | S todo' =>
      let '(w0, byte) := rand_below w 256 in
      let tmp_buf := firstn i out_buf ++ [u8 byte] ++ skipn i out_buf in
      let '(w1, ab) := common_fuzz_stuff w0 tmp_buf in
      if negb (ab =? 0)
      then {| b_world := w1; b_mask := mask; b_abandon := true |}
      else
        let mask1 :=
          if hits_branch w1 (u32 (rb_fuzzing - 1))
          then upd mask i (u8 (rd mask i + 4)) else mask in
        rbadd8_loop rb_fuzzing todo' (S i) w1 out_buf mask1
  end.

(** The mask after the deterministic stage of [fuzz_one_original] for the
    input [out_buf]: allocation, walking-byte loop and, when the mask is
    being built, the two loops behind it. The final [memcpy] makes
    [orig_branch_mask] a copy of the result. *)
Definition deterministic_branch_mask (vanilla_afl shadow_mode : bool)
    (use_branch_mask rb_fuzzing : Z) (w : World) (out_buf : list Z)
  : option built :=
  let len := length out_buf in
  mask0 <- initial_branch_mask vanilla_afl shadow_mode use_branch_mask
             (Z.of_nat len) ;;
  let rb := negb (rb_fuzzing =? 0) && negb shadow_mode
            && (0 <? use_branch_mask) in
  let b1 := flip8_loop rb rb_fuzzing len 0 w out_buf mask0 in
  if b_abandon b1 then Some b1
  else if rb then
    let b2 := rbrem8_loop rb_fuzzing len 0 (b_world b1) out_buf (b_mask b1) in
    if b_abandon b2 then Some b2
    else Some (rbadd8_loop rb_fuzzing (S len) 0 (b_world b2) out_buf
                 (b_mask b2))
  else Some b1.

(** The inner loops [for (u32 j = start; j < bound; j++)
    position_map[position_map_len++] = j;] of
    [get_random_modifiable_posn]. [pm] holds the entries written so far and
    [cap] is the number of entries the allocation of [position_map] holds;
    a write behind it is an error. *)
Definition pm_fill (pm : list Z) (cap : nat) (start bound : Z)
  : option (list Z) :=
  let cnt := Z.max 0 (bound - start) in
  if Z.of_nat (length pm) + cnt <=? Z.of_nat cap
  then Some (pm ++ map Z.of_nat (seq (Z.to_nat start) (Z.to_nat cnt)))
  else None.

(** [MAX(num_to_modify / 8, (u32)1)] *)
Definition num_bytes_of (num_to_modify : Z) : Z :=
  Z.max (num_to_modify / 8) 1.

(** The loop over the mask of [get_random_modifiable_posn] from byte [i]
    on; the state is the position map, [prev_start_of_1_block] and
    [in_0_block]. *)
Fixpoint posn_scan (num_to_modify mod_type : Z) (branch_mask : list Z)
    (cap : nat) (todo i : nat) (pm : list Z) (prev : Z) (in_0_block : bool)
  : option (list Z * Z * bool) :=
  match todo with
  | O => Some (pm, prev, in_0_block)
  | S todo' =>
      if negb (Z.land (rd branch_mask i) mod_type =? 0) then
        if in_0_block
        then posn_scan num_to_modify mod_type branch_mask cap todo' (S i)
               pm (Z.of_nat i) false
        else posn_scan num_to_modify mod_type branch_mask cap todo' (S i)
               pm prev in_0_block
      else
        pm' <- (if negb in_0_block && negb (prev =? -1)
                then pm_fill pm cap (u32 prev)
                       (u32 (Z.of_nat i - num_bytes_of num_to_modify + 1))
                else Some pm) ;;
        posn_scan num_to_modify mod_type branch_mask cap todo' (S i)
          pm' prev true
  end.

(** The positions [get_random_modifiable_posn] draws from. *)
Definition modifiable_positions (num_to_modify mod_type map_len : Z)
    (branch_mask : list Z) (cap : nat) : option (list Z) :=
  r <- posn_scan num_to_modify mod_type branch_mask cap
         (Z.to_nat map_len) 0 [] (-1) true ;;
  let '(pm, prev, in_0_block) := r in
  if in_0_block then Some pm
  else pm_fill pm cap (u32 prev)
         (u32 (map_len - num_bytes_of num_to_modify + 1)).

Definition NO_POSN : Z := 4294967295.

(** [get_random_modifiable_posn]; the result is [NO_POSN] (0xffffffff)
    when the position map is empty. *)
Definition get_random_modifiable_posn (w : World)
    (num_to_modify mod_type map_len : Z) (branch_mask : list Z) (cap : nat)
  : option (World * Z) :=
  pm <- modifiable_positions num_to_modify mod_type map_len branch_mask cap ;;
  match pm with
  | [] => Some (w, NO_POSN)
  | _ :: _ =>
      let '(w1, random_pos) := rand_below w (Z.of_nat (length pm)) in
      if 8 <=? num_to_modify
      then Some (w1, rd pm (Z.to_nat random_pos))
      else
        let '(w2, bit) := rand_below w1 8 in
        Some (w2, u32 (rd pm (Z.to_nat random_pos) + bit))
  end.

(** [get_random_insert_posn]: the positions [0 .. map_len] whose mask byte
    has [INSERT_BEFORE_SAFE]; [map_len] when there is none. *)
Fixpoint insert_scan (branch_mask : list Z) (todo i : nat) (pm : list Z)
  : list Z :=
  match todo with
  | O => pm
  | S todo' =>
      if negb (Z.land (rd branch_mask i) 4 =? 0)
      then insert_scan branch_mask todo' (S i) (pm ++ [Z.of_nat i])
      else insert_scan branch_mask todo' (S i) pm
  end.

Definition get_random_insert_posn (w : World) (map_len : Z)
    (branch_mask : list Z) : World * Z :=
  let pm := insert_scan branch_mask (S (Z.to_nat map_len)) 0 [] in
  match pm with
  | [] => (w, map_len)
  | _ :: _ =>
      let '(w1, k) := rand_below w (Z.of_nat (length pm)) in
      (w1, rd pm (Z.to_nat k))
  end.

End Model.

End Mask.

(** * Rare-branch selector *)

Module RareBranch.

(** The fields of the fuzzer state that the selector reads and writes.
    [hit_bits] has [map_size] entries; [blacklist] is terminated by -1. *)
Record rb_state := mk_rb {
  hit_bits : list Z;
  blacklist : list Z;
  rare_branch_exp : Z;
  max_rare_branches : Z;
  map_size : Z
}.

Definition INT_MAX : Z := 2 ^ 31 - 1.

(** [contains_id]: the scan stops at the terminator -1. *)
Fixpoint contains_id (branch_id : Z) (branch_ids : list Z) : bool :=
  match branch_ids with
  | [] => false
  | x :: rest =>
      if x =? -1 then false
      else if x =? branch_id then true
      else contains_id branch_id rest
  end.

(** [while (cur_hits >>= 1) highest_order_bit++;] *)
Fixpoint highest_order_bit (fuel : nat) (cur_hits hob : Z) : Z :=
  match fuel with
  | O => hob
  | S fuel' =>
      let cur := Z.shiftr cur_hits 1 in
      if cur =? 0 then hob else highest_order_bit fuel' cur (hob + 1)
  end.

(** The scanning loop of [get_lowest_hit_branch_ids] from branch [i] on:
    the state is the array [rare_branch_ids], [ret_list_size],
    [lowest_hob] and [rare_branch_exp]. *)
Fixpoint lowest_scan (st : rb_state) (todo i : nat)
    (ids : list Z) (size lowest_hob exp : Z) : list Z * Z * Z * Z :=
  match todo with
  | O => (ids, size, lowest_hob, exp)
  | S todo' =>
      if size <? u32 (max_rare_branches st - 1) then
        let hits := rd (hit_bits st) i in
        if 0 <? hits then
          if contains_id (Z.of_nat i) (blacklist st)
          then lowest_scan st todo' (S i) ids size lowest_hob exp
          else
            let hob := highest_order_bit 64 hits 0 in
            let lowest_hob' := if hob <? lowest_hob then hob else lowest_hob in
            if hob <? exp then
              let '(exp', size') :=
                if hob <? exp - 1 then (hob + 1, 0) else (exp, size) in
              lowest_scan st todo' (S i)
                (upd ids (Z.to_nat size') (Z.of_nat i)) (size' + 1)
                lowest_hob' exp'
            else lowest_scan st todo' (S i) ids size lowest_hob' exp
        else lowest_scan st todo' (S i) ids size lowest_hob exp
      else (ids, size, lowest_hob, exp)
  end.

(** [get_lowest_hit_branch_ids]; [fuel] bounds the recursive calls. The
    result is the returned array and the new [rare_branch_exp]. *)
Fixpoint get_lowest_hit_branch_ids (fuel : nat) (st : rb_state)
  : option (list Z * Z) :=
  match fuel with
  | O => None
  | S fuel' =>
      let ids0 := repeat 0 (Z.to_nat (max_rare_branches st)) in
      let '(ids, size, lowest_hob, exp) :=
        lowest_scan st (Z.to_nat (map_size st)) 0 ids0 0 INT_MAX
          (rare_branch_exp st) in
      if (size =? 0) && negb (lowest_hob =? INT_MAX) then
        get_lowest_hit_branch_ids fuel'
          {| hit_bits := hit_bits st; blacklist := blacklist st;
             rare_branch_exp := lowest_hob + 1;
             max_rare_branches := max_rare_branches st;
             map_size := map_size st |}
      else Some (upd ids (Z.to_nat size) (-1), exp)
  end.

(** [trace_bits_mini[i >> 3] & (1 << (i & 7))] *)
Definition mini_bit (trace_bits_mini : list Z) (i : nat) : bool :=
  Z.testbit (rd trace_bits_mini (Nat.div i 8)) (Z.of_nat (Nat.modulo i 8)).

(** The loop [for (j = 0; j < min_hit_index; j++)] of [is_rb_hit_mini]
    from [j] on. [branch_cts] and [branch_ids] are the two [u32] arrays as
    bytes; the two [memmove] calls move [min_hit_index - j] bytes. *)
Fixpoint insert_loop (todo j : nat) (min_hit_index : nat) (hits cur : Z)
    (cts ids : list Z) : list Z * list Z :=
  match todo with
  | O => (cts, ids)
  | S todo' =>
      if hits <=? rd32 cts j then
        let n := (min_hit_index - j)%nat in
        let cts1 := blit cts (4 * (j + 1)) cts (4 * j) n in
        let ids1 := blit ids (4 * (j + 1)) ids (4 * j) n in
        insert_loop todo' (S j) min_hit_index hits cur
          (wr32 cts1 j hits) (wr32 ids1 j (cur + 1))
      else insert_loop todo' (S j) min_hit_index hits cur cts ids
  end.

(** The loop over the map of [is_rb_hit_mini] from branch [i] on. *)
Fixpoint rb_scan (st : rb_state) (trace_bits_mini rarest : list Z)
    (todo i : nat) (min_hit_index : nat) (cts ids : list Z)
  : nat * list Z * list Z :=
  match todo with
  | O => (min_hit_index, cts, ids)
  | S todo' =>
      if mini_bit trace_bits_mini i && contains_id (Z.of_nat i) rarest then
        let hits := rd (hit_bits st) i in
        let cur := Z.of_nat i in
        let '(cts0, ids0) :=
          match min_hit_index with
          | O => (wr32 cts 0 hits, wr32 ids 0 (cur + 1))
          | S _ => (cts, ids)
          end in
        let '(cts1, ids1) :=
          insert_loop min_hit_index 0 min_hit_index hits cur cts0 ids0 in
        (* j == min_hit_index when the loop is left *)
        let cts2 := wr32 cts1 min_hit_index hits in
        let ids2 := wr32 ids1 min_hit_index (cur + 1) in
        rb_scan st trace_bits_mini rarest todo' (S i) (S min_hit_index)
          cts2 ids2
      else rb_scan st trace_bits_mini rarest todo' (S i) min_hit_index cts ids
  end.

(** The [u32] entries [0 .. n-1] of a byte array. *)
Definition words (m : list Z) (n : nat) : list Z :=
  map (rd32 m) (seq 0 n).

(** [is_rb_hit_mini]: the returned array up to its terminator 0, each
    entry a branch id plus one ([None] is the [NULL] result), and the new
    [rare_branch_exp]. *)
Definition is_rb_hit_mini (fuel : nat) (st : rb_state)
    (trace_bits_mini : list Z) : option (option (list Z) * Z) :=
  r <- get_lowest_hit_branch_ids fuel st ;;
  let '(rarest, exp) := r in
  let bytes := (4 * Z.to_nat (max_rare_branches st))%nat in
  let '(min_hit_index, cts, ids) :=
    rb_scan st trace_bits_mini rarest (Z.to_nat (map_size st)) 0 0
      (repeat 0 bytes) (repeat 0 bytes) in
  match min_hit_index with
  | O => Some (None, exp)
  | S _ => Some (Some (words (wr32 ids min_hit_index 0) min_hit_index), exp)
  end.

(** What the specification asks of the result: the branches of the rare
    list that the trace hits. *)
Definition rare_and_hit (st : rb_state) (trace_bits_mini rarest : list Z)
    (b : nat) : bool :=
  (Z.of_nat b <? map_size st) && mini_bit trace_bits_mini b
  && contains_id (Z.of_nat b) rarest.

(** Two branches with 3 and 2 hits, both in the rare list, both hit by the
    trace. *)
Definition two_branches : rb_state :=
  {| hit_bits := [3; 2; 0; 0; 0; 0; 0; 0]; blacklist := [-1];
     rare_branch_exp := 4; max_rare_branches := 8; map_size := 8 |}.

End RareBranch.

(** * Havoc stage: the fine-grained operators and the restore phase *)

Module Havoc.

(** [enum MutationByteSize] *)
Inductive MutationByteSize := OTHER | BIT1 | BYTE1 | BYTE2 | BYTE4.

(** The operators of the [switch (r)] for [r] in [0 .. 43]. *)
Inductive fine_case :=
| FLIP_BIT1
| INTERESTING8
| INTERESTING16
| INTERESTING16BE
| INTERESTING32
| INTERESTING32BE
| ARITH8_MINUS
| ARITH8_PLUS
| ARITH16_MINUS
| ARITH16_BE_MINUS
| ARITH16_PLUS
| ARITH16_BE_PLUS
| ARITH32_MINUS
| ARITH32_BE_MINUS
| ARITH32_PLUS
| ARITH32_BE_PLUS
| RAND8.

(** [case 0 ... 3:], [case 4 ... 7:], ... *)
Definition fine_case_of_r (r : Z) : option fine_case :=
  if r <? 0 then None
  else if r <=? 3 then Some FLIP_BIT1
  else if r <=? 7 then Some INTERESTING8
  else if r <=? 9 then Some INTERESTING16
  else if r <=? 11 then Some INTERESTING16BE
  else if r <=? 13 then Some INTERESTING32
  else if r <=? 15 then Some INTERESTING32BE
  else if r <=? 19 then Some ARITH8_MINUS
  else if r <=? 23 then Some ARITH8_PLUS
  else if r <=? 25 then Some ARITH16_MINUS
  else if r <=? 27 then Some ARITH16_BE_MINUS
  else if r <=? 29 then Some ARITH16_PLUS
  else if r <=? 31 then Some ARITH16_BE_PLUS
  else if r <=? 33 then Some ARITH32_MINUS
  else if r <=? 35 then Some ARITH32_BE_MINUS
  else if r <=? 37 then Some ARITH32_PLUS
  else if r <=? 39 then Some ARITH32_BE_PLUS
  else if r <=? 43 then Some RAND8
  else None.

(** The value of [mutation_size] the case sets. *)
Definition mutation_size_of (c : fine_case) : MutationByteSize :=
  match c with
  | FLIP_BIT1 => BIT1
  | INTERESTING8 | ARITH8_MINUS | ARITH8_PLUS | RAND8 => BYTE1
  | INTERESTING16 | INTERESTING16BE | ARITH16_MINUS | ARITH16_BE_MINUS
  | ARITH16_PLUS | ARITH16_BE_PLUS => BYTE2
  | _ => BYTE4
  end.

(** The first argument of [get_random_modifiable_posn] in the case. *)
Definition num_to_modify_of (c : fine_case) : Z :=
  match c with
  | FLIP_BIT1 => 1
  | INTERESTING8 | ARITH8_MINUS | ARITH8_PLUS => 8
  | INTERESTING16 | INTERESTING16BE | ARITH16_MINUS | ARITH16_BE_MINUS
  | ARITH16_PLUS | ARITH16_BE_PLUS => 16
  | _ => 32
  end.

Definition SWAP16 (x : Z) : Z :=
  u16 (Z.lor (Z.shiftl (u16 x) 8) (Z.shiftr (u16 x) 8)).

Definition SWAP32 (x : Z) : Z :=
  let x := u32 x in
  u32 (Z.lor (Z.lor (Z.shiftl x 24) (Z.shiftr x 24))
         (Z.lor (Z.land (Z.shiftl x 8) 16711680)
                (Z.land (Z.shiftr x 8) 65280))).

(** Loads and stores of 1, 2 and 4 bytes at byte offset [pos] of a byte
    array, little-endian; [None] outside the array. *)
Definition load (width : nat) (buf : list Z) (pos : nat) : option Z :=
  if (pos + width <=? length buf)%nat then
    Some (fold_right (fun b acc => b + 2 ^ 8 * acc) 0
            (firstn width (skipn pos buf)))
  else None.

Fixpoint bytes_of (width : nat) (v : Z) : list Z :=
  match width with
  | O => []
  | S width' => v mod 2 ^ 8 :: bytes_of width' (Z.shiftr v 8)
  end.

Definition store (width : nat) (buf : list Z) (pos : nat) (v : Z)
  : option (list Z) :=
  if (pos + width <=? length buf)%nat then
    Some (firstn pos buf ++ bytes_of width v ++ skipn (pos + width) buf)
  else None.

(** [FLIP_BIT(_ar, _b)]:  [_arf[_bf >> 3] ^= (128 >> (_bf & 7))] *)
Definition FLIP_BIT (buf : list Z) (b : Z) : option (list Z) :=
  let i := Z.to_nat (Z.shiftr b 3) in
  old <- load 1 buf i ;;
  store 1 buf i (Z.lxor old (Z.shiftr 128 (Z.land b 7))).

(** The memory one havoc iteration works on: [out_buf] with its length
    [temp_len], the branch mask, and the two arrays that record the
    sub-applications. [mutation_pos] is an array of [u32];
    [mutation_data] is the storage of [mutation_data32], which the code
    also reads and writes as [mutation_data8] and [mutation_data16]. Both
    arrays are locals of the loop body without initialiser: their
    contents at the start of an iteration are whatever the stack holds. *)
Record havoc_mem := mk_mem {
  out_buf : list Z;
  temp_len : Z;
  branch_mask : list Z;
  mutation_pos : list Z;
  mutation_data : list Z
}.

Definition byte_width (s : MutationByteSize) : nat :=
  match s with
  | BYTE1 => 1
  | BYTE2 => 2
  | BYTE4 => 4
  | _ => 0
  end.

(** [mutation_pos[i] = v], inside the 512 entries. *)
Definition set_pos (mp : list Z) (i : nat) (v : Z) : option (list Z) :=
  if (i <? length mp)%nat then Some (upd mp i v) else None.

Section Model.

Variable World : Type.
Variable rand_below : World -> Z -> World * Z.
Variable common_fuzz_stuff : World -> list Z -> World * Z.

(** The tables of interesting values and two constants of the headers. *)
Variable interesting_8 : list Z.
Variable interesting_16 : list Z.
Variable interesting_32 : list Z.
Variable ARITH_MAX : Z.
Variable MIN_LEN_FOR_OPTIMIZED_RESTORE : Z.

Local Abbreviation get_random_modifiable_posn :=
  (Mask.get_random_modifiable_posn rand_below).

(** The value a sub-application of the case stores over the old value
    [old] of the byte, word or dword it picked. *)
Definition new_value (c : fine_case) (w : World) (old : Z) : World * Z :=
  match c with
  | FLIP_BIT1 => (w, old)
  | INTERESTING8 =>
      let '(w1, k) := rand_below w (Z.of_nat (length interesting_8)) in
      (w1, u8 (rd interesting_8 (Z.to_nat k)))
  | INTERESTING16 =>
      let '(w1, k) := rand_below w (Z.of_nat (length interesting_16)) in
      (w1, u16 (rd interesting_16 (Z.to_nat k)))
  | INTERESTING16BE =>
      let '(w1, k) := rand_below w (Z.of_nat (length interesting_16)) in
      (w1, SWAP16 (rd interesting_16 (Z.to_nat k)))
  | INTERESTING32 =>
      let '(w1, k) := rand_below w (Z.of_nat (length interesting_32)) in
      (w1, u32 (rd interesting_32 (Z.to_nat k)))
  | INTERESTING32BE =>
      let '(w1, k) := rand_below w (Z.of_nat (length interesting_32)) in
      (w1, SWAP32 (rd interesting_32 (Z.to_nat k)))
  | ARITH8_MINUS =>
      let '(w1, k) := rand_below w ARITH_MAX in (w1, u8 (old - (1 + k)))
  | ARITH8_PLUS =>
      let '(w1, k) := rand_below w ARITH_MAX in (w1, u8 (old + (1 + k)))
  | ARITH16_MINUS =>
      let '(w1, k) := rand_below w ARITH_MAX in (w1, u16 (old - (1 + k)))
  | ARITH16_BE_MINUS =>
      let '(w1, k) := rand_below w ARITH_MAX in
      (w1, SWAP16 (SWAP16 old - u16 (1 + k)))
  | ARITH16_PLUS =>
      let '(w1, k) := rand_below w ARITH_MAX in (w1, u16 (old + (1 + k)))
  | ARITH16_BE_PLUS =>
      let '(w1, k) := rand_below w ARITH_MAX in
      (w1, SWAP16 (SWAP16 old + u16 (1 + k)))
  | ARITH32_MINUS =>
      let '(w1, k) := rand_below w ARITH_MAX in (w1, u32 (old - (1 + k)))
  | ARITH32_BE_MINUS =>
      let '(w1, k) := rand_below w ARITH_MAX in
      (w1, SWAP32 (SWAP32 old - u32 (1 + k)))
  | ARITH32_PLUS =>
      let '(w1, k) := rand_below w ARITH_MAX in (w1, u32 (old + (1 + k)))
  | ARITH32_BE_PLUS =>
      let '(w1, k) := rand_below w ARITH_MAX in
      (w1, SWAP32 (SWAP32 old + u32 (1 + k)))
  | RAND8 =>
      let '(w1, k) := rand_below w 255 in (w1, Z.lxor old (u8 (1 + k)))
  end.

(** The body of the loop [for (i = 0; i < use_stacking; ++i)] of a
    fine-grained case, sub-application number [i]. The boolean of the
    result is set when the body left the loop through [break]. *)
Definition sub_application (c : fine_case) (i : nat) (w : World)
    (m : havoc_mem) : option (World * havoc_mem * bool) :=
  r <- get_random_modifiable_posn w (num_to_modify_of c) 1 (temp_len m)
         (branch_mask m) (S (Z.to_nat (temp_len m))) ;;
  let '(w1, pos) := r in
  if pos =? Mask.NO_POSN then Some (w1, m, true)
  else
    mp <- set_pos (mutation_pos m) i pos ;;
    match mutation_size_of c with
    | BIT1 =>
        ob <- FLIP_BIT (out_buf m) pos ;;
        Some (w1, {| out_buf := ob; temp_len := temp_len m;
                     branch_mask := branch_mask m; mutation_pos := mp;
                     mutation_data := mutation_data m |}, false)
    | sz =>
        let width := byte_width sz in
        old <- load width (out_buf m) (Z.to_nat pos) ;;
        md <- store width (mutation_data m) (width * i) old ;;
        let '(w2, v) := new_value c w1 old in
        ob <- store width (out_buf m) (Z.to_nat pos) v ;;
        Some (w2, {| out_buf := ob; temp_len := temp_len m;
                     branch_mask := branch_mask m; mutation_pos := mp;
                     mutation_data := md |}, false)
    end.

(** The loop of the case, [todo] sub-applications from number [i] on. The
    number in the result is the value of [i] when the loop is left: the
    number of sub-applications that were carried out. *)
Fixpoint stacking_loop (c : fine_case) (todo i : nat) (w : World)
    (m : havoc_mem) : option (World * havoc_mem * nat) :=
  match todo with
  | O => Some (w, m, i)
  | S todo' =>
      r <- sub_application c i w m ;;
      let '(w1, m1, stop) := r in
      if stop then Some (w1, m1, i) else stacking_loop c todo' (S i) w1 m1
  end.

(** A fine-grained case of the [switch (r)]: the word and dword cases
    leave at once on an input that is too short. Custom mutators, which
    may rewrite [out_buf] ahead of the [switch], are not loaded. *)
Definition havoc_case (c : fine_case) (use_stacking : Z) (w : World)
    (m : havoc_mem) : option (World * havoc_mem * nat) :=
  if (temp_len m <? Z.of_nat (byte_width (mutation_size_of c)))
     && negb (Z.of_nat (byte_width (mutation_size_of c)) =? 1)
  then Some (w, m, O)
  else stacking_loop c (Z.to_nat use_stacking) 0 w m.

(** The loops [for (j = use_stacking - 1; j >= 0; j--)] of the restore
    phase: [todo] entries, the one with the highest number first. *)
Fixpoint restore_loop (sz : MutationByteSize) (todo : nat) (m : havoc_mem)
  : option (list Z) :=
  match todo with
  | O => Some (out_buf m)
  | S j =>
      let pos := rd (mutation_pos m) j in
      ob <- match sz with
            | BIT1 => FLIP_BIT (out_buf m) pos
            | _ =>
                let width := byte_width sz in
                data <- load width (mutation_data m) (width * j) ;;
                store width (out_buf m) (Z.to_nat pos) data
            end ;;
      restore_loop sz j
        {| out_buf := ob; temp_len := temp_len m;
           branch_mask := branch_mask m; mutation_pos := mutation_pos m;
           mutation_data := mutation_data m |}
  end.

(** The restore phase behind the run of the candidate: [len] and [in_buf]
    are the input the havoc stage started from, [orig_branch_mask] the
    mask saved for it. *)
Definition havoc_restore (mutation_size : MutationByteSize)
    (use_stacking len : Z) (in_buf orig_branch_mask : list Z)
    (m : havoc_mem) : option havoc_mem :=
  if MIN_LEN_FOR_OPTIMIZED_RESTORE <=? len then
    match mutation_size with
    | OTHER =>
        Some {| out_buf := firstn (Z.to_nat len) in_buf; temp_len := len;
                branch_mask := branch_mask m;
                mutation_pos := mutation_pos m;
                mutation_data := mutation_data m |}
    | sz =>
        if (temp_len m <? Z.of_nat (byte_width sz))
           && negb (Z.of_nat (byte_width sz) =? 1)
           && negb (Z.of_nat (byte_width sz) =? 0)
        then Some m
        else
          ob <- restore_loop sz (Z.to_nat use_stacking) m ;;
          Some {| out_buf := ob; temp_len := temp_len m;
                  branch_mask := branch_mask m;
                  mutation_pos := mutation_pos m;
                  mutation_data := mutation_data m |}
    end
  else
    Some {| out_buf := firstn (Z.to_nat len) in_buf; temp_len := len;
            branch_mask := firstn (S (Z.to_nat len)) orig_branch_mask;
            mutation_pos := mutation_pos m;
            mutation_data := mutation_data m |}.

(** One havoc iteration with a fine-grained operator: the case, the run
    of the candidate, the restore phase. The boolean of the result is set
    when the run asked to abandon the entry, in which case nothing is
    restored. *)
Definition havoc_fine_iteration (c : fine_case) (use_stacking len : Z)
    (in_buf orig_branch_mask : list Z) (w : World) (m : havoc_mem)
  : option (World * havoc_mem * bool) :=
  r <- havoc_case c use_stacking w m ;;
  let '(w1, m1, _) := r in
  let '(w2, should_abandon) :=
    common_fuzz_stuff w1 (firstn (Z.to_nat (temp_len m1)) (out_buf m1)) in
  if negb (should_abandon =? 0) then Some (w2, m1, true)
  else
    m2 <- havoc_restore (mutation_size_of c) use_stacking len in_buf
            orig_branch_mask m1 ;;
    Some (w2, m2, false).

End Model.

(** The [width] bytes of a buffer at offset [pos]; the memory with another
    [out_buf]; a buffer of bytes. *)
Definition slot (width : nat) (buf : list Z) (pos : nat) : list Z :=
  firstn width (skipn pos buf).

Definition with_out (m : havoc_mem) (ob : list Z) : havoc_mem :=
  {| out_buf := ob; temp_len := temp_len m; branch_mask := branch_mask m;
     mutation_pos := mutation_pos m; mutation_data := mutation_data m |}.

Definition is_byte (b : Z) : Prop := 0 <= b < 256.

(** The entries below [k] of the two recording arrays are the same in [m]
    and in [m']. *)
Definition same_records (width k : nat) (m m' : havoc_mem) : Prop :=
  length (mutation_pos m') = length (mutation_pos m) /\
  length (mutation_data m') = length (mutation_data m) /\
  temp_len m' = temp_len m /\
  forall j, (j < k)%nat ->
    rd (mutation_pos m') j = rd (mutation_pos m) j /\
    slot width (mutation_data m') (width * j)
      = slot width (mutation_data m) (width * j).

(** A two-byte input whose mask allows overwriting byte 1 only. *)
Definition mem_byte1_safe : havoc_mem :=
  {| out_buf := [65; 66]; temp_len := 2; branch_mask := [0; 1; 4];
     mutation_pos := repeat 0 512; mutation_data := repeat 0 2048 |}.

(** A two-byte input whose mask allows no overwrite at all; the two
    recording arrays hold zeros. *)
Definition mem_no_safe_byte : havoc_mem :=
  {| out_buf := [65; 66]; temp_len := 2; branch_mask := [0; 0; 4];
     mutation_pos := repeat 0 512; mutation_data := repeat 0 2048 |}.

End Havoc.

(** * Havoc stage: one iteration of the main loop *)

Module HavocLoop.

(** How the operator is chosen: by the operator bandit over the atomic
    cases ([MOPTWISE_BANDIT]), by a two-armed bandit between the
    fine-grained and the coarse-grained cases
    ([MOPTWISE_BANDIT_FINECOARSE]), or at random. *)
Inductive mut_mode :=
| MOPTWISE_BANDIT
| MOPTWISE_BANDIT_FINECOARSE
| NO_MUT_BANDIT.

(** The compile-time configuration of the loop. [EXP_GUARD] stands for
    [#if MUT_ALG == exppp || MUT_ALG == expix], [BATCH_POW2] for
    [#if BATCH_NUM_ARM == 7]. *)
Record config := mk_config {
  MUT_MODE : mut_mode;
  EXP_GUARD : bool;
  ATOMIZE_CASES : bool;
  BATCHSIZE_BANDIT : bool;
  BATCH_POW2 : bool
}.

Section Model.

(** The fuzzer state [World] with the fields the loop reads, the memory
    [Mem] of the stage ([out_buf], [temp_len], the branch mask, the
    position map), and the two bandit types. *)
Variable World : Type.
Variable Mem : Type.
Variable mut_t : Type.
Variable batch_t : Type.

(** [SELECT_ARM(ALG)] and [ADD_REWARD(ALG)] of the two bandits; [None] is
    an access outside the arrays of the instance. *)
Variable select_mut :
  World -> mut_t -> option (list Z) -> option (World * mut_t * Z).
Variable add_reward_mut : mut_t -> Z -> Z -> option mut_t.
Variable select_batch :
  World -> batch_t -> option (list Z) -> option (World * batch_t * Z).
Variable add_reward_batch : batch_t -> Z -> Z -> option batch_t.

Variable rand_below : World -> Z -> World * Z.
Variable common_fuzz_stuff : World -> Mem -> World * Z.
Variable queued_paths : World -> Z.
Variable havoc_max_mult : World -> Z.
Variable havoc_stack_pow2 : World -> Z.

(** The array [mask] filled at the head of the loop body from
    [extras_cnt], [a_extras_cnt], [ready_for_splicing_count] and [len]; the
    value of [r_max]; the table [case2r] with its two corrections; the
    [switch] that computes [case_idx] from [r]. *)
Variable havoc_case_mask : World -> list Z.
Variable r_max : World -> Z.
Variable r_of_case : World -> Z -> Z.
Variable case_idx_of_r : World -> Mem -> Z -> Z.

(** The [switch (r)] that applies the operator [use_stacking] times; its
    result carries [mutation_size]. The restore phase. *)
Variable havoc_switch :
  World -> Z -> Z -> Mem -> option (World * Mem * Havoc.MutationByteSize).
Variable havoc_restore : Havoc.MutationByteSize -> Z -> Mem -> option Mem.

Variable cfg : config.

(** The variables of [fuzz_one_original] that live across iterations.
    [used_bucket] is the array of batch-size bandits, one per case. *)
Record loop_state := mk_loop {
  world : World;
  mem : Mem;
  mut_bandit : mut_t;
  used_bucket : list batch_t;
  havoc_queued : Z;
  stage_max : Z;
  perf_score : Z;
  total_havocs : Z
}.

Fixpoint set_bucket (bs : list batch_t) (i : nat) (b : batch_t)
  : list batch_t :=
  match bs, i with
  | [], _ => []
  | _ :: t, O => b :: t
  | h :: t, S i' => h :: set_bucket t i' b
  end.

(** What an iteration did, next to the state it leaves: the arms the two
    bandits returned, the bandits as the selection left them, and the way
    the iteration ended. *)
Record report := mk_report {
  after : loop_state;
  selected_case : Z;
  case_idx : Z;
  selected_t : Z;
  mut_selected : mut_t;
  batch_selected : option batch_t;
  exp_invalid : bool;
  should_abandon : bool;
  executed : option World
}.

Definition has_mut_bandit : bool :=
  match MUT_MODE cfg with
  | NO_MUT_BANDIT => false
  | _ => true
  end.

(** [ADD_REWARD(MUT_ALG)(mut_bandit, selected_case, r)] under its [#if]. *)
Definition reward_mut (mb : mut_t) (arm r : Z) : option mut_t :=
  if has_mut_bandit then add_reward_mut mb arm r else Some mb.

(** [ADD_REWARD(BATCH_ALG)(batch_bandit, selected_t, r)] under its
    [#ifdef], written back to its slot of [used_bucket]. *)
Definition reward_batch (bs : list batch_t) (idx : Z) (bb : batch_t)
    (arm r : Z) : option (list batch_t) :=
  if BATCHSIZE_BANDIT cfg
  then bb' <- add_reward_batch bb arm r ;;
       Some (set_bucket bs (Z.to_nat idx) bb')
  else Some (set_bucket bs (Z.to_nat idx) bb).

(** The end of an iteration that ran the candidate: both bandits are
    rewarded with [r], the batch-size bandit first. *)
Definition reward_both (s : loop_state) (w : World) (m : Mem)
    (mb1 : mut_t) (sel idx : Z) (bb1 : batch_t) (t r : Z)
    (queued smax score : Z) : option loop_state :=
  bs <- reward_batch (used_bucket s) idx bb1 t r ;;
  mb <- reward_mut mb1 sel r ;;
  Some {| world := w; mem := m; mut_bandit := mb; used_bucket := bs;
          havoc_queued := queued; stage_max := smax; perf_score := score;
          total_havocs := total_havocs s + 1 |}.

(** The operator choice at the head of the loop body: the fuzzer state,
    the operator bandit, [selected_case], [r], and [exp_invalid]. *)
Definition choose_operator (s : loop_state)
  : option (World * mut_t * Z * Z * bool) :=
  match MUT_MODE cfg with
  | MOPTWISE_BANDIT =>
      let mask := havoc_case_mask (world s) in
      r <- select_mut (world s) (mut_bandit s) (Some mask) ;;
      let '(w1, mb1, sel) := r in
      let invalid :=
        EXP_GUARD cfg && negb (rd mask (Z.to_nat sel) =? 0) in
      Some (w1, mb1, sel, r_of_case w1 sel, invalid)
  | MOPTWISE_BANDIT_FINECOARSE =>
      r <- select_mut (world s) (mut_bandit s) None ;;
      let '(w1, mb1, sel) := r in
      if sel =? 0 then
        let '(w2, k) := rand_below w1 44 in
        Some (w2, mb1, sel, k, false)
      else
        let '(w2, k) := rand_below w1 (u32 (r_max w1 - 44)) in
        Some (w2, mb1, sel, u32 (44 + k), false)
  | NO_MUT_BANDIT =>
      let '(w1, k) := rand_below (world s) (r_max (world s)) in
      Some (w1, mut_bandit s, 0, k, false)
  end.

(** One pass through the body of the havoc loop. *)
Definition havoc_iteration (s : loop_state) : option report :=
  c <- choose_operator s ;;
  let '(w1, mb1, sel, r, invalid) := c in
  if invalid then
    (* goto L_EXP_INVALID; goto L_EXP_INVALID_2 *)
    mb <- reward_mut mb1 sel 0 ;;
    Some {| after :=
              {| world := w1; mem := mem s; mut_bandit := mb;
                 used_bucket := used_bucket s;
                 havoc_queued := havoc_queued s;
                 stage_max := stage_max s; perf_score := perf_score s;
                 total_havocs := total_havocs s + 1 |};
            selected_case := sel; case_idx := 0; selected_t := 0;
            mut_selected := mb1; batch_selected := None;
            exp_invalid := true; should_abandon := false;
            executed := None |}
  else
    let idx := case_idx_of_r w1 (mem s) r in
    if match MUT_MODE cfg with
       | MOPTWISE_BANDIT => ATOMIZE_CASES cfg && negb (idx =? sel)
       | _ => false
       end
    then None (* FATAL *)
    else
      bb <- nth_error (used_bucket s) (Z.to_nat idx) ;;
      b <- (if BATCHSIZE_BANDIT cfg then select_batch w1 bb None
            else let '(w2, k) := rand_below w1 (havoc_stack_pow2 w1 + 1) in
                 Some (w2, bb, k)) ;;
      let '(w2, bb1, t) := b in
      let use_stacking :=
        if BATCH_POW2 cfg then u32 (Z.shiftl 1 t) else u32 (1 + t) in
      m <- havoc_switch w2 r use_stacking (mem s) ;;
      let '(w3, m1, mutation_size) := m in
      let '(w4, abandon) := common_fuzz_stuff w3 m1 in
      if negb (abandon =? 0) then
        s' <- reward_both s w4 m1 mb1 sel idx bb1 t 0
                (havoc_queued s) (stage_max s) (perf_score s) ;;
        Some {| after := s';
                selected_case := sel; case_idx := idx; selected_t := t;
                mut_selected := mb1; batch_selected := Some bb1;
                exp_invalid := false; should_abandon := true;
                executed := Some w4 |}
      else
        m2 <- havoc_restore mutation_size use_stacking m1 ;;
        if negb (queued_paths w4 =? havoc_queued s) then
          let grow := perf_score s <=? havoc_max_mult w4 * 100 in
          s' <- reward_both s w4 m2 mb1 sel idx bb1 t 1
                  (queued_paths w4)
                  (if grow then stage_max s * 2 else stage_max s)
                  (if grow then u32 (perf_score s * 2) else perf_score s) ;;
          Some {| after := s';
                  selected_case := sel; case_idx := idx; selected_t := t;
                  mut_selected := mb1; batch_selected := Some bb1;
                  exp_invalid := false; should_abandon := false;
                  executed := Some w4 |}
        else
          s' <- reward_both s w4 m2 mb1 sel idx bb1 t 0
                  (havoc_queued s) (stage_max s) (perf_score s) ;;
          Some {| after := s';
                  selected_case := sel; case_idx := idx; selected_t := t;
                  mut_selected := mb1; batch_selected := Some bb1;
                  exp_invalid := false; should_abandon := false;
                  executed := Some w4 |}.

(** The reward the specification asks for: 1 when the run of the
    iteration added queue entries, 0 when it did not or asked to abandon
    the entry. [before] is the fuzzer state at the head of the
    iteration. *)
Definition spec_reward (before : World) (rep : report) : Z :=
  match executed rep with
  | Some w =>
      if should_abandon rep then 0
      else if queued_paths w =? queued_paths before then 0 else 1
  | None => 0
  end.

(** The state an iteration on the skip path leaves: the selection has
    advanced the fuzzer state and the operator bandit, the reward has
    produced [mb], and the rest is as it was. *)
Definition skipped (s : loop_state) (w1 : World) (mb : mut_t)
  : loop_state :=
  {| world := w1; mem := mem s; mut_bandit := mb;
     used_bucket := used_bucket s; havoc_queued := havoc_queued s;
     stage_max := stage_max s; perf_score := perf_score s;
     total_havocs := total_havocs s + 1 |}.

End Model.

End HavocLoop.

(** * A configuration to run

    The havoc loop compiled with [MOPTWISE_BANDIT], [MUT_ALG = exppp],
    [BATCHSIZE_BANDIT] and [BATCH_ALG = uniform], over two atomic cases of
    which the mask disables the first. Integers stand in for the doubles,
    every draw is 0, every run of the target adds a queue entry, and the
    fuzzer state is the number of queue entries. *)
Module Scenario.

Import Bandit HavocLoop.

Definition draw0 (w : Z) (limit : Z) : Z * Z := (w, 0).
Definition beta0 (w : Z) (a b : Z) : Z * Z := (w, 0).
Definition target0 (w : Z) : Z * Z := (w, 0).

(** A discrete sampler: the first index of positive weight. *)
Fixpoint first_positive (w : list Z) : nat :=
  match w with
  | [] => O
  | x :: rest => if 0 <? x then O else S (first_positive rest)
  end.

Definition discrete0 (s : Z) (w : list Z) : Z * Z :=
  (s, Z.of_nat (first_positive w)).

(** A power of 2 that is positive for every exponent. *)
Definition pow2 (x : Z) : Z := 2 ^ Z.max 0 x.

Definition sample_mean (t : Z) (arm : normal_bandit_arm Z) : Z :=
  na_sample_mean arm.

(** The double-precision updates of Exp3 leave the arrays as they
    are. *)
Definition keep_trusts (self : exppp_t Z) : list Z := ep_trusts self.

Definition keep_exppp (self : exppp_t Z) (arm reward : Z)
  : list Z * list Z * list Z :=
  (ep_unweighted_losses self, ep_losses self, ep_weights self).

Definition keep_expix (self : expix_t Z) (arm reward : Z)
  : list Z * list Z :=
  (ei_losses self, ei_weights self).

Definition exppp_select :=
  exppp_select_arm (rng := Z) (fun z : Z => z) Z.add Z.ltb target0
    keep_trusts.

Definition exppp_reward := exppp_add_reward keep_exppp.

(** [uniform_select_arm] and [uniform_add_reward] as the batch-size
    bandit; the instance is its array of arms. *)
Definition uniform_select (w : Z) (bb : list uniform_bandit_arm)
    (mask : option (list Z)) : option (Z * list uniform_bandit_arm * Z) :=
  let '(w1, r) := uniform_select_arm draw0 w (Z.of_nat (length bb)) mask in
  match r with
  | Some i => Some (w1, bb, Z.of_nat i)
  | None => None
  end.

Definition uniform_reward (bb : list uniform_bandit_arm) (arm r : Z)
  : option (list uniform_bandit_arm) :=
  Some (uniform_add_reward bb (Z.to_nat arm) r).

Definition cfg : config :=
  {| MUT_MODE := MOPTWISE_BANDIT; EXP_GUARD := true; ATOMIZE_CASES := true;
     BATCHSIZE_BANDIT := true; BATCH_POW2 := true |}.

Definition run_target (w : Z) (m : unit) : Z * Z := (w + 1, 0).
Definition case_mask (w : Z) : list Z := [1; 0].

Definition iteration
    (s : loop_state Z unit (exppp_t Z) (list uniform_bandit_arm))
  : option (report Z unit (exppp_t Z) (list uniform_bandit_arm)) :=
  havoc_iteration exppp_select exppp_reward uniform_select uniform_reward
    draw0 run_target (fun w => w) (fun _ => 16) (fun _ => 7) case_mask
    (fun _ => 2) (fun _ c => c) (fun _ _ r => r)
    (fun w _ _ m => Some (w, m, Havoc.OTHER)) (fun _ _ m => Some m) cfg
    s.

Definition fresh_arm : uniform_bandit_arm :=
  {| ua_num_selected := 0; ua_total_rewards := 0 |}.

Definition fresh_normal_arm : normal_bandit_arm Z :=
  {| na_num_selected := 0; na_total_rewards := 0; na_sample_mean := 0 |}.

Definition two_arms : normal_bandit Z :=
  {| nb_n_arms := 2; nb_time_step := 0;
     nb_arms := [fresh_normal_arm; fresh_normal_arm] |}.

Definition fresh_exppp : exppp_t Z :=
  {| ep_n_arms := 2; ep_t := 0; ep_pulls := [0; 0];
     ep_total_rewards := [0; 0]; ep_weights := [0; 0]; ep_losses := [0; 0];
     ep_unweighted_losses := [0; 0]; ep_trusts := [0; 0] |}.

(** The first iteration of a stage and the state it leaves. *)
Definition first : loop_state Z unit (exppp_t Z) (list uniform_bandit_arm) :=
  {| world := 0; mem := tt; mut_bandit := fresh_exppp;
     used_bucket := [[fresh_arm; fresh_arm]; [fresh_arm; fresh_arm]];
     havoc_queued := 0; stage_max := 16; perf_score := 100;
     total_havocs := 0 |}.

Definition second : loop_state Z unit (exppp_t Z) (list uniform_bandit_arm) :=
  {| world := 0; mem := tt;
     mut_bandit :=
       {| ep_n_arms := 2; ep_t := 1; ep_pulls := [1; 0];
          ep_total_rewards := [0; 0]; ep_weights := [0; 0];
          ep_losses := [0; 0]; ep_unweighted_losses := [0; 0];
          ep_trusts := [0; 0] |};
     used_bucket := [[fresh_arm; fresh_arm]; [fresh_arm; fresh_arm]];
     havoc_queued := 0; stage_max := 16; perf_score := 100;
     total_havocs := 1 |}.

(** Rationals stand in for the doubles where a discount is to be seen:
    the discount factor is 1/2, every Beta sample is 0, every power of 2
    is 1, and the discrete sampler returns arm 1. *)
Definition qlt (a b : Q) : bool := negb (Qle_bool b a).
Definition betaq (w : Z) (a b : Q) : Z * Q := (w, inject_Z 0).
Definition discreteq (w : Z) (weights : list Q) : Z * Z := (w, 1).
Definition powq (x : Q) : Q := inject_Z 1.
Definition half : Q := 1 # 2.

(** An arm with three rewards in four pulls. *)
Definition pulled_dts : dts_bandit_arm Q :=
  {| dts_num_selected := 4; dts_num_rewarded := 3;
     dts_total_rewards := inject_Z 3; dts_total_losses := inject_Z 1 |}.

Definition pulled_dbe : dbe_bandit_arm Q :=
  {| dbe_num_selected := 4; dbe_num_rewarded := 3;
     dbe_total_rewards := inject_Z 3; dbe_dis_num_selected := inject_Z 4;
     dbe_sample_mean := 3 # 4 |}.

Definition dts_select :=
  dts_select_arm inject_Z Qplus Qmult Qdiv qlt betaq half false.

Definition dbe_select :=
  dbe_select_arm draw0 inject_Z Qmult Qdiv powq qlt Qle_bool discreteq half.

(** An arm with one pull and no reward, for the index policies and
    Thompson sampling. *)
Definition pulled_arm : normal_bandit_arm Z :=
  {| na_num_selected := 1; na_total_rewards := 0; na_sample_mean := 0 |}.

Definition pulled_arms : normal_bandit Z :=
  {| nb_n_arms := 2; nb_time_step := 2;
     nb_arms := [pulled_arm; pulled_arm] |}.

End Scenario.

(** * Helpers of the deterministic stages *)

Module Helpers.

(** [s32]: a 32-bit value read as a signed integer. *)
Definition s32 (x : Z) : Z := (x + 2 ^ 31) mod 2 ^ 32 - 2 ^ 31.

(** The loop [while (!(xor_val & 1)) { ++sh; xor_val >>= 1; }] of
    [could_be_bitflip]; on a non-zero [u32] it is left after at most 31
    rounds. *)
Fixpoint first_set_bit (fuel : nat) (sh xor_val : Z) : Z * Z :=
  match fuel with
  | O => (sh, xor_val)
  | S fuel' =>
      if Z.land xor_val 1 =? 0
      then first_set_bit fuel' (u32 (sh + 1)) (Z.shiftr xor_val 1)
      else (sh, xor_val)
  end.

(** [could_be_bitflip] *)
Definition could_be_bitflip (xor_val : Z) : bool :=
  let xor_val := u32 xor_val in
  if xor_val =? 0 then true
  else
    let '(sh, x) := first_set_bit 32 0 xor_val in
    if (x =? 1) || (x =? 3) || (x =? 15) then true
    else if negb (Z.land sh 7 =? 0) then false
    else (x =? 255) || (x =? 65535) || (x =? 4294967295).

Section Arith.

(** [ARITH_MAX] comes from the configuration header. *)
Variable ARITH_MAX : Z.

(** The two loops of [could_be_arith] that compare [old_val] and
    [new_val] unit by unit, [bits] wide ([wrap] is the cast to the unit):
    [todo] units from unit [i] on. [ov] and [nv] keep the last pair of
    units that differ. *)
Fixpoint unit_diffs (bits : Z) (wrap : Z -> Z) (old_val new_val : Z)
    (todo : nat) (i : Z) (ov nv diffs : Z) : Z * Z * Z :=
  match todo with
  | O => (ov, nv, diffs)
  | S todo' =>
      let a := wrap (Z.shiftr old_val (bits * i)) in
      let b := wrap (Z.shiftr new_val (bits * i)) in
      if a =? b
      then unit_diffs bits wrap old_val new_val todo' (i + 1) ov nv diffs
      else unit_diffs bits wrap old_val new_val todo' (i + 1) a b
             (u32 (diffs + 1))
  end.

(** [(cast)(ov - nv) <= ARITH_MAX || (cast)(nv - ov) <= ARITH_MAX] *)
Definition within (wrap : Z -> Z) (ov nv : Z) : bool :=
  (wrap (ov - nv) <=? ARITH_MAX) || (wrap (nv - ov) <=? ARITH_MAX).

(** [could_be_arith]; the callers pass 1, 2 or 4 for [blen]. *)
Definition could_be_arith (old_val new_val blen : Z) : bool :=
  let old_val := u32 old_val in
  let new_val := u32 new_val in
  let blen := u8 blen in
  if old_val =? new_val then true
  else
    let '(ov, nv, diffs) :=
      unit_diffs 8 u8 old_val new_val (Z.to_nat blen) 0 0 0 0 in
    if (diffs =? 1) && within u8 ov nv then true
    else if blen =? 1 then false
    else
      let '(ov, nv, diffs) :=
        unit_diffs 16 u16 old_val new_val (Z.to_nat (blen / 2)) 0 ov nv 0 in
      if (diffs =? 1)
         && (within u16 ov nv
             || within u16 (Havoc.SWAP16 ov) (Havoc.SWAP16 nv))
      then true
      else if blen =? 4 then
        within u32 old_val new_val
        || within u32 (Havoc.SWAP32 old_val) (Havoc.SWAP32 new_val)
      else false.

End Arith.

(** The loop of [locate_diffs] over the positions [pos, pos+1, ...], [todo]
    of them; [f_loc] and [l_loc] are [s32]. *)
Fixpoint locate_diffs_loop (ptr1 ptr2 : list Z) (todo pos : nat)
    (f_loc l_loc : Z) : Z * Z :=
  match todo with
  | O => (f_loc, l_loc)
  | S todo' =>
      if rd ptr1 pos =? rd ptr2 pos
      then locate_diffs_loop ptr1 ptr2 todo' (S pos) f_loc l_loc
      else locate_diffs_loop ptr1 ptr2 todo' (S pos)
             (if f_loc =? -1 then s32 (Z.of_nat pos) else f_loc)
             (s32 (Z.of_nat pos))
  end.

(** [locate_diffs]: the pair [( *first, *last )]. *)
Definition locate_diffs (ptr1 ptr2 : list Z) (len : Z) : Z * Z :=
  locate_diffs_loop ptr1 ptr2 (Z.to_nat len) 0 (-1) (-1).

(** What [locate_diffs] has found after the positions below [n]: no
    difference, or the first one [f] and the last one [l]. *)
Definition located (ptr1 ptr2 : list Z) (n : nat) (f l : Z) : Prop :=
  (f = -1 /\ l = -1 /\
   forall i, (i < n)%nat -> rd ptr1 i = rd ptr2 i) \/
  (0 <= f <= l /\ l < Z.of_nat n /\
   rd ptr1 (Z.to_nat f) <> rd ptr2 (Z.to_nat f) /\
   rd ptr1 (Z.to_nat l) <> rd ptr2 (Z.to_nat l) /\
   (forall i, Z.of_nat i < f -> rd ptr1 i = rd ptr2 i) /\
   (forall i, l < Z.of_nat i -> (i < n)%nat -> rd ptr1 i = rd ptr2 i)).

Section BlockLen.

(** The fuzzer state with its random source and the two fields
    [queue_cycle] and [run_over10m]; the four block sizes of the header. *)
Variable World : Type.
Variable rand_below : World -> Z -> World * Z.
Variable queue_cycle : World -> Z.
Variable run_over10m : World -> bool.
Variable HAVOC_BLK_SMALL : Z.
Variable HAVOC_BLK_MEDIUM : Z.
Variable HAVOC_BLK_LARGE : Z.
Variable HAVOC_BLK_XL : Z.

(** [choose_block_len] *)
Definition choose_block_len (w : World) (limit : Z) : World * Z :=
  let rlim := if run_over10m w then u32 (Z.min (queue_cycle w) 3) else 1 in
  let '(w1, k) := rand_below w rlim in
  let '(w2, min_value, max_value) :=
    if k =? 0 then (w1, 1, HAVOC_BLK_SMALL)
    else if k =? 1 then (w1, HAVOC_BLK_SMALL, HAVOC_BLK_MEDIUM)
    else
      let '(w2, t) := rand_below w1 10 in
      if negb (t =? 0) then (w2, HAVOC_BLK_MEDIUM, HAVOC_BLK_LARGE)
      else (w2, HAVOC_BLK_LARGE, HAVOC_BLK_XL) in
  let min_value := if limit <=? min_value then 1 else min_value in
  let '(w3, r) :=
    rand_below w2 (u32 (Z.min max_value limit - min_value + 1)) in
  (w3, u32 (min_value + r)).

End BlockLen.

End Helpers.

(** * Properties of positions *)

Module Positions.

(** The [n] mask bytes from position [p] on all have a bit of
    [mod_type]. *)
Definition block_safe (mask : list Z) (mod_type p n : Z) : Prop :=
  forall k, 0 <= k < n ->
    Z.land (rd mask (Z.to_nat (p + k))) mod_type <> 0.

(** A position [x] at which [n] bytes can be modified inside the first
    [lim] bytes. *)
Definition fits (mask : list Z) (mod_type n lim x : Z) : Prop :=
  0 <= x /\ x + n <= lim /\ block_safe mask mod_type x n.

End Positions.

(** * Properties of the rare-branch lists *)

Module RareList.

Import RareBranch.

(** A branch that [get_lowest_hit_branch_ids] may list: it lies in the
    map, it has been hit, and the blacklist does not hold it. *)
Definition eligible (st : rb_state) (b : nat) : Prop :=
  Z.of_nat b < map_size st /\ 0 < rd (hit_bits st) b /\
  contains_id (Z.of_nat b) (blacklist st) = false.

(** The order of magnitude of the hit count of branch [b]. *)
Definition hob (st : rb_state) (b : nat) : Z :=
  highest_order_bit 64 (rd (hit_bits st) b) 0.

(** The number of branches below [n] that the trace hits and the rare
    list holds. *)
Fixpoint rare_hits (trace_bits_mini rarest : list Z) (n : nat) : nat :=
  match n with
  | O => O
  | S n' =>
      (rare_hits trace_bits_mini rarest n'
       + if mini_bit trace_bits_mini n'
            && contains_id (Z.of_nat n') rarest then 1 else 0)%nat
  end.

End RareList.

(** * The target branch of an entry *)

Module Target.

(** [fuzzed_branches[byte_offset] & (1 << bit_offset)] for the branch
    [rb_fuzzing - 1]. *)
Definition fuzzed (fuzzed_branches : list Z) (rb_fuzzing : Z) : bool :=
  let byte_offset := Z.to_nat (Z.shiftr (rb_fuzzing - 1) 3) in
  let bit_offset := Z.land (rb_fuzzing - 1) 7 in
  negb (Z.land (rd fuzzed_branches byte_offset) (Z.shiftl 1 bit_offset)
        =? 0).

(** [fuzzed_branches[byte_offset] |= (1 << bit_offset)] *)
Definition set_fuzzed (fuzzed_branches : list Z) (rb_fuzzing : Z) : list Z :=
  let byte_offset := Z.to_nat (Z.shiftr (rb_fuzzing - 1) 3) in
  let bit_offset := Z.land (rb_fuzzing - 1) 7 in
  upd fuzzed_branches byte_offset
    (Z.lor (rd fuzzed_branches byte_offset) (Z.shiftl 1 bit_offset)).

(** The loop [for (k = 0; k < map_size >> 3; k++)] that looks for a
    branch of the entry fuzzed before. *)
Definition any_fuzzed (fuzzed_branches : list Z) (map_size : Z) : bool :=
  existsb (fun x => negb (x =? 0))
    (firstn (Z.to_nat (Z.shiftr map_size 3)) fuzzed_branches).

(** What the head of [fuzz_one_original] settles for the entry. *)
Record target := mk_target {
  rb_fuzzing : Z;
  fuzzed_branches : list Z;
  skip_simple_bitflip : bool;
  rb_skip_deterministic : bool
}.

(** The loop [for (ii = 0; min_branch_hits[ii] != 0; ii++)] over the
    entries in front of the terminator 0: the result of the [break], or
    [None] when the loop reaches the terminator. *)
Fixpoint target_loop (min_branch_hits fb : list Z) (map_size : Z)
    (skip rb_skip : bool) : option target :=
  match min_branch_hits with
  | [] => None
  | h :: rest =>
      if h =? 0 then None
      else if fuzzed fb h
      then target_loop rest fb map_size skip rb_skip
      else Some {| rb_fuzzing := h;
                   fuzzed_branches := set_fuzzed fb h;
                   skip_simple_bitflip := skip || any_fuzzed fb map_size;
                   rb_skip_deterministic := rb_skip |}
  end.

(** The selection of [rb_fuzzing] from the result of [is_rb_hit_mini];
    [None] is [return 1]. *)
Definition select_target (min_branch_hits fb : list Z) (map_size : Z)
    (skip rb_skip : bool) : option target :=
  match target_loop min_branch_hits fb map_size skip rb_skip with
  | Some t => Some t
  | None =>
      let first := hd 0 min_branch_hits in
      if first =? 0 then None
      else Some {| rb_fuzzing := first; fuzzed_branches := fb;
                   skip_simple_bitflip := true;
                   rb_skip_deterministic := true |}
  end.

(** The entry added to the blacklist when no calibration run hit the
    target branch: [blacklist] with the [blacklist_size] slots of its
    allocation and [blacklist_pos]. [fresh] is what the slots that
    [ck_realloc] adds hold. [None] is a write outside the allocation. *)
Definition blacklist_append (blacklist fresh : list Z)
    (blacklist_pos blacklist_size rb_fuzzing : Z)
  : option (list Z * Z * Z) :=
  let '(bl, size) :=
    if blacklist_size - 1 <=? blacklist_pos
    then (firstn (Z.to_nat (2 * blacklist_size)) (blacklist ++ fresh),
          2 * blacklist_size)
    else (blacklist, blacklist_size) in
  if (0 <=? blacklist_pos) && (blacklist_pos + 1 <? size)
     && (Z.to_nat size <=? length bl)%nat
  then Some (upd (upd bl (Z.to_nat blacklist_pos) (rb_fuzzing - 1))
               (Z.to_nat (blacklist_pos + 1)) (-1),
             blacklist_pos + 1, size)
  else None.

End Target.

Lemma upd_length (l : list Z) i v : length (upd l i v) = length l.
Proof. revert i; induction l as [|h t IH]; intros [|i]; simpl; auto. Qed.

Lemma rd_upd_eq (l : list Z) i v : (i < length l)%nat -> rd (upd l i v) i = v.
Proof.
  unfold rd. revert i; induction l as [|h t IH]; intros [|i] H; simpl in *;
    try lia; auto. apply IH; lia.
Qed.

Lemma rd_upd_ne (l : list Z) i j v : i <> j -> rd (upd l i v) j = rd l j.
Proof.
  unfold rd. revert i j; induction l as [|h t IH]; intros [|i] [|j] H; simpl;
    auto; try congruence.
Qed.

Lemma firstn_upd_ge (l : list Z) i n v :
  (n <= i)%nat -> firstn n (upd l i v) = firstn n l.
Proof.
  revert i n; induction l as [|h t IH]; intros [|i] [|n] H; simpl; auto;
    try lia. f_equal. apply IH. lia.
Qed.

Lemma firstn_upd_snoc (l : list Z) i v :
  (i < length l)%nat -> firstn (S i) (upd l i v) = firstn i l ++ [v].
Proof.
  revert i; induction l as [|h t IH]; intros [|i] H; simpl in *; try lia; auto.
  f_equal. apply IH. lia.
Qed.

Lemma list_sumZ_app (l1 l2 : list Z) :
  list_sumZ (l1 ++ l2) = list_sumZ l1 + list_sumZ l2.
Proof. induction l1; simpl; lia. Qed.

Lemma list_sumZ_nonneg (l : list Z) :
  Forall (fun w => 0 <= w) l -> 0 <= list_sumZ l.
Proof. induction 1; simpl; lia. Qed.

(** * Theory of the ADWIN model *)

Module AdwinTheory.

Import Adwin.

Lemma shift_loop_length n i num l :
  length (shift_loop n i num l) = length l.
Proof.
  revert i l; induction n as [|n IH]; intros i l; simpl; auto.
  rewrite IH. apply upd_length.
Qed.

Lemma shift_loop_rd n : forall i num l j,
  (i + n + num <= length l)%nat ->
  rd (shift_loop n i num l) j =
  if ((i <=? j) && (j <? i + n))%nat then rd l (j + num) else rd l j.
Proof.
  induction n as [|n IH]; intros i num l j H; simpl.
  - destruct (i <=? j)%nat eqn:E1, (j <? i + 0)%nat eqn:E2; simpl; auto.
    apply Nat.leb_le in E1. apply Nat.ltb_lt in E2. lia.
  - rewrite IH by (rewrite upd_length; lia).
    destruct (S i <=? j)%nat eqn:E1, (j <? S i + n)%nat eqn:E2; simpl.
    + apply Nat.leb_le in E1. apply Nat.ltb_lt in E2.
      replace ((i <=? j) && (j <? i + S n))%nat with true.
      * apply rd_upd_ne. lia.
      * symmetry. apply andb_true_iff. split;
          [apply Nat.leb_le | apply Nat.ltb_lt]; lia.
    + apply Nat.leb_le in E1. apply Nat.ltb_ge in E2.
      replace ((i <=? j) && (j <? i + S n))%nat with false.
      * apply rd_upd_ne. lia.
      * symmetry. apply andb_false_iff. right. apply Nat.ltb_ge. lia.
    + apply Nat.leb_gt in E1. apply Nat.ltb_lt in E2.
      destruct (Nat.eq_dec j i) as [->|Hne].
      * replace ((i <=? i) && (i <? i + S n))%nat with true.
        -- apply rd_upd_eq. lia.
        -- symmetry. apply andb_true_iff. split;
             [apply Nat.leb_le | apply Nat.ltb_lt]; lia.
      * replace ((i <=? j) && (j <? i + S n))%nat with false.
        -- apply rd_upd_ne. lia.
        -- symmetry. apply andb_false_iff. left. apply Nat.leb_gt. lia.
    + apply Nat.leb_gt in E1. apply Nat.ltb_ge in E2. lia.
Qed.

Lemma windows_remove_front (node : adwin_node_t) num :
  0 <= num <= n_size node ->
  (Z.to_nat (n_size node) <= length (n_sum node))%nat ->
  windows (adwin_remove_front_windows node num) =
  skipn (Z.to_nat num) (windows node).
Proof.
  intros Hn Hl. unfold windows, adwin_remove_front_windows. simpl.
  apply nth_ext with (d := 0) (d' := 0).
  - rewrite length_skipn, !length_firstn, shift_loop_length. lia.
  - intros j Hj. rewrite length_firstn, shift_loop_length in Hj.
    rewrite nth_skipn, !nth_firstn.
    replace (j <? Z.to_nat (n_size node - num))%nat with true
      by (symmetry; apply Nat.ltb_lt; lia).
    replace (Z.to_nat num + j <? Z.to_nat (n_size node))%nat with true
      by (symmetry; apply Nat.ltb_lt; lia).
    change (rd (shift_loop (Z.to_nat (n_size node - num)) 0 (Z.to_nat num)
                  (n_sum node)) j = rd (n_sum node) (Z.to_nat num + j)).
    rewrite shift_loop_rd by lia. simpl.
    replace (j <? Z.to_nat (n_size node - num))%nat with true
      by (symmetry; apply Nat.ltb_lt; lia).
    f_equal. lia.
Qed.

Lemma windows_add_tail (node node' : adwin_node_t) s :
  adwin_add_tail_window node s = Some node' ->
  windows node' = windows node ++ [s] /\
  n_size node' = n_size node + 1 /\
  length (n_sum node') = length (n_sum node).
Proof.
  unfold adwin_add_tail_window. intros H.
  destruct (0 <=? n_size node) eqn:E1; simpl in H; [|discriminate].
  destruct (Z.to_nat (n_size node) <? length (n_sum node))%nat eqn:E2;
    [|discriminate].
  injection H as <-. apply Z.leb_le in E1. apply Nat.ltb_lt in E2.
  unfold windows; simpl. repeat split.
  - replace (Z.to_nat (n_size node + 1)) with (S (Z.to_nat (n_size node)))
      by lia.
    apply firstn_upd_snoc. exact E2.
  - apply upd_length.
Qed.

Lemma add_tail_window_some (node : adwin_node_t) s :
  0 <= n_size node -> (Z.to_nat (n_size node) < length (n_sum node))%nat ->
  exists node', adwin_add_tail_window node s = Some node'.
Proof.
  intros H1 H2. unfold adwin_add_tail_window.
  replace (0 <=? n_size node) with true by (symmetry; apply Z.leb_le; lia).
  replace (Z.to_nat (n_size node) <? length (n_sum node))%nat with true
    by (symmetry; apply Nat.ltb_lt; lia).
  simpl. eauto.
Qed.

Lemma weighted_count_app xs : forall k ys,
  weighted_count k (xs ++ ys) =
  weighted_count k xs + weighted_count (k + Z.of_nat (length xs)) ys.
Proof.
  induction xs as [|x xs IH]; intros k ys; cbn [app weighted_count length].
  - rewrite Z.add_0_r. reflexivity.
  - rewrite IH, Nat2Z.inj_succ.
    replace (k + 1 + Z.of_nat (length xs)) with (k + Z.succ (Z.of_nat (length xs)))
      by lia. lia.
Qed.

Lemma total_sum_app xs ys : total_sum (xs ++ ys) = total_sum xs + total_sum ys.
Proof. induction xs as [|x xs IH]; simpl; lia. Qed.

Lemma set_node_length ns : forall k n, length (set_node ns k n) = length ns.
Proof. induction ns as [|h t IH]; intros [|k] n; simpl; auto. Qed.

Lemma nth_error_set_node ns : forall k n j,
  nth_error (set_node ns k n) j =
  if Nat.eqb j k then (if (k <? length ns)%nat then Some n else None)
  else nth_error ns j.
Proof.
  induction ns as [|h t IH]; intros k n j.
  - destruct k, j; simpl; auto. destruct (Nat.eqb j k); auto.
  - destruct k as [|k], j as [|j]; simpl; auto.
Qed.

Lemma Forall_set_node (P : adwin_node_t -> Prop) ns : forall k n,
  Forall P ns -> P n -> Forall P (set_node ns k n).
Proof.
  induction ns as [|h t IH]; intros [|k] n HF Hn; simpl; auto;
    inversion HF; subst; constructor; auto.
Qed.

Lemma weighted_count_set_node ns : forall k e n n',
  nth_error ns k = Some n ->
  weighted_count e (set_node ns k n') =
  weighted_count e ns + (n_size n' - n_size n) * 2 ^ (e + Z.of_nat k).
Proof.
  induction ns as [|h t IH]; intros [|k] e n n' H; simpl in H; try discriminate.
  - injection H as ->. simpl. rewrite Z.add_0_r. lia.
  - simpl set_node. simpl weighted_count. rewrite (IH k (e + 1) n n' H).
    replace (e + 1 + Z.of_nat k) with (e + Z.of_nat (S k)) by lia. lia.
Qed.

Lemma total_sum_set_node ns : forall k n n',
  nth_error ns k = Some n ->
  total_sum (set_node ns k n') =
  total_sum ns + list_sumZ (windows n') - list_sumZ (windows n).
Proof.
  induction ns as [|h t IH]; intros [|k] n n' H; simpl in H; try discriminate.
  - injection H as ->. simpl. lia.
  - simpl. rewrite (IH k n n' H). lia.
Qed.

Lemma weighted_count_nonneg ns : forall e,
  0 <= e -> Forall (fun n => 0 <= n_size n) ns -> 0 <= weighted_count e ns.
Proof.
  induction ns as [|h t IH]; intros e He HF; simpl; [lia|].
  inversion HF; subst.
  assert (0 <= weighted_count (e + 1) t) by (apply IH; [lia|auto]).
  assert (0 < 2 ^ e) by (apply Z.pow_pos_nonneg; lia). nia.
Qed.

Lemma total_sum_nonneg ns :
  Forall (fun n => Forall (fun w => 0 <= w) (windows n)) ns ->
  0 <= total_sum ns.
Proof.
  induction 1 as [|h t Hh Ht IH]; simpl; [lia|].
  pose proof (list_sumZ_nonneg Hh). lia.
Qed.

Lemma total_sum_ge_node ns : forall k n,
  Forall (fun n => Forall (fun w => 0 <= w) (windows n)) ns ->
  nth_error ns k = Some n -> list_sumZ (windows n) <= total_sum ns.
Proof.
  induction ns as [|h t IH]; intros [|k] n HF H; simpl in H; try discriminate;
    inversion HF; subst; simpl.
  - injection H as ->. pose proof (total_sum_nonneg H3). lia.
  - pose proof (IH k n H3 H). pose proof (list_sumZ_nonneg H2). lia.
Qed.

Lemma weighted_count_ge_node ns : forall k e n,
  0 <= e -> Forall (fun n => 0 <= n_size n) ns ->
  nth_error ns k = Some n ->
  n_size n * 2 ^ (e + Z.of_nat k) <= weighted_count e ns.
Proof.
  induction ns as [|h t IH]; intros [|k] e n He HF H; simpl in H;
    try discriminate; inversion HF; subst; simpl weighted_count.
  - injection H as ->. rewrite Z.add_0_r.
    assert (0 <= weighted_count (e + 1) t)
      by (apply weighted_count_nonneg; [lia|auto]). lia.
  - assert (Hk := IH k (e + 1) n ltac:(lia) H3 H).
    replace (e + 1 + Z.of_nat k) with (e + Z.of_nat (S k)) in Hk by lia.
    assert (0 < 2 ^ e) by (apply Z.pow_pos_nonneg; lia). nia.
Qed.

Section AdwinTheory.

Variable ADWIN_M : Z.
Variable ADWIN_CAP : nat.
Variable ADWIN_MIN_ELEM_TO_START_DROP : Z.
Variable ADWIN_MIN_ELEM_TO_CHECK : Z.
Variable ADWIN_DROP_INTERVAL : Z.
Variable ADWIN_ADAPTIVE_RESETTING : bool.
Variable adwin_should_drop : Z -> Z -> Z -> Z -> Z -> Z -> bool.

Hypothesis M_ge_2 : 2 <= ADWIN_M.
Hypothesis CAP_gt_M : ADWIN_M < Z.of_nat ADWIN_CAP.

Local Abbreviation Inv := (Adwin.Inv ADWIN_M ADWIN_CAP).
Local Abbreviation PreInv := (Adwin.PreInv ADWIN_M ADWIN_CAP).
Local Abbreviation node_ok := (Adwin.node_ok ADWIN_CAP).
Local Abbreviation fresh := (fresh_node ADWIN_CAP).

Lemma node_ok_nonneg ns :
  Forall node_ok ns ->
  Forall (fun n => Forall (fun w => 0 <= w) (windows n)) ns.
Proof. apply Forall_impl. intros n (_ & _ & H). exact H. Qed.

Lemma node_ok_size ns :
  Forall node_ok ns -> Forall (fun n => 0 <= n_size n) ns.
Proof. apply Forall_impl. intros n (_ & H & _). exact H. Qed.

Lemma fresh_ok : node_ok fresh.
Proof.
  unfold Adwin.node_ok, fresh_node, windows; simpl.
  rewrite repeat_length. repeat split; try lia. constructor.
Qed.

Lemma init_inv : Inv (init_adwin ADWIN_CAP).
Proof.
  constructor; simpl; try lia; try discriminate.
  all: repeat constructor; try apply fresh_ok; simpl; lia.
Qed.

Lemma preinv_to_inv k a :
  PreInv k a ->
  (forall n, nth_error (nodes a) k = Some n -> n_size n <= ADWIN_M) ->
  Inv a.
Proof.
  intros P Hk. destruct P. constructor; auto.
  apply Forall_forall. intros n Hin.
  destruct (In_nth_error _ _ Hin) as [j Hj].
  specialize (pre_size0 j n Hj).
  destruct (Nat.eqb j k) eqn:E; [|exact pre_size0].
  apply Nat.eqb_eq in E. subst j. auto.
Qed.

Lemma windows_two (node : adwin_node_t) :
  2 <= n_size node -> (Z.to_nat (n_size node) <= length (n_sum node))%nat ->
  exists rest, windows node =
               rd (n_sum node) 0 :: rd (n_sum node) 1 :: rest.
Proof.
  intros H2 Hl. unfold windows, rd.
  destruct (n_sum node) as [|w0 [|w1 l]]; simpl in Hl; try lia.
  destruct (Z.to_nat (n_size node)) as [|[|m]] eqn:E; try lia.
  simpl. eauto.
Qed.

Lemma windows_one (node : adwin_node_t) :
  1 <= n_size node -> (Z.to_nat (n_size node) <= length (n_sum node))%nat ->
  exists rest, windows node = rd (n_sum node) 0 :: rest.
Proof.
  intros H2 Hl. unfold windows, rd.
  destruct (n_sum node) as [|w0 l]; simpl in Hl; try lia.
  destruct (Z.to_nat (n_size node)) as [|m] eqn:E; try lia.
  simpl. eauto.
Qed.

Lemma u64_small x : 0 <= x < 2 ^ 64 -> u64 x = x.
Proof. intros H. unfold u64. apply Z.mod_small. exact H. Qed.

(** One iteration of the loop of [adwin_normlize_buckets] at an overfull
    node [k]. *)
Lemma normlize_step k a node :
  PreInv k a -> nth_error (nodes a) k = Some node -> ADWIN_M < n_size node ->
  let a1 := match nth_error (nodes a) (S k) with
            | None => adwin_add_tail_node ADWIN_CAP a
            | Some _ => a
            end in
  let s := u64 (rd (n_sum node) 0 + rd (n_sum node) 1) in
  exists nxt nxt',
    nth_error (nodes a1) (S k) = Some nxt /\
    adwin_add_tail_window nxt s = Some nxt' /\
    let a3 := with_nodes a1
                (set_node (set_node (nodes a1) (S k) nxt') k
                   (adwin_remove_front_windows node 2)) in
    PreInv (S k) a3 /\ W a3 = W a /\ sum a3 = sum a /\
    num_add a3 = num_add a /\
    nth_error (nodes a3) (S k) = Some nxt' /\
    (nth_error (nodes a) (S k) = None ->
     n_size nxt' = 1 /\ length (nodes a3) = S (S k)) /\
    (nth_error (nodes a) (S k) <> None ->
     length (nodes a3) = length (nodes a)).
Proof.
  intros P Hk Hbig a1 s.
  destruct P as [Pn Pidx Pok Psz Pne PW Psum PWr Psr].
  assert (Hklt : (k < length (nodes a))%nat)
    by (apply nth_error_Some; congruence).
  assert (Hnode_ok : node_ok node)
    by (eapply Forall_forall; [exact Pok | eapply nth_error_In; eauto]).
  destruct Hnode_ok as (Hlen & Hsz0 & Hw).
  assert (Hsize : n_size node = ADWIN_M + 1).
  { pose proof (Psz k node Hk) as Hs. rewrite Nat.eqb_refl in Hs. lia. }
  assert (HlenZ : (Z.to_nat (n_size node) <= length (n_sum node))%nat)
    by (rewrite Hlen; lia).
  destruct (@windows_two node ltac:(lia) HlenZ) as [rest Hwin].
  rewrite Hwin in Hw.
  assert (Hw0 : 0 <= rd (n_sum node) 0) by (inversion Hw; auto).
  assert (Hw1 : 0 <= rd (n_sum node) 1)
    by (inversion Hw as [|? ? ? Hw']; inversion Hw'; auto).
  assert (Hrest : Forall (fun w => 0 <= w) rest)
    by (inversion Hw as [|? ? ? Hw']; inversion Hw'; auto).
  assert (Hle : list_sumZ (windows node) <= sum a).
  { rewrite Psum. eapply total_sum_ge_node; eauto.
    apply node_ok_nonneg; auto. }
  assert (Hs : s = rd (n_sum node) 0 + rd (n_sum node) 1).
  { subst s. apply u64_small. rewrite Hwin in Hle. simpl in Hle.
    pose proof (list_sumZ_nonneg Hrest). lia. }
  (* facts about a1 *)
  assert (Ha1 : exists nxt,
    nth_error (nodes a1) (S k) = Some nxt /\
    nth_error (nodes a1) k = Some node /\
    node_ok nxt /\ n_size nxt <= ADWIN_M /\
    Forall node_ok (nodes a1) /\
    last_node_idx a1 = Z.of_nat (length (nodes a1)) - 1 /\
    weighted_count 0 (nodes a1) = W a /\ total_sum (nodes a1) = sum a /\
    W a1 = W a /\ sum a1 = sum a /\ num_add a1 = num_add a /\
    (forall j n, nth_error (nodes a1) j = Some n -> j <> S k ->
       1 <= n_size n /\
       n_size n <= (if Nat.eqb j k then ADWIN_M + 1 else ADWIN_M)) /\
    (nth_error (nodes a) (S k) = None ->
       n_size nxt = 0 /\ length (nodes a1) = S (S k)) /\
    (nth_error (nodes a) (S k) <> None ->
       length (nodes a1) = length (nodes a))).
  { subst a1. destruct (nth_error (nodes a) (S k)) as [nxt|] eqn:En.
    - exists nxt.
      assert (Hin : In nxt (nodes a)) by (eapply nth_error_In; eauto).
      split; [exact En|]. split; [exact Hk|].
      split; [eapply Forall_forall; [exact Pok | exact Hin]|].
      split.
      { pose proof (Psz (S k) nxt En) as Hs'.
        replace (Nat.eqb (S k) k) with false in Hs'; auto.
        symmetry. apply Nat.eqb_neq. lia. }
      split; [exact Pok|]. split; [exact Pidx|].
      split; [congruence|]. split; [congruence|].
      split; [reflexivity|]. split; [reflexivity|]. split; [reflexivity|].
      split.
      { intros j n Hj _. split; [|eapply Psz; eauto].
        eapply (@Forall_forall _ (fun n => 1 <= n_size n)); [exact Pne|].
        eapply nth_error_In; eauto. }
      split; [intros H; discriminate|]. intros _; reflexivity.
    - apply nth_error_None in En.
      assert (Hl : length (nodes a) = S k) by lia.
      exists fresh. unfold adwin_add_tail_node.
      cbn [nodes last_node_idx W sum num_add].
      split; [rewrite nth_error_app2 by lia;
              rewrite Hl, Nat.sub_diag; reflexivity|].
      split; [rewrite nth_error_app1 by lia; exact Hk|].
      split; [apply fresh_ok|]. split; [simpl; lia|].
      split; [apply Forall_app; split; auto;
              constructor; [apply fresh_ok|constructor]|].
      split; [rewrite length_app; simpl; lia|].
      split; [rewrite weighted_count_app; simpl; lia|].
      split; [rewrite total_sum_app; simpl; lia|].
      split; [reflexivity|]. split; [reflexivity|]. split; [reflexivity|].
      split.
      { intros j n Hj Hne.
        assert (j < length (nodes a))%nat.
        { assert (j < length (nodes a ++ [fresh]))%nat
            by (apply nth_error_Some; congruence).
          rewrite length_app in *. simpl in *. lia. }
        rewrite nth_error_app1 in Hj by lia.
        split; [|eapply Psz; eauto].
        eapply (@Forall_forall _ (fun n => 1 <= n_size n)); [exact Pne|].
        eapply nth_error_In; eauto. }
      split; [intros _; split; [reflexivity|rewrite length_app; simpl; lia]|].
      intros H; congruence. }
  destruct Ha1 as (nxt & Hnx & Hkk & Hnok & HnM & Hok1 & Hidx1 & HW1 & HS1 &
                   HWa & HSa & HNa & Hothers & Hnone & Hsome).
  destruct Hnok as (Hnlen & Hnsz & Hnw).
  destruct (@add_tail_window_some nxt s Hnsz ltac:(lia)) as [nxt' Hadd].
  destruct (windows_add_tail _ _ Hadd) as (Hwin' & Hsz' & Hlen').
  exists nxt, nxt'. split; [exact Hnx|]. split; [exact Hadd|].
  set (node' := adwin_remove_front_windows node 2).
  assert (Hwn' : windows node' = rest).
  { unfold node'. rewrite windows_remove_front by lia. rewrite Hwin.
    reflexivity. }
  assert (Hsn' : n_size node' = n_size node - 2) by reflexivity.
  assert (Hl1 : (S k < length (nodes a1))%nat)
    by (apply nth_error_Some; congruence).
  assert (Hk2 : nth_error (set_node (nodes a1) (S k) nxt') k = Some node).
  { rewrite nth_error_set_node.
    replace (Nat.eqb k (S k)) with false
      by (symmetry; apply Nat.eqb_neq; lia). exact Hkk. }
  assert (Hnok' : node_ok nxt').
  { repeat split; try lia. rewrite Hwin'. apply Forall_app. split; auto.
    constructor; [lia|constructor]. }
  assert (Hnodeok' : node_ok node').
  { repeat split.
    - unfold node'. simpl. rewrite shift_loop_length. exact Hlen.
    - lia.
    - rewrite Hwn'. exact Hrest. }
  cbv zeta. unfold with_nodes. cbn [nodes last_node_idx W sum num_add].
  split.
  { constructor; cbn [nodes last_node_idx W sum num_add].
    - intros E. apply (f_equal (@length _)) in E.
      rewrite !set_node_length in E. simpl in E. lia.
    - rewrite !set_node_length. exact Hidx1.
    - apply Forall_set_node; auto. apply Forall_set_node; auto.
    - intros j n Hj. rewrite !nth_error_set_node, set_node_length in Hj.
      destruct (Nat.eqb j k) eqn:Ejk.
      + apply Nat.eqb_eq in Ejk. subst j.
        replace (k <? length (nodes a1))%nat with true in Hj
          by (symmetry; apply Nat.ltb_lt; lia).
        injection Hj as <-.
        replace (Nat.eqb k (S k)) with false
          by (symmetry; apply Nat.eqb_neq; lia). lia.
      + destruct (Nat.eqb j (S k)) eqn:Ejs.
        * replace (S k <? length (nodes a1))%nat with true in Hj
            by (symmetry; apply Nat.ltb_lt; lia).
          injection Hj as <-. lia.
        * apply Nat.eqb_neq in Ejs.
          destruct (Hothers j n Hj Ejs) as [_ Hb]. rewrite Ejk in Hb.
          exact Hb.
    - apply Forall_forall. intros n Hin.
      destruct (In_nth_error _ _ Hin) as [j Hj].
      rewrite !nth_error_set_node, set_node_length in Hj.
      destruct (Nat.eqb j k) eqn:Ejk.
      + replace (k <? length (nodes a1))%nat with true in Hj
          by (symmetry; apply Nat.ltb_lt; lia).
        injection Hj as <-. lia.
      + destruct (Nat.eqb j (S k)) eqn:Ejs.
        * replace (S k <? length (nodes a1))%nat with true in Hj
            by (symmetry; apply Nat.ltb_lt; lia).
          injection Hj as <-. lia.
        * apply Nat.eqb_neq in Ejs.
          destruct (Hothers j n Hj Ejs) as [Hb _]. exact Hb.
    - rewrite (@weighted_count_set_node _ _ 0 _ node' Hk2).
      rewrite (@weighted_count_set_node _ _ 0 _ nxt' Hnx).
      rewrite HW1, HWa, Hsz', Hsn', Nat2Z.inj_succ, !Z.add_0_l.
      rewrite Z.pow_succ_r by lia. lia.
    - rewrite (@total_sum_set_node _ _ _ node' Hk2).
      rewrite (@total_sum_set_node _ _ _ nxt' Hnx).
      rewrite HS1, HSa, Hwin', Hwn', Hwin, list_sumZ_app. simpl. lia.
    - rewrite HWa. exact PWr.
    - rewrite HSa. exact Psr. }
  split; [exact HWa|]. split; [exact HSa|]. split; [exact HNa|].
  split.
  { rewrite nth_error_set_node.
    replace (Nat.eqb (S k) k) with false
      by (symmetry; apply Nat.eqb_neq; lia).
    rewrite nth_error_set_node, Nat.eqb_refl.
    replace (S k <? length (nodes a1))%nat with true
      by (symmetry; apply Nat.ltb_lt; lia). reflexivity. }
  split.
  { intros H. rewrite !set_node_length. destruct (Hnone H). split; [lia|auto]. }
  intros H. rewrite !set_node_length. auto.
Qed.

Lemma normlize_loop_inv : forall fuel k a,
  PreInv k a -> (length (nodes a) - k < fuel)%nat ->
  exists a', adwin_normlize_loop ADWIN_M ADWIN_CAP fuel k a = Some a' /\
             Inv a' /\ W a' = W a /\ sum a' = sum a /\
             num_add a' = num_add a.
Proof.
  induction fuel as [|fuel IH]; intros k a P Hf; [lia|].
  cbn [adwin_normlize_loop].
  destruct (nth_error (nodes a) k) as [node|] eqn:Hk.
  2:{ exists a. split; [reflexivity|]. split; [|auto].
      eapply preinv_to_inv; eauto. intros n Hn. congruence. }
  destruct (n_size node <=? ADWIN_M) eqn:Hsz.
  { exists a. split; [reflexivity|]. split; [|auto].
    eapply preinv_to_inv; eauto.
    intros n Hn. apply Z.leb_le in Hsz. congruence. }
  apply Z.leb_gt in Hsz.
  destruct (normlize_step P Hk Hsz)
    as (nxt & nxt' & Hnx & Hadd & HP & HW & HS & HN & Hnth & Hnone & Hsome).
  cbv zeta in *. rewrite Hnx. cbn [bind]. rewrite Hadd. cbn [bind].
  assert (Hklt : (k < length (nodes a))%nat)
    by (apply nth_error_Some; congruence).
  destruct (nth_error (nodes a) (S k)) as [n1|] eqn:En.
  - destruct (IH (S k) _ HP) as (a' & Hrun & Hinv & HW' & HS' & HN').
    + rewrite Hsome by discriminate. lia.
    + exists a'. split; [exact Hrun|]. split; [exact Hinv|].
      repeat split; congruence.
  - destruct (Hnone eq_refl) as [Hone Hlen].
    destruct fuel as [|fuel]; [lia|].
    cbn [adwin_normlize_loop]. rewrite Hnth.
    replace (n_size nxt' <=? ADWIN_M) with true
      by (symmetry; apply Z.leb_le; lia).
    eexists. split; [reflexivity|]. split; [|auto].
    eapply preinv_to_inv; [exact HP|].
    intros n Hn. rewrite Hnth in Hn. injection Hn as <-. lia.
Qed.

Lemma normlize_buckets_inv a :
  PreInv 0 a ->
  exists a', adwin_normlize_buckets ADWIN_M ADWIN_CAP a = Some a' /\
             Inv a' /\ W a' = W a /\ sum a' = sum a /\
             num_add a' = num_add a.
Proof.
  intros P. unfold adwin_normlize_buckets. apply normlize_loop_inv; auto. lia.
Qed.

Local Abbreviation scan_nodes :=
  (Adwin.scan_nodes ADWIN_MIN_ELEM_TO_CHECK adwin_should_drop).
Local Abbreviation adwin_scan :=
  (Adwin.adwin_scan ADWIN_MIN_ELEM_TO_CHECK adwin_should_drop).

Lemma wc_app xs ys : wc (xs ++ ys) = (wc xs + wc ys)%nat.
Proof. induction xs as [|x xs IH]; simpl; [reflexivity|]. rewrite IH. lia. Qed.

Lemma wc_rev xs : wc (rev xs) = wc xs.
Proof.
  induction xs as [|x xs IH]; simpl; [reflexivity|].
  rewrite wc_app, IH. simpl. lia.
Qed.

Lemma scan_nodes_no_windows a back :
  wc back = O ->
  forall e n0 s0 n1 s1, scan_nodes a back e n0 s0 n1 s1 = ScanOn n0 s0 n1 s1.
Proof.
  induction back as [|n back IH]; intros H e n0 s0 n1 s1;
    cbn [Adwin.scan_nodes]; [reflexivity|].
  simpl in H.
  replace (Z.to_nat (n_size n)) with O by lia.
  cbn [Adwin.scan_windows]. apply IH. lia.
Qed.

Lemma scan_drop_windows a :
  adwin_scan a = ScanDrop -> (0 < window_count a)%nat.
Proof.
  intros H. destruct (window_count a) eqn:E; [|lia].
  unfold Adwin.adwin_scan in H.
  rewrite scan_nodes_no_windows in H; [discriminate|].
  rewrite wc_rev. exact E.
Qed.

Lemma expire_inv a :
  Inv a -> (0 < window_count a)%nat ->
  exists a', adwin_expire_last_window a = Some a' /\ Inv a' /\
             S (window_count a') = window_count a /\
             W a' <= W a /\ sum a' <= sum a /\ num_add a' = num_add a.
Proof.
  intros I Hwc. destruct I as [In Iidx Iok Isz Ine IW Isum IWr Isr].
  unfold adwin_expire_last_window.
  destruct (rev (nodes a)) as [|tail before] eqn:Erev.
  { apply (f_equal (@rev _)) in Erev. rewrite rev_involutive in Erev.
    simpl in Erev. congruence. }
  assert (Hnodes : nodes a = rev before ++ [tail]).
  { apply (f_equal (@rev _)) in Erev. rewrite rev_involutive in Erev.
    exact Erev. }
  assert (Hlen : length (nodes a) = S (length before)).
  { rewrite Hnodes, length_app, length_rev. simpl. lia. }
  rewrite Hnodes in Iok, Isz, IW, Isum.
  apply Forall_app in Iok. destruct Iok as [Iokb Iokt].
  apply Forall_app in Isz. destruct Isz as [Iszb Iszt].
  apply Forall_inv in Iokt. destruct Iokt as (Htl & Hts0 & Htw).
  apply Forall_inv in Iszt. rename Iszt into HtM.
  assert (Hts : 1 <= n_size tail).
  { destruct before as [|b before'].
    - unfold window_count in Hwc. rewrite Hnodes in Hwc. simpl in Hwc. lia.
    - assert (Hall : Forall (fun n => 1 <= n_size n) (nodes a))
        by (apply Ine; rewrite Hlen; simpl; lia).
      rewrite Hnodes in Hall. apply Forall_app in Hall.
      destruct Hall as [_ Hall]. inversion Hall; auto. }
  rewrite weighted_count_app, length_rev in IW. simpl in IW.
  rewrite total_sum_app in Isum. simpl in Isum.
  assert (Hwb : 0 <= weighted_count 0 (rev before))
    by (apply weighted_count_nonneg; [lia | apply node_ok_size; auto]).
  assert (Hsb : 0 <= total_sum (rev before))
    by (apply total_sum_nonneg; apply node_ok_nonneg; auto).
  assert (Hpow : 0 < 2 ^ Z.of_nat (length before))
    by (apply Z.pow_pos_nonneg; lia).
  assert (Hidx64 : Z.of_nat (length before) < 64).
  { apply (Z.pow_lt_mono_r_iff 2); lia. }
  assert (Hshl : shl1 (last_node_idx a) = Some (2 ^ Z.of_nat (length before))).
  { unfold shl1. rewrite Iidx, Hlen.
    replace (Z.of_nat (S (length before)) - 1) with (Z.of_nat (length before))
      by lia.
    replace (0 <=? Z.of_nat (length before)) with true
      by (symmetry; apply Z.leb_le; lia).
    replace (Z.of_nat (length before) <? 64) with true
      by (symmetry; apply Z.ltb_lt; lia).
    simpl. rewrite Z.shiftl_1_l. reflexivity. }
  rewrite Hshl. cbn [bind].
  destruct (@windows_one tail Hts ltac:(lia)) as [rest Hwin].
  rewrite Hwin in Htw, Isum. simpl in Isum.
  assert (Hw0 : 0 <= rd (n_sum tail) 0) by (inversion Htw; auto).
  assert (Hrest : Forall (fun w => 0 <= w) rest) by (inversion Htw; auto).
  pose proof (list_sumZ_nonneg Hrest) as Hrs.
  set (tail' := adwin_remove_front_windows tail 1).
  assert (Hwt' : windows tail' = rest).
  { unfold tail'. rewrite windows_remove_front by lia. rewrite Hwin.
    reflexivity. }
  assert (Hst' : n_size tail' = n_size tail - 1) by reflexivity.
  assert (Hokt' : node_ok tail').
  { repeat split.
    - unfold tail'. simpl. rewrite shift_loop_length. exact Htl.
    - lia.
    - rewrite Hwt'. exact Hrest. }
  assert (HW' : u64 (W a - 2 ^ Z.of_nat (length before)) =
                W a - 2 ^ Z.of_nat (length before))
    by (apply u64_small; nia).
  assert (HS' : u64 (sum a - rd (n_sum tail) 0) = sum a - rd (n_sum tail) 0)
    by (apply u64_small; lia).
  rewrite HW', HS'.
  assert (Hwca : window_count a = (wc (rev before) + Z.to_nat (n_size tail))%nat).
  { unfold window_count. rewrite Hnodes, wc_app. simpl. lia. }
  destruct before as [|b before'].
  - (* the tail is the head *)
    eexists. split; [reflexivity|]. split.
    + constructor; cbn [nodes last_node_idx W sum num_add].
      * discriminate.
      * rewrite Iidx, Hlen. reflexivity.
      * constructor; auto.
      * constructor; [lia|constructor].
      * simpl. lia.
      * simpl in *. lia.
      * simpl in *. rewrite Hwt'. lia.
      * simpl in *. lia.
      * lia.
    + unfold window_count at 1. cbn [nodes]. rewrite Hwca. simpl.
      repeat split; lia.
  - assert (Hallb : Forall (fun n => 1 <= n_size n) (rev (b :: before'))).
    { assert (Hall : Forall (fun n => 1 <= n_size n) (nodes a))
        by (apply Ine; rewrite Hlen; simpl; lia).
      rewrite Hnodes in Hall. apply Forall_app in Hall. tauto. }
    assert (Hlb : length (rev (b :: before')) = S (length before'))
      by (rewrite length_rev; reflexivity).
    cbn [rev] in *. set (rb := rev before' ++ [b]) in *.
    cbn [length] in *.
    destruct (n_size tail' =? 0) eqn:E0.
    + apply Z.eqb_eq in E0.
      eexists. split; [reflexivity|]. split.
      * constructor; cbn [nodes last_node_idx W sum num_add].
        -- intros E. apply (f_equal (@length _)) in E.
           rewrite Hlb in E. discriminate.
        -- rewrite Iidx, Hlen, Hlb. lia.
        -- exact Iokb.
        -- exact Iszb.
        -- intros _. exact Hallb.
        -- nia.
        -- assert (Hr : rest = []).
           { rewrite <- Hwt'. unfold windows. rewrite E0. reflexivity. }
           rewrite Hr in Isum. simpl in Isum. lia.
        -- nia.
        -- lia.
      * unfold window_count at 1. cbn [nodes].
        rewrite Hwca. cbn [W sum num_add]. repeat split; lia.
    + apply Z.eqb_neq in E0.
      eexists. split; [reflexivity|]. split.
      * constructor; cbn [nodes last_node_idx W sum num_add].
        -- intros E. apply (f_equal (@length _)) in E.
           rewrite length_app in E. simpl in E. lia.
        -- rewrite Iidx, Hlen, length_app, Hlb. simpl length. lia.
        -- apply Forall_app. split; auto.
        -- apply Forall_app. split; auto. constructor; [lia|constructor].
        -- intros _.
           apply Forall_app. split; auto. constructor; [lia|constructor].
        -- rewrite weighted_count_app, Hlb. cbn [weighted_count].
           rewrite Hst', Z.add_0_l. lia.
        -- rewrite total_sum_app. cbn [total_sum]. rewrite Hwt'. lia.
        -- nia.
        -- lia.
      * unfold window_count at 1. cbn [nodes].
        rewrite wc_app, Hwca. unfold wc at 2. cbn [fold_right]. rewrite Hst'.
        cbn [W sum num_add]. repeat split; lia.
Qed.

Lemma inv_W_nonneg a : Inv a -> 0 <= W a.
Proof.
  intros I. rewrite (inv_W I).
  apply weighted_count_nonneg; [lia|]. apply node_ok_size. apply (inv_node I).
Qed.

Lemma inv_sum_nonneg a : Inv a -> 0 <= sum a.
Proof.
  intros I. rewrite (inv_sum I).
  apply total_sum_nonneg. apply node_ok_nonneg. apply (inv_node I).
Qed.

Lemma inv_num_add a x :
  Inv a ->
  Inv {| nodes := nodes a; last_node_idx := last_node_idx a;
         W := W a; sum := sum a; num_add := x |}.
Proof. intros I. destruct I. constructor; auto. Qed.

Lemma drop_loop_inv : forall fuel a,
  Inv a -> (window_count a < fuel)%nat ->
  exists a',
    adwin_drop_loop ADWIN_CAP ADWIN_MIN_ELEM_TO_CHECK
      ADWIN_ADAPTIVE_RESETTING adwin_should_drop fuel a = Some a' /\
    Inv a' /\ W a' <= W a /\ sum a' <= sum a.
Proof.
  induction fuel as [|fuel IH]; intros a I Hf; [lia|].
  cbn [adwin_drop_loop].
  pose proof (inv_W_nonneg I) as HW0. pose proof (inv_sum_nonneg I) as HS0.
  destruct (Adwin.adwin_scan ADWIN_MIN_ELEM_TO_CHECK adwin_should_drop a)
    eqn:Escan.
  - exists a. split; [reflexivity|]. split; [exact I|]. lia.
  - exists a. split; [reflexivity|]. split; [exact I|]. lia.
  - destruct ADWIN_ADAPTIVE_RESETTING.
    + exists (init_adwin ADWIN_CAP). split; [reflexivity|].
      split; [apply init_inv|]. simpl. lia.
    + destruct (expire_inv I (scan_drop_windows _ Escan))
        as (a1 & Hex & I1 & Hwc & HW1 & HS1 & _).
      rewrite Hex. cbn [bind].
      destruct (IH a1 I1 ltac:(lia)) as (a' & Hrun & I' & HW' & HS').
      exists a'. split; [exact Hrun|]. split; [exact I'|]. lia.
Qed.

Lemma drop_last_till_identical_inv a :
  Inv a ->
  exists a',
    adwin_drop_last_till_identical ADWIN_CAP ADWIN_MIN_ELEM_TO_START_DROP
      ADWIN_MIN_ELEM_TO_CHECK ADWIN_ADAPTIVE_RESETTING adwin_should_drop a
    = Some a' /\
    Inv a' /\ W a' <= W a /\ sum a' <= sum a.
Proof.
  intros I. unfold adwin_drop_last_till_identical.
  destruct (W a <? ADWIN_MIN_ELEM_TO_START_DROP).
  - exists a. split; [reflexivity|]. split; [exact I|]. lia.
  - apply drop_loop_inv; [exact I | lia].
Qed.

Local Abbreviation adwin_add_elem :=
  (Adwin.adwin_add_elem ADWIN_M ADWIN_CAP ADWIN_MIN_ELEM_TO_START_DROP
     ADWIN_MIN_ELEM_TO_CHECK ADWIN_DROP_INTERVAL ADWIN_ADAPTIVE_RESETTING
     adwin_should_drop).

Lemma add_elem_inv a r :
  Inv a -> 0 <= r < 256 -> W a + 1 < 2 ^ 64 -> sum a + r < 2 ^ 64 ->
  exists a', adwin_add_elem a r = Some a' /\ Inv a' /\
             W a' <= W a + 1 /\ sum a' <= sum a + r.
Proof.
  intros I Hr HWb HSb.
  pose proof (inv_W_nonneg I) as HW0. pose proof (inv_sum_nonneg I) as HS0.
  destruct I as [In Iidx Iok Isz Ine IW Isum IWr Isr].
  unfold Adwin.adwin_add_elem.
  destruct (nodes a) as [|head rest] eqn:En; [congruence|].
  pose proof (Forall_inv Iok) as (Hhl & Hhs & Hhw).
  pose proof (Forall_inv Isz) as HhM. cbv beta in HhM.
  destruct (@add_tail_window_some head r Hhs ltac:(lia)) as [head' Hadd].
  destruct (windows_add_tail _ _ Hadd) as (Hwin' & Hsz' & Hlen').
  rewrite Hadd. cbn [bind].
  rewrite (@u64_small (W a + 1)) by lia.
  rewrite (@u64_small (sum a + r)) by lia.
  match goal with
  | |- context [adwin_normlize_buckets _ _ ?x] => set (a1 := x)
  end.
  assert (P : PreInv 0 a1).
  { constructor; subst a1; cbn [nodes last_node_idx W sum num_add].
    - discriminate.
    - rewrite Iidx. reflexivity.
    - constructor; [|exact (Forall_inv_tail Iok)].
      repeat split; try lia. rewrite Hwin'. apply Forall_app. split; auto.
      constructor; [lia|constructor].
    - intros [|j] n Hj; simpl in Hj.
      + injection Hj as <-. simpl. lia.
      + simpl. eapply (@Forall_forall _ (fun n => n_size n <= ADWIN_M));
          [exact (Forall_inv_tail Isz)|]. eapply nth_error_In; eauto.
    - constructor; [lia|].
      destruct rest as [|n2 rest']; [constructor|].
      exact (Forall_inv_tail (Ine ltac:(simpl; lia))).
    - cbn [weighted_count] in *. rewrite Hsz'. lia.
    - cbn [total_sum] in *. rewrite Hwin', list_sumZ_app. simpl. lia.
    - lia.
    - lia. }
  destruct (normlize_buckets_inv P) as (a2 & Hn & I2 & HW2 & HS2 & HN2).
  rewrite Hn. cbn [bind].
  assert (HWa1 : W a1 = W a + 1) by reflexivity.
  assert (HSa1 : sum a1 = sum a + r) by reflexivity.
  destruct (ADWIN_DROP_INTERVAL =? 1).
  - destruct (drop_last_till_identical_inv I2) as (a' & Hd & I' & HW' & HS').
    exists a'. split; [exact Hd|]. split; [exact I'|]. lia.
  - cbn [nodes last_node_idx W sum num_add].
    destruct (num_add a2 + 1 =? ADWIN_DROP_INTERVAL).
    + destruct (drop_last_till_identical_inv (inv_num_add 0 I2))
        as (a' & Hd & I' & HW' & HS').
      exists a'. split; [exact Hd|]. split; [exact I'|].
      cbn [W sum] in *. lia.
    + eexists. split; [reflexivity|].
      split; [apply inv_num_add; exact I2|]. cbn [W sum]. lia.
Qed.

Lemma run_from_inv : forall rs a,
  Inv a -> Forall (fun r => 0 <= r < 256) rs ->
  W a + Z.of_nat (length rs) < 2 ^ 64 -> sum a + list_sumZ rs < 2 ^ 64 ->
  exists a',
    adwin_run_from ADWIN_M ADWIN_CAP ADWIN_MIN_ELEM_TO_START_DROP
      ADWIN_MIN_ELEM_TO_CHECK ADWIN_DROP_INTERVAL ADWIN_ADAPTIVE_RESETTING
      adwin_should_drop a rs = Some a' /\ Inv a'.
Proof.
  induction rs as [|r rs IH]; intros a I HF HW HS.
  - exists a. split; [reflexivity | exact I].
  - cbn [adwin_run_from]. cbn [length list_sumZ fold_right] in *.
    pose proof (Forall_inv HF) as Hr. pose proof (Forall_inv_tail HF) as HF'.
    assert (Hsum0 : 0 <= list_sumZ rs).
    { apply list_sumZ_nonneg. eapply Forall_impl; [|exact HF'].
      simpl. intros; lia. }
    fold (list_sumZ rs) in HS.
    destruct (@add_elem_inv a r I Hr ltac:(lia) ltac:(lia))
      as (a1 & Ha & I1 & HW1 & HS1).
    rewrite Ha. cbn [bind]. apply IH; auto; lia.
Qed.

(** C9. ADWIN invariant: after every [adwin_add_elem] call on an instance
    that started from [init_adwin] (the bucket normalisation, and the
    windows expired or the reset done by change detection, included), the
    call returns, [W] equals [Σ_k |node_k| * 2^k] and [sum] equals
    [Σ_k Σ_i node_k[i]]. The rewards are bytes, and the number of calls and
    the total reward stay below [2^64], the range of the two counters. *)
Theorem adwin_add_elem_invariant (rs : list Z) :
  Forall (fun r => 0 <= r < 256) rs ->
  Z.of_nat (length rs) < 2 ^ 64 ->
  list_sumZ rs < 2 ^ 64 ->
  exists a,
    adwin_run ADWIN_M ADWIN_CAP ADWIN_MIN_ELEM_TO_START_DROP
      ADWIN_MIN_ELEM_TO_CHECK ADWIN_DROP_INTERVAL ADWIN_ADAPTIVE_RESETTING
      adwin_should_drop rs = Some a /\
    W a = weighted_count 0 (nodes a) /\
    sum a = total_sum (nodes a).
Proof.
  intros HF Hlen Hsum. unfold adwin_run.
  destruct (@run_from_inv rs (init_adwin ADWIN_CAP) init_inv HF)
    as (a & Hrun & I); cbn [W sum init_adwin]; try lia.
  exists a. split; [exact Hrun|]. split; [apply (inv_W I) | apply (inv_sum I)].
Qed.

End AdwinTheory.

(** A run with [ADWIN_M = 5] in which the change detector drops windows
    whenever the two halves of the window disagree. *)
Lemma adwin_add_elem_invariant_witness :
  exists a,
    adwin_run 5 6 4 1 1 false
      (fun s0 n0 s1 n1 _ _ => negb (s0 * n1 =? s1 * n0))
      [0; 0; 0; 0; 0; 0; 0; 0; 1; 1; 1; 1; 1; 1; 1; 1; 1; 1] = Some a /\
    W a = weighted_count 0 (nodes a) /\
    sum a = total_sum (nodes a).
Proof.
  apply adwin_add_elem_invariant.
  - lia.
  - lia.
  - repeat constructor; lia.
  - vm_compute. reflexivity.
  - vm_compute. reflexivity.
Defined.

End AdwinTheory.

(** * Theory of the havoc loop *)

Module HavocLoopTheory.

Import HavocLoop.

(** Case analysis on the first [bind], [match] or [if] of a hypothesis. *)
Ltac step_in H :=
  match type of H with
  | bind ?m _ = Some _ =>
      let E := fresh "E" in
      destruct m eqn:E; cbn [bind] in H; [|discriminate H]
  | (let '(_, _) := ?p in _) = Some _ =>
      let E := fresh "E" in destruct p eqn:E
  | (if ?b then _ else _) = Some _ =>
      let E := fresh "E" in destruct b eqn:E
  | (match ?x with _ => _ end) = Some _ =>
      let E := fresh "E" in destruct x eqn:E; try discriminate H
  end.

Section LoopTheory.

Variable World : Type.
Variable Mem : Type.
Variable mut_t : Type.
Variable batch_t : Type.
Variable select_mut :
  World -> mut_t -> option (list Z) -> option (World * mut_t * Z).
Variable add_reward_mut : mut_t -> Z -> Z -> option mut_t.
Variable select_batch :
  World -> batch_t -> option (list Z) -> option (World * batch_t * Z).
Variable add_reward_batch : batch_t -> Z -> Z -> option batch_t.
Variable rand_below : World -> Z -> World * Z.
Variable common_fuzz_stuff : World -> Mem -> World * Z.
Variable queued_paths : World -> Z.
Variable havoc_max_mult : World -> Z.
Variable havoc_stack_pow2 : World -> Z.
Variable havoc_case_mask : World -> list Z.
Variable r_max : World -> Z.
Variable r_of_case : World -> Z -> Z.
Variable case_idx_of_r : World -> Mem -> Z -> Z.
Variable havoc_switch :
  World -> Z -> Z -> Mem -> option (World * Mem * Havoc.MutationByteSize).
Variable havoc_restore : Havoc.MutationByteSize -> Z -> Mem -> option Mem.
Variable cfg : config.

Local Abbreviation havoc_iteration :=
  (HavocLoop.havoc_iteration select_mut add_reward_mut select_batch
     add_reward_batch rand_below common_fuzz_stuff queued_paths
     havoc_max_mult havoc_stack_pow2 havoc_case_mask r_max r_of_case
     case_idx_of_r havoc_switch havoc_restore cfg).
Local Abbreviation choose_operator :=
  (HavocLoop.choose_operator select_mut rand_below havoc_case_mask r_max
     r_of_case cfg).
Local Abbreviation reward_mut := (HavocLoop.reward_mut add_reward_mut cfg).
Local Abbreviation reward_batch :=
  (HavocLoop.reward_batch add_reward_batch cfg).
Local Abbreviation spec_reward := (HavocLoop.spec_reward queued_paths).

(** The skip path: an iteration whose operator bandit returned a masked
    arm under the Exp3 guard. *)
Lemma skip_path (s : loop_state World Mem mut_t batch_t)
    (rep : report World Mem mut_t batch_t) :
  havoc_iteration s = Some rep ->
  exp_invalid rep = true ->
  MUT_MODE cfg = MOPTWISE_BANDIT /\ EXP_GUARD cfg = true /\
  rd (havoc_case_mask (world s)) (Z.to_nat (selected_case rep)) <> 0 /\
  select_mut (world s) (mut_bandit s) (Some (havoc_case_mask (world s)))
    = Some (world (after rep), mut_selected rep, selected_case rep) /\
  executed rep = None /\
  batch_selected rep = None /\
  mem (after rep) = mem s /\
  used_bucket (after rep) = used_bucket s /\
  reward_mut (mut_selected rep) (selected_case rep) 0
    = Some (mut_bandit (after rep)).
Proof.
  intros H Hinv. unfold HavocLoop.havoc_iteration in H.
  step_in H. destruct p as [[[[w1 mb1] sel] r] invalid].
  destruct invalid.
  - step_in H. injection H as <-. cbn.
    unfold HavocLoop.choose_operator in E.
    destruct (MUT_MODE cfg) eqn:Emode.
    + step_in E. destruct p as [[w1' mb1'] sel'].
      injection E as -> -> -> _ Hi.
      apply andb_true_iff in Hi. destruct Hi as [Hg Hm].
      apply negb_true_iff in Hm. apply Z.eqb_neq in Hm.
      repeat split; auto.
    + step_in E. destruct p as [[w1' mb1'] sel'].
      destruct (sel' =? 0); destruct (rand_below _ _); discriminate.
    + destruct (rand_below _ _); discriminate.
  - exfalso. repeat step_in H; try discriminate;
      injection H as <-; discriminate.
Qed.

(** A masked arm from the operator bandit under the Exp3 guard sends the
    iteration down the skip path, whatever the arm. *)
Lemma masked_pick_skips (s : loop_state World Mem mut_t batch_t) w1 mb1 sel
    mb :
  MUT_MODE cfg = MOPTWISE_BANDIT -> EXP_GUARD cfg = true ->
  select_mut (world s) (mut_bandit s) (Some (havoc_case_mask (world s)))
    = Some (w1, mb1, sel) ->
  rd (havoc_case_mask (world s)) (Z.to_nat sel) <> 0 ->
  add_reward_mut mb1 sel 0 = Some mb ->
  havoc_iteration s =
  Some {| after := skipped s w1 mb;
          selected_case := sel; case_idx := 0; selected_t := 0;
          mut_selected := mb1; batch_selected := None;
          exp_invalid := true; should_abandon := false;
          executed := None |}.
Proof.
  intros Hmode Hg Hsel Hm Hr.
  unfold HavocLoop.havoc_iteration, HavocLoop.choose_operator.
  rewrite Hmode, Hsel. cbn [bind]. rewrite Hg.
  replace (rd (havoc_case_mask (world s)) (Z.to_nat sel) =? 0) with false
    by (symmetry; apply Z.eqb_neq; exact Hm).
  cbn [andb negb bind].
  unfold HavocLoop.reward_mut, has_mut_bandit. rewrite Hmode, Hr.
  reflexivity.
Qed.

(** An operator choice that is not sent down the skip path did not return
    a masked arm under the Exp3 guard. *)
Lemma choose_operator_valid (s : loop_state World Mem mut_t batch_t) w1 mb1
    sel r :
  choose_operator s = Some (w1, mb1, sel, r, false) ->
  ~ (MUT_MODE cfg = MOPTWISE_BANDIT /\ EXP_GUARD cfg = true /\
     rd (havoc_case_mask (world s)) (Z.to_nat sel) <> 0).
Proof.
  unfold HavocLoop.choose_operator. intros H (Hmode & Hg & Hm).
  rewrite Hmode in H. step_in H. destruct p as [[w1' mb1'] sel'].
  injection H as _ _ -> _ Hi. rewrite Hg in Hi.
  apply Z.eqb_neq in Hm. rewrite Hm in Hi. discriminate.
Qed.

(** C4, as the code has it. The first part is the skip path: when the
    operator bandit is consulted under the Exp3 guard and returns a masked
    case, whatever the case, the iteration runs nothing, applies the reward
    0 to the operator bandit, and neither consults nor rewards a batch-size
    bandit. The second part covers every iteration that completes: it is
    either the skip path, or it has run the candidate that the operator
    produced, and both bandits have received the same reward, which is 0
    when the run ([common_fuzz_stuff]) asked to abandon the entry, 1 when
    it did not and the number of queue entries differs from the one at the
    head of the iteration, and 0 otherwise. The third part is the way
    back: when the operator choice is not sent down the skip path and the
    steps of the iteration succeed, the iteration completes with both
    bandits rewarded so. [havoc_queued] equals the number of queue entries
    at the head of every iteration. *)
Theorem havoc_rewards (s : loop_state World Mem mut_t batch_t) :
  havoc_queued s = queued_paths (world s) ->
  let mask := havoc_case_mask (world s) in
  (forall w1 mb1 sel mb,
     MUT_MODE cfg = MOPTWISE_BANDIT -> EXP_GUARD cfg = true ->
     select_mut (world s) (mut_bandit s) (Some mask) = Some (w1, mb1, sel) ->
     rd mask (Z.to_nat sel) <> 0 ->
     add_reward_mut mb1 sel 0 = Some mb ->
     exists rep,
       havoc_iteration s = Some rep /\
       executed rep = None /\ batch_selected rep = None /\
       after rep = skipped s w1 mb) /\
  (forall rep,
     havoc_iteration s = Some rep ->
     (executed rep = None /\ batch_selected rep = None /\
      exists w1 mb1 sel mb,
        MUT_MODE cfg = MOPTWISE_BANDIT /\ EXP_GUARD cfg = true /\
        select_mut (world s) (mut_bandit s) (Some mask)
          = Some (w1, mb1, sel) /\
        rd mask (Z.to_nat sel) <> 0 /\
        add_reward_mut mb1 sel 0 = Some mb /\
        after rep = skipped s w1 mb) \/
     (exists w1 mb1 sel r bb w2 bb1 t w3 m1 msz w4 abandon,
        choose_operator s = Some (w1, mb1, sel, r, false) /\
        ~ (MUT_MODE cfg = MOPTWISE_BANDIT /\ EXP_GUARD cfg = true /\
           rd mask (Z.to_nat sel) <> 0) /\
        let idx := case_idx_of_r w1 (mem s) r in
        let use_stacking :=
          if BATCH_POW2 cfg then u32 (Z.shiftl 1 t) else u32 (1 + t) in
        let reward :=
          if abandon =? 0
          then if queued_paths w4 =? queued_paths (world s) then 0 else 1
          else 0 in
        nth_error (used_bucket s) (Z.to_nat idx) = Some bb /\
        (if BATCHSIZE_BANDIT cfg then select_batch w1 bb None
         else let '(w2, k) := rand_below w1 (havoc_stack_pow2 w1 + 1) in
              Some (w2, bb, k)) = Some (w2, bb1, t) /\
        havoc_switch w2 r use_stacking (mem s) = Some (w3, m1, msz) /\
        common_fuzz_stuff w3 m1 = (w4, abandon) /\
        executed rep = Some w4 /\
        world (after rep) = w4 /\
        should_abandon rep = negb (abandon =? 0) /\
        spec_reward (world s) rep = reward /\
        reward_mut mb1 sel reward = Some (mut_bandit (after rep)) /\
        reward_batch (used_bucket s) idx bb1 t reward
          = Some (used_bucket (after rep)) /\
        (abandon = 0 -> havoc_queued (after rep) = queued_paths w4))) /\
  (forall w1 mb1 sel r bb w2 bb1 t w3 m1 msz w4 abandon bs mb,
     choose_operator s = Some (w1, mb1, sel, r, false) ->
     let idx := case_idx_of_r w1 (mem s) r in
     let use_stacking :=
       if BATCH_POW2 cfg then u32 (Z.shiftl 1 t) else u32 (1 + t) in
     let reward :=
       if abandon =? 0
       then if queued_paths w4 =? queued_paths (world s) then 0 else 1
       else 0 in
     (MUT_MODE cfg = MOPTWISE_BANDIT -> ATOMIZE_CASES cfg = true ->
      idx = sel) ->
     nth_error (used_bucket s) (Z.to_nat idx) = Some bb ->
     (if BATCHSIZE_BANDIT cfg then select_batch w1 bb None
      else let '(w2, k) := rand_below w1 (havoc_stack_pow2 w1 + 1) in
           Some (w2, bb, k)) = Some (w2, bb1, t) ->
     havoc_switch w2 r use_stacking (mem s) = Some (w3, m1, msz) ->
     common_fuzz_stuff w3 m1 = (w4, abandon) ->
     (abandon = 0 ->
      exists m2, havoc_restore msz use_stacking m1 = Some m2) ->
     reward_batch (used_bucket s) idx bb1 t reward = Some bs ->
     reward_mut mb1 sel reward = Some mb ->
     exists rep,
       havoc_iteration s = Some rep /\
       executed rep = Some w4 /\
       world (after rep) = w4 /\
       mut_bandit (after rep) = mb /\
       used_bucket (after rep) = bs).
Proof.
  intros Hq mask. split; [|split].
  - intros w1 mb1 sel mb Hmode Hg Hsel Hm Hr.
    eexists. split; [exact (masked_pick_skips s Hmode Hg Hsel Hm Hr)|].
    cbn. repeat split.
  - intros rep H.
    destruct (exp_invalid rep) eqn:Hinv.
    + left.
      destruct (skip_path s H Hinv)
        as (Hmode & Hg & Hm & Hsel & He & Hb & _ & _ & Hr).
      split; [exact He|]. split; [exact Hb|].
      unfold HavocLoop.reward_mut, has_mut_bandit in Hr.
      rewrite Hmode in Hr.
      exists (world (after rep)), (mut_selected rep), (selected_case rep),
        (mut_bandit (after rep)).
      repeat (split; [assumption|]).
      pose proof (masked_pick_skips s Hmode Hg Hsel Hm Hr) as Hs.
      rewrite H in Hs. injection Hs as ->. reflexivity.
    + right. unfold HavocLoop.havoc_iteration in H.
      step_in H. destruct p as [[[[w1 mb1] sel] r] invalid].
      destruct invalid.
      { step_in H. injection H as <-. discriminate. }
      pose proof (choose_operator_valid s E) as Hvalid.
      step_in H; [discriminate|].
      step_in H. step_in H. destruct p as [[w2 bb1] t].
      step_in H. destruct p as [[w3 m1] msz].
      destruct (common_fuzz_stuff w3 m1) as [w4 abandon] eqn:Ecfs.
      exists w1, mb1, sel, r, b, w2, bb1, t, w3, m1, msz, w4, abandon.
      split; [reflexivity|]. split; [exact Hvalid|]. cbn zeta.
      split; [exact E1|]. split; [exact E2|]. split; [exact E3|].
      split; [exact Ecfs|].
      destruct (negb (abandon =? 0)) eqn:Eab.
      * step_in H. injection H as <-.
        unfold HavocLoop.reward_both in E4.
        step_in E4. step_in E4. injection E4 as <-.
        apply negb_true_iff in Eab. rewrite Eab.
        cbn. repeat split; auto.
        intros H0. apply Z.eqb_neq in Eab. contradiction.
      * step_in H.
        apply negb_false_iff in Eab. rewrite Eab.
        destruct (negb (queued_paths w4 =? havoc_queued s)) eqn:Enew.
        -- step_in H. injection H as <-.
           unfold HavocLoop.reward_both in E5.
           step_in E5. step_in E5. injection E5 as <-.
           cbn. rewrite <- Hq.
           apply negb_true_iff in Enew. rewrite Enew.
           repeat split; auto.
        -- step_in H. injection H as <-.
           unfold HavocLoop.reward_both in E5.
           step_in E5. step_in E5. injection E5 as <-.
           cbn. rewrite <- Hq.
           apply negb_false_iff in Enew. rewrite Enew.
           repeat split; auto. intros _. apply Z.eqb_eq in Enew. lia.
  - intros w1 mb1 sel r bb w2 bb1 t w3 m1 msz w4 abandon bs mb Hc idx
      use_stacking reward Hfatal Hn Hb Hs Hcfs Hrest Hrb Hrm.
    unfold HavocLoop.havoc_iteration. rewrite Hc. cbn [bind].
    fold idx.
    assert (Hf : match MUT_MODE cfg with
                 | MOPTWISE_BANDIT =>
                     ATOMIZE_CASES cfg && negb (idx =? sel)
                 | _ => false
                 end = false).
    { destruct (MUT_MODE cfg) eqn:Emode; try reflexivity.
      destruct (ATOMIZE_CASES cfg) eqn:Ea; [|reflexivity].
      rewrite (Hfatal eq_refl eq_refl). rewrite Z.eqb_refl. reflexivity. }
    rewrite Hf, Hn. cbn [bind]. rewrite Hb. cbn [bind].
    fold use_stacking. rewrite Hs. cbn [bind]. rewrite Hcfs.
    unfold reward in Hrb, Hrm.
    destruct (abandon =? 0) eqn:Eab; cbn [negb].
    + apply Z.eqb_eq in Eab. destruct (Hrest Eab) as (m2 & Hm2).
      rewrite Hm2. cbn [bind]. rewrite <- Hq in Hrb, Hrm.
      destruct (queued_paths w4 =? havoc_queued s) eqn:Enew; cbn [negb];
        unfold HavocLoop.reward_both; rewrite Hrb; cbn [bind];
        rewrite Hrm; cbn [bind]; eexists; (split; [reflexivity|]); cbn;
        repeat split.
    + unfold HavocLoop.reward_both. rewrite Hrb. cbn [bind]. rewrite Hrm.
      cbn [bind]. eexists. split; [reflexivity|]. cbn. repeat split.
Qed.

End LoopTheory.

(** The configuration [Scenario]. In its first iteration the Exp3-PP
    operator bandit returns case 0, which the mask disables: the iteration
    takes the skip path and leaves the state [Scenario.second]. In the
    second iteration the bandit returns the enabled case 1, the candidate
    runs and adds a queue entry, and both bandits receive the reward 1. *)
Lemma havoc_rewards_witness :
  (exists rep,
     Scenario.iteration Scenario.first = Some rep /\
     executed rep = None /\ batch_selected rep = None /\
     after rep = Scenario.second) /\
  (exists rep bb,
     Scenario.iteration Scenario.second = Some rep /\
     executed rep = Some 1 /\
     batch_selected rep = Some bb /\
     should_abandon rep = false /\
     reward_mut Scenario.exppp_reward Scenario.cfg (mut_selected rep)
       (selected_case rep) 1 = Some (mut_bandit (after rep)) /\
     reward_batch Scenario.uniform_reward Scenario.cfg
       (used_bucket Scenario.second) (case_idx rep) bb (selected_t rep) 1
       = Some (used_bucket (after rep))).
Proof.
  pose proof
    (fun s =>
       @havoc_rewards _ _ _ _ Scenario.exppp_select Scenario.exppp_reward
         Scenario.uniform_select Scenario.uniform_reward Scenario.draw0
         Scenario.run_target (fun w => w) (fun _ => 16) (fun _ => 7)
         Scenario.case_mask (fun _ => 2) (fun _ c => c) (fun _ _ k => k)
         (fun w _ _ m => Some (w, m, Havoc.OTHER)) (fun _ _ m => Some m)
         Scenario.cfg s) as Hcase.
  split.
  - destruct (Hcase Scenario.first eq_refl) as [Hskip _].
    apply (Hskip 0 (mut_bandit Scenario.second) 0
             (mut_bandit Scenario.second));
      try reflexivity.
    vm_compute. discriminate.
  - destruct (Hcase Scenario.second eq_refl) as [_ [Hrun _]].
    destruct (Hrun _ eq_refl)
      as [(He & _)
         | (w1 & mb1 & sel & r & bb & w2 & bb1 & t & w3 & m1 & msz & w4 &
            abandon & Hc & _ & Hn & Hb & Hs & Hcfs & He & _ & Hab & _ &
            Hrm & Hrb & _)].
    + vm_compute in He. discriminate He.
    + vm_compute in Hc. injection Hc as <- <- <- <-.
      vm_compute in Hn. injection Hn as <-.
      vm_compute in Hb. injection Hb as <- <- <-.
      vm_compute in Hs. injection Hs as <- <- <-.
      vm_compute in Hcfs. injection Hcfs as <- <-.
      eexists. exists [Scenario.fresh_arm; Scenario.fresh_arm].
      split; [reflexivity|].
      split; [exact He|]. split; [reflexivity|].
      split; [exact Hab|]. split; [exact Hrm | exact Hrb].
Defined.

(** C4 as the specification words it fails: in the first iteration of
    the configuration [Scenario] the Exp3-PP operator bandit returns
    case 0, which the mask disables. Nothing is run, the operator bandit
    receives the reward 0, and no batch-size bandit is consulted or
    updated. *)
Lemma havoc_rewards_counterexample :
  exists rep,
    Scenario.iteration Scenario.first = Some rep /\
    exp_invalid rep = true /\
    after rep = Scenario.second /\
    executed rep = None /\
    batch_selected rep = None /\
    used_bucket (after rep) = used_bucket Scenario.first /\
    Scenario.exppp_reward (mut_selected rep) (selected_case rep) 0
      = Some (mut_bandit (after rep)).
Proof.
  eexists. split; [vm_compute; reflexivity|].
  repeat split.
Qed.

End HavocLoopTheory.

(** * Theory of the bandit selectors *)

Module BanditTheory.

Import Bandit.

Lemma uniform_count_ge mask : forall todo i cnt,
  cnt <= uniform_count mask todo i cnt.
Proof.
  induction todo as [|todo IH]; intros i cnt; simpl; [lia|].
  destruct (masked mask i).
  - apply IH.
  - specialize (IH (S i) (cnt + 1)). lia.
Qed.

Lemma uniform_count_shift mask : forall todo i cnt,
  uniform_count mask todo i cnt = cnt + uniform_count mask todo i 0.
Proof.
  induction todo as [|todo IH]; intros i cnt; simpl; [lia|].
  destruct (masked mask i).
  - apply IH.
  - rewrite (IH (S i) (cnt + 1)), (IH (S i) 1). lia.
Qed.

(** The walk of [uniform_pick] ends on an enabled arm as soon as [k] is
    smaller than the number of enabled arms ahead. *)
Lemma uniform_pick_enabled mask : forall todo i k,
  0 <= k < uniform_count mask todo i 0 ->
  exists j, uniform_pick mask todo i k = Some j /\
            (i <= j < i + todo)%nat /\ masked mask j = false.
Proof.
  induction todo as [|todo IH]; intros i k Hk; simpl in *; [lia|].
  destruct (masked mask i) eqn:Em.
  - destruct (IH (S i) k Hk) as (j & Hj & Hr & Hm).
    exists j. repeat split; auto; lia.
  - destruct (k =? 0) eqn:Ek.
    + exists i. repeat split; auto; lia.
    + apply Z.eqb_neq in Ek. rewrite uniform_count_shift in Hk.
      destruct (IH (S i) (k - 1) ltac:(lia)) as (j & Hj & Hr & Hm).
      exists j. repeat split; auto; lia.
Qed.

Lemma uniform_count_pos mask : forall todo i j,
  (i <= j < i + todo)%nat -> masked mask j = false ->
  0 < uniform_count mask todo i 0.
Proof.
  induction todo as [|todo IH]; intros i j Hj Hm; simpl; [lia|].
  destruct (Nat.eq_dec i j) as [->|Hne].
  - rewrite Hm. pose proof (uniform_count_ge mask todo (S j) 1). lia.
  - destruct (masked mask i).
    + apply (IH (S i) j); [lia|auto].
    + pose proof (uniform_count_ge mask todo (S i) 1). lia.
Qed.

Section UniformTheory.

Variable rng : Type.
Variable rand_below : rng -> Z -> rng * Z.

(** The contract of the random source: a draw below a positive limit lies
    in [[0, limit)]. *)
Hypothesis rand_below_range :
  forall s limit, 0 < limit -> 0 <= snd (rand_below s limit) < limit.

(** The draw falls below the number of enabled arms, and the second loop
    stops at the enabled arm of that rank. *)
Lemma uniform_select_arm_picks (s : rng) (n_arms : Z)
    (mask : option (list Z)) :
  (exists j, (j < Z.to_nat n_arms)%nat /\ masked mask j = false) ->
  exists i, snd (uniform_select_arm rand_below s n_arms mask) = Some i /\
            (i < Z.to_nat n_arms)%nat /\ masked mask i = false.
Proof.
  intros (j & Hj & Hm). unfold uniform_select_arm.
  assert (Hpos : 0 < uniform_count mask (Z.to_nat n_arms) 0 0)
    by (apply (@uniform_count_pos mask _ 0%nat j); [lia|auto]).
  pose proof (rand_below_range s Hpos) as Hk.
  destruct (rand_below s (uniform_count mask (Z.to_nat n_arms) 0 0))
    as [s' k]. simpl in Hk. simpl.
  destruct (uniform_pick_enabled mask (Z.to_nat n_arms) 0 Hk)
    as (i & Hi & Hr & Hmi).
  exists i. repeat split; auto; lia.
Qed.

(** C10. With at least one arm and a mask, possibly [NULL], that leaves an
    arm enabled, [uniform_select_arm] returns the index of an enabled arm
    below [n_arms]: the [assert(0)] behind its loops is not reached. *)
Theorem uniform_select_arm_enabled (s : rng) (n_arms : Z)
    (mask : option (list Z)) :
  1 <= n_arms ->
  (exists j, (j < Z.to_nat n_arms)%nat /\ masked mask j = false) ->
  exists i, snd (uniform_select_arm rand_below s n_arms mask) = Some i /\
            (i < Z.to_nat n_arms)%nat /\ masked mask i = false.
Proof. intros _ H. apply uniform_select_arm_picks. exact H. Qed.

End UniformTheory.

Lemma update_arm_other (A : Type) (f : A -> A) : forall arms idx j,
  j <> idx -> nth_error (update_arm arms idx f) j = nth_error arms j.
Proof.
  induction arms as [|a rest IH]; intros [|idx] [|j] H; simpl; auto;
    try congruence.
Qed.

Lemma update_arm_length (A : Type) (f : A -> A) : forall arms idx,
  length (update_arm arms idx f) = length arms.
Proof. induction arms as [|a rest IH]; intros [|idx]; simpl; auto. Qed.

(** An arm the mask disables differs from every enabled arm. *)
Lemma masked_neq mask i j :
  masked mask i = false -> masked mask j = true -> j <> i.
Proof. intros Hi Hj E. subst. congruence. Qed.

Section FamilyTheory.

Variable rng : Type.
Variable rand_below : rng -> Z -> rng * Z.
Variable double : Type.
Variable d_of_Z : Z -> double.
Variable dadd : double -> double -> double.
Variable dmul : double -> double -> double.
Variable ddiv : double -> double -> double.
Variable dpow2 : double -> double.
Variable dlt : double -> double -> bool.
Variable dle : double -> double -> bool.
Variable gsl_ran_beta : rng -> double -> double -> rng * double.
Variable gsl_rng_uniform : rng -> rng * double.
Variable gsl_ran_discrete : rng -> list double -> rng * Z.
Variable ucb_index : Z -> normal_bandit_arm double -> double.
Variable klucb_klucb : Z -> normal_bandit_arm double -> double.
Variable DTS_GAMMA : double.
Variable DBE_GAMMA : double.
Variable OPTIMISTIC_DTS : bool.
Variable exppp_update_trusts : exppp_t double -> list double.
Variable exppp_losses_weights :
  exppp_t double -> Z -> Z -> list double * list double * list double.
Variable expix_losses_weights :
  expix_t double -> Z -> Z -> list double * list double.

(** Contracts of the random source and of [<] on doubles: a draw below a
    positive limit lies in [[0, limit)]; [<] is transitive and 0 is not
    below itself. What the selectors need of the samplers and of the index
    formulas is asked of the values of the call at hand, where it is
    used. *)
Hypothesis rand_below_range :
  forall s limit, 0 < limit -> 0 <= snd (rand_below s limit) < limit.
Hypothesis dlt_trans :
  forall a b c, dlt a b = true -> dlt b c = true -> dlt a c = true.
Hypothesis dlt_zero : dlt (d_of_Z 0) (d_of_Z 0) = false.

Local Abbreviation index_loop := (Bandit.index_loop dlt).
Local Abbreviation ts_loop := (Bandit.ts_loop d_of_Z dlt gsl_ran_beta).
Local Abbreviation dts_loop :=
  (Bandit.dts_loop d_of_Z dadd ddiv dlt gsl_ran_beta OPTIMISTIC_DTS).

(** [selected_idx] of the UCB loops is unassigned or an enabled arm. *)
Lemma index_loop_enabled index mask : forall arms i max_ucb sel k,
  (forall k0, sel = Some k0 -> masked mask k0 = false) ->
  index_loop index mask arms i max_ucb sel = Some k ->
  masked mask k = false.
Proof.
  induction arms as [|a rest IH]; intros i max_ucb sel k Hsel Hr;
    cbn [Bandit.index_loop] in Hr.
  - auto.
  - destruct (masked mask i) eqn:Em; [eapply IH; eauto|].
    destruct (na_num_selected a =? 0); [congruence|].
    destruct (dlt max_ucb (index a)); [|eapply IH; eauto].
    eapply IH; [|exact Hr]. intros k0 E. congruence.
Qed.

(** Once assigned, [selected_idx] stays assigned. *)
Lemma index_loop_assigned index mask : forall arms i max_ucb k,
  exists k', index_loop index mask arms i max_ucb (Some k) = Some k'.
Proof.
  induction arms as [|a rest IH]; intros i max_ucb k;
    cbn [Bandit.index_loop].
  - eauto.
  - destruct (masked mask i); [apply IH|].
    destruct (na_num_selected a =? 0); [eauto|].
    destruct (dlt max_ucb (index a)); apply IH.
Qed.

(** The loop assigns [selected_idx] at the first enabled arm it meets:
    the arm was never pulled, or its index is above the initial -1. *)
Lemma index_loop_total index mask : forall arms i,
  (exists j, (j < length arms)%nat /\ masked mask (i + j) = false) ->
  (forall j a, nth_error arms j = Some a -> masked mask (i + j) = false ->
     na_num_selected a <> 0 -> dlt (d_of_Z (-1)) (index a) = true) ->
  exists k, index_loop index mask arms i (d_of_Z (-1)) None = Some k.
Proof.
  induction arms as [|a rest IH]; intros i (j & Hj & Hm) Hidx;
    cbn [Bandit.index_loop]; [simpl in Hj; lia|].
  destruct (masked mask i) eqn:Em.
  - apply IH.
    + destruct j as [|j]; [rewrite Nat.add_0_r in Hm; congruence|].
      exists j. split; [simpl in Hj; lia|].
      replace (S i + j)%nat with (i + S j)%nat by lia. exact Hm.
    + intros j0 a0 Hn Hm0 Hs. apply (Hidx (S j0) a0); auto.
      replace (i + S j0)%nat with (S i + j0)%nat by lia. exact Hm0.
  - destruct (na_num_selected a =? 0) eqn:En; [eauto|].
    rewrite (Hidx 0%nat a eq_refl);
      [apply index_loop_assigned | rewrite Nat.add_0_r; exact Em
      | apply Z.eqb_neq; exact En].
Qed.

(** The Thompson loops keep an enabled [selected_idx] enabled ... *)(** The Thompson loops keep an enabled [selected_idx] enabled ... *)
Lemma ts_loop_keeps mask : forall arms i s max_sampled sel,
  masked mask sel = false ->
  masked mask (snd (ts_loop mask arms i s max_sampled sel)) = false.
Proof.
  induction arms as [|[tr ns] rest IH]; intros i s max_sampled sel Hsel;
    cbn [Bandit.ts_loop]; [exact Hsel|].
  destruct (masked mask i) eqn:Em; [apply IH; auto|].
  destruct (gsl_ran_beta s _ _) as [s1 sampled].
  destruct (dlt max_sampled sampled); apply IH; auto.
Qed.

(** ... and assign one at the first enabled arm they meet, whose sample
    is above the initial -1. *)
Lemma ts_loop_enabled mask : forall arms i s sel,
  (exists j, (j < length arms)%nat /\ masked mask (i + j) = false) ->
  (forall s0 j tr ns,
     nth_error arms j = Some (tr, ns) -> masked mask (i + j) = false ->
     dlt (d_of_Z (-1))
       (snd (gsl_ran_beta s0 (d_of_Z (u64 (tr + 1)))
               (d_of_Z (u64 (ns - tr + 1))))) = true) ->
  masked mask (snd (ts_loop mask arms i s (d_of_Z (-1)) sel)) = false.
Proof.
  induction arms as [|[tr ns] rest IH]; intros i s sel (j & Hj & Hm) Hbeta;
    cbn [Bandit.ts_loop]; [simpl in Hj; lia|].
  destruct (masked mask i) eqn:Em.
  - apply IH.
    + destruct j as [|j]; [rewrite Nat.add_0_r in Hm; congruence|].
      exists j. split; [simpl in Hj; lia|].
      replace (S i + j)%nat with (i + S j)%nat by lia. exact Hm.
    + intros s0 j0 tr0 ns0 Hn Hm0. apply (Hbeta s0 (S j0)); auto.
      replace (i + S j0)%nat with (S i + j0)%nat by lia. exact Hm0.
  - pose proof (Hbeta s 0%nat tr ns eq_refl
                  ltac:(rewrite Nat.add_0_r; exact Em)) as Hb.
    destruct (gsl_ran_beta s _ _) as [s1 sampled]. simpl in Hb.
    rewrite Hb. apply ts_loop_keeps. exact Em.
Qed.

Lemma dts_loop_keeps mask : forall arms i s max_sampled sel,
  masked mask sel = false ->
  masked mask (snd (dts_loop mask arms i s max_sampled sel)) = false.
Proof.
  induction arms as [|arm rest IH]; intros i s max_sampled sel Hsel;
    cbn [Bandit.dts_loop]; [exact Hsel|].
  destruct (masked mask i) eqn:Em; [apply IH; auto|].
  destruct (gsl_ran_beta s _ _) as [s1 sampled].
  match goal with
  | |- context [if dlt max_sampled ?x then _ else _] =>
      destruct (dlt max_sampled x)
  end; apply IH; auto.
Qed.

Lemma dts_loop_enabled mask : forall arms i s sel,
  (exists j, (j < length arms)%nat /\ masked mask (i + j) = false) ->
  (forall s0 j a,
     nth_error arms j = Some a -> masked mask (i + j) = false ->
     dlt (d_of_Z (-1))
       (snd (gsl_ran_beta s0 (dadd (dts_total_rewards a) (d_of_Z 1))
               (dadd (dts_total_losses a) (d_of_Z 1)))) = true) ->
  masked mask (snd (dts_loop mask arms i s (d_of_Z (-1)) sel)) = false.
Proof.
  induction arms as [|arm rest IH]; intros i s sel (j & Hj & Hm) Hbeta;
    cbn [Bandit.dts_loop]; [simpl in Hj; lia|].
  destruct (masked mask i) eqn:Em.
  - apply IH.
    + destruct j as [|j]; [rewrite Nat.add_0_r in Hm; congruence|].
      exists j. split; [simpl in Hj; lia|].
      replace (S i + j)%nat with (i + S j)%nat by lia. exact Hm.
    + intros s0 j0 a0 Hn Hm0. apply (Hbeta s0 (S j0)); auto.
      replace (i + S j0)%nat with (S i + j0)%nat by lia. exact Hm0.
  - pose proof (Hbeta s 0%nat arm eq_refl
                  ltac:(rewrite Nat.add_0_r; exact Em)) as Hb.
    destruct (gsl_ran_beta s _ _) as [s1 sampled0]. simpl in Hb.
    match goal with
    | |- context [if dlt (d_of_Z (-1)) ?x then _ else _] =>
        assert (Hx : dlt (d_of_Z (-1)) x = true)
    end.
    { destruct OPTIMISTIC_DTS; simpl; [|exact Hb].
      match goal with
      | |- context [if dlt sampled0 ?m then _ else _] =>
          destruct (dlt sampled0 m) eqn:Elt; [|exact Hb]
      end.
      eapply dlt_trans; eauto. }
    rewrite Hx. apply dts_loop_keeps. exact Em.
Qed.

Lemma dbe_unsampled_enabled mask : forall arms i k,
  In k (dbe_unsampled d_of_Z dle mask arms i) -> masked mask k = false.
Proof.
  induction arms as [|arm rest IH]; intros i k Hin;
    cbn [dbe_unsampled] in Hin; [contradiction|].
  destruct (masked mask i) eqn:Em; [eapply IH; eauto|].
  destruct (dle _ _); [|eapply IH; eauto].
  destruct Hin as [<-|Hin]; [exact Em | eapply IH; eauto].
Qed.

Lemma dbe_weights_masked mask active redcoef : forall arms i j,
  masked mask (i + j) = true ->
  nth j (dbe_weights d_of_Z dmul dpow2 mask arms i active redcoef)
    (d_of_Z 0) = d_of_Z 0.
Proof.
  induction arms as [|arm rest IH]; intros i j Hm; cbn [dbe_weights].
  - destruct j; reflexivity.
  - destruct j as [|j].
    + rewrite Nat.add_0_r in Hm. rewrite Hm. reflexivity.
    + cbn [nth]. apply IH.
      replace (S i + j)%nat with (i + S j)%nat by lia. exact Hm.
Qed.

Local Abbreviation dbe_select_arm :=
  (Bandit.dbe_select_arm rand_below d_of_Z dmul ddiv dpow2 dlt dle
     gsl_ran_discrete DBE_GAMMA).

Local Abbreviation dbe_prepare :=
  (Bandit.dbe_prepare d_of_Z dmul ddiv dpow2 dlt dle).

(** [dbe_select_arm] chooses from what [dbe_prepare] holds. *)
Lemma dbe_select_arm_prepare s n_arms arms mask :
  dbe_select_arm s n_arms arms mask =
  let '(slots1, indices, w) := dbe_prepare n_arms arms mask in
  match indices with
  | _ :: _ =>
      let '(s1, k) := rand_below s (Z.of_nat (length indices)) in
      (s1, slots1 ++ skipn (Z.to_nat n_arms) arms,
       Z.of_nat (nth (Z.to_nat k) indices O))
  | [] =>
      let '(s1, index) := gsl_ran_discrete s w in
      (s1, map (dbe_discount dmul DBE_GAMMA) slots1
           ++ skipn (Z.to_nat n_arms) arms, index)
  end.
Proof.
  unfold Bandit.dbe_select_arm, Bandit.dbe_prepare.
  destruct (dbe_stats _ _ _ _ _ _ _) as [active max_avg].
  destruct (dbe_unsampled _ _ _ _ _); reflexivity.
Qed.

(** The reset keeps the number of arms and their integer counters. *)
Lemma dbe_prepare_slots n_arms arms mask :
  map dbe_counters (fst (fst (dbe_prepare n_arms arms mask)))
  = map dbe_counters (firstn (Z.to_nat n_arms) arms).
Proof.
  unfold Bandit.dbe_prepare.
  destruct (dbe_stats _ _ _ _ _ _ _) as [active max_avg]. cbn [fst].
  match goal with
  | |- context [if ?c then _ else _] => destruct c
  end; [|reflexivity].
  rewrite map_map. apply map_ext. reflexivity.
Qed.

(** A masked arm has the weight 0 and is not among [indices]. *)
Lemma dbe_prepare_masked n_arms arms mask :
  (forall j, masked mask j = true ->
     nth j (snd (dbe_prepare n_arms arms mask)) (d_of_Z 0) = d_of_Z 0) /\
  (forall k, In k (snd (fst (dbe_prepare n_arms arms mask))) ->
     masked mask k = false).
Proof.
  unfold Bandit.dbe_prepare.
  destruct (dbe_stats _ _ _ _ _ _ _) as [active max_avg]. cbn [fst snd].
  split.
  - intros j Hm. apply (@dbe_weights_masked mask _ _ _ 0%nat j). exact Hm.
  - intros k Hin. eapply dbe_unsampled_enabled. exact Hin.
Qed.

(** [dbe_select_arm] returns an enabled arm: one of [indices], or the
    index from the discrete sampler, provided the sampler returns an index
    of positive weight. *)
Lemma dbe_select_arm_enabled s n_arms arms mask :
  (snd (fst (dbe_prepare n_arms arms mask)) = [] ->
   dlt (d_of_Z 0)
     (nth (Z.to_nat
             (snd (gsl_ran_discrete s (snd (dbe_prepare n_arms arms mask)))))
        (snd (dbe_prepare n_arms arms mask)) (d_of_Z 0)) = true) ->
  masked mask (Z.to_nat (snd (dbe_select_arm s n_arms arms mask))) = false.
Proof.
  intros Hw. rewrite dbe_select_arm_prepare.
  destruct (dbe_prepare_masked n_arms arms mask) as [Hz Hin].
  destruct (dbe_prepare n_arms arms mask) as [[slots1 indices] w].
  cbn [fst snd] in *.
  destruct indices as [|i0 rest].
  - specialize (Hw eq_refl).
    destruct (gsl_ran_discrete s w) as [s1 index]. cbn [fst snd] in *.
    destruct (masked mask (Z.to_nat index)) eqn:Em; [|reflexivity].
    rewrite (Hz _ Em) in Hw. congruence.
  - assert (Hpos : 0 < Z.of_nat (length (i0 :: rest))) by (simpl; lia).
    pose proof (rand_below_range s Hpos) as Hk.
    destruct (rand_below s _) as [s1 k]. simpl in Hk. cbn [snd].
    rewrite Nat2Z.id. apply Hin. apply nth_In. simpl. lia.
Qed.

(** ** Rewards and the masked arms *)

(** A reward for an enabled arm leaves the arms the mask disables as they
    were. *)
Lemma keeps_masked_update (A : Type) (f : A -> A) mask (arms : list A) i :
  masked mask i = false -> keeps_masked mask arms (update_arm arms i f).
Proof.
  intros Hi j Hj. apply update_arm_other. eapply masked_neq; eauto.
Qed.

Lemma keeps_masked_map_update (A B : Type) (c : A -> B) (f : A -> A) mask
    (arms : list A) i :
  masked mask i = false ->
  keeps_masked mask (map c arms) (map c (update_arm arms i f)).
Proof.
  intros Hi j Hj. rewrite !nth_error_map.
  rewrite update_arm_other; [reflexivity|]. eapply masked_neq; eauto.
Qed.

(** Selection by DTS and DBE rewrites the accumulators of every arm but
    not the integer counters. *)
Lemma map_prefix_counters (A B : Type) (c : A -> B) (f : A -> A) n
    (l : list A) :
  (forall a, c (f a) = c a) ->
  map c (map f (firstn n l) ++ skipn n l) = map c l.
Proof.
  intros H. rewrite map_app, map_map.
  rewrite (map_ext (fun a => c (f a)) c) by exact H.
  rewrite <- map_app, firstn_skipn. reflexivity.
Qed.

Local Abbreviation dts_select_arm :=
  (Bandit.dts_select_arm d_of_Z dadd dmul ddiv dlt gsl_ran_beta DTS_GAMMA
     OPTIMISTIC_DTS).

Lemma dts_select_arm_counters s n_arms arms mask :
  map dts_counters (snd (fst (dts_select_arm s n_arms arms mask)))
  = map dts_counters arms.
Proof.
  unfold Bandit.dts_select_arm.
  destruct (dts_loop mask _ 0 s (d_of_Z (-1)) 0) as [s1 sel]. cbn [fst snd].
  apply map_prefix_counters. reflexivity.
Qed.

Lemma dts_select_arm_enabled s n_arms arms mask :
  (exists j, (j < length (firstn (Z.to_nat n_arms) arms))%nat /\
             masked mask j = false) ->
  (forall s0 j a,
     nth_error (firstn (Z.to_nat n_arms) arms) j = Some a ->
     masked mask j = false ->
     dlt (d_of_Z (-1))
       (snd (gsl_ran_beta s0 (dadd (dts_total_rewards a) (d_of_Z 1))
               (dadd (dts_total_losses a) (d_of_Z 1)))) = true) ->
  masked mask (snd (dts_select_arm s n_arms arms mask)) = false.
Proof.
  intros H Hb. unfold Bandit.dts_select_arm.
  pose proof (@dts_loop_enabled mask (firstn (Z.to_nat n_arms) arms)
                0%nat s 0%nat H Hb) as He.
  destruct (dts_loop mask _ 0 s (d_of_Z (-1)) 0) as [s1 sel]. exact He.
Qed.

(** An arm among the first [n] is rewritten by the loop over the arms. *)
Lemma nth_error_prefix_map (A : Type) (f : A -> A) n (l : list A) j a :
  (j < n)%nat -> nth_error l j = Some a ->
  nth_error (map f (firstn n l) ++ skipn n l) j = Some (f a).
Proof.
  intros Hj Ha.
  assert (Hl : (j < length l)%nat) by (apply nth_error_Some; congruence).
  rewrite nth_error_app1 by (rewrite length_map, length_firstn; lia).
  rewrite nth_error_map, nth_error_firstn.
  replace (j <? n)%nat with true by (symmetry; apply Nat.ltb_lt; exact Hj).
  rewrite Ha. reflexivity.
Qed.

(** A step of DTS, selection and reward, leaves a masked arm discounted:
    the accumulators are multiplied by [DTS_GAMMA] like those of every
    other arm. *)
Lemma dts_step_masked s n_arms arms mask r j a :
  masked mask (snd (dts_select_arm s n_arms arms mask)) = false ->
  masked mask j = true -> (j < Z.to_nat n_arms)%nat ->
  nth_error arms j = Some a ->
  nth_error
    (dts_add_reward d_of_Z dadd
       (snd (fst (dts_select_arm s n_arms arms mask)))
       (snd (dts_select_arm s n_arms arms mask)) r) j
  = Some (dts_discount dmul DTS_GAMMA a).
Proof.
  intros Hsel Hm Hj Ha. unfold Bandit.dts_add_reward.
  rewrite update_arm_other by (eapply masked_neq; eauto).
  unfold Bandit.dts_select_arm.
  destruct (dts_loop mask _ 0 s (d_of_Z (-1)) 0) as [s1 sel]. cbn [fst snd].
  apply nth_error_prefix_map; assumption.
Qed.

(** A step of DBE leaves a masked arm as the reset left it when an arm
    was chosen among the arms never sampled, and discounted by
    [DBE_GAMMA] when the discrete sampler chose. *)
Lemma dbe_step_masked s n_arms arms mask r j a1 :
  masked mask (Z.to_nat (snd (dbe_select_arm s n_arms arms mask))) = false ->
  masked mask j = true ->
  nth_error (fst (fst (dbe_prepare n_arms arms mask))) j = Some a1 ->
  nth_error
    (dbe_add_reward d_of_Z dadd ddiv
       (snd (fst (dbe_select_arm s n_arms arms mask)))
       (Z.to_nat (snd (dbe_select_arm s n_arms arms mask))) r) j
  = Some match snd (fst (dbe_prepare n_arms arms mask)) with
         | [] => dbe_discount dmul DBE_GAMMA a1
         | _ :: _ => a1
         end.
Proof.
  intros Hsel Hm Ha. unfold Bandit.dbe_add_reward.
  rewrite update_arm_other by (eapply masked_neq; eauto).
  rewrite dbe_select_arm_prepare.
  destruct (dbe_prepare n_arms arms mask) as [[slots1 indices] w].
  cbn [fst snd] in *.
  assert (Hl : (j < length slots1)%nat)
    by (apply nth_error_Some; congruence).
  destruct indices as [|i0 rest].
  - destruct (gsl_ran_discrete s w) as [s1 index]. cbn [fst snd].
    rewrite nth_error_app1 by (rewrite length_map; exact Hl).
    rewrite nth_error_map, Ha. reflexivity.
  - destruct (rand_below s _) as [s1 k]. cbn [fst snd].
    rewrite nth_error_app1 by exact Hl. exact Ha.
Qed.

Lemma dbe_select_arm_counters s n_arms arms mask :
  map dbe_counters (snd (fst (dbe_select_arm s n_arms arms mask)))
  = map dbe_counters arms.
Proof.
  unfold Bandit.dbe_select_arm.
  destruct (dbe_stats _ _ _ _ _ _ _) as [active max_avg].
  set (redcoef := if dlt (d_of_Z 0) max_avg
                  then ddiv (d_of_Z 1) (dmul (d_of_Z 2) max_avg)
                  else d_of_Z 1).
  assert (Hs : forall f : dbe_bandit_arm double -> dbe_bandit_arm double,
             (forall a, dbe_counters (f a) = dbe_counters a) ->
             map dbe_counters
               (map f (if dlt (d_of_Z (2 ^ 30)) redcoef
                       then map (dbe_reset d_of_Z)
                              (firstn (Z.to_nat n_arms) arms)
                       else firstn (Z.to_nat n_arms) arms)
                ++ skipn (Z.to_nat n_arms) arms)
             = map dbe_counters arms).
  { intros f Hf. destruct (dlt _ redcoef).
    - rewrite map_map. apply map_prefix_counters.
      intros a. rewrite Hf. reflexivity.
    - apply map_prefix_counters. exact Hf. }
  destruct (dbe_unsampled _ _ _ _ _) as [|i0 rest].
  - destruct (gsl_ran_discrete s _) as [s1 index]. cbn [fst snd].
    apply Hs. reflexivity.
  - destruct (rand_below s _) as [s1 k]. cbn [fst snd].
    rewrite <- (Hs (fun a => a)) by reflexivity.
    rewrite map_id. reflexivity.
Qed.

(** ** Exp3-PP and Exp3-IX *)

Local Abbreviation exppp_select_arm :=
  (Bandit.exppp_select_arm d_of_Z dadd dlt gsl_rng_uniform
     exppp_update_trusts).
Local Abbreviation expix_select_arm :=
  (Bandit.expix_select_arm d_of_Z dadd dlt gsl_rng_uniform).
Local Abbreviation exppp_add_reward :=
  (Bandit.exppp_add_reward exppp_losses_weights).
Local Abbreviation expix_add_reward :=
  (Bandit.expix_add_reward expix_losses_weights).

Lemma incr_rd a i a' :
  incr a i = Some a' ->
  rd a' (Z.to_nat i) = u64 (rd a (Z.to_nat i) + 1).
Proof.
  unfold incr. destruct (_ && _) eqn:E; [|discriminate].
  intros [= <-]. apply andb_true_iff in E. destruct E as [_ E].
  apply Nat.ltb_lt in E. apply rd_upd_eq. exact E.
Qed.

(** The Exp3 selectors do not read the mask; each call advances [t] and
    the pull count of the arm it returns. *)
Lemma exppp_select_arm_advances s self mask s' self' choice :
  exppp_select_arm s self mask = Some (s', self', choice) ->
  exppp_select_arm s self None = Some (s', self', choice) /\
  ep_t self' = u64 (ep_t self + 1) /\
  rd (ep_pulls self') (Z.to_nat choice)
    = u64 (rd (ep_pulls self) (Z.to_nat choice) + 1).
Proof.
  intros H. split; [exact H|].
  unfold Bandit.exppp_select_arm in H.
  destruct (u64 (ep_t self + 1) <=? ep_n_arms self).
  - destruct (incr _ _) as [pulls|] eqn:Ei; [|discriminate].
    cbn [bind] in H. injection H as _ <- <-. cbn.
    split; [reflexivity | apply incr_rd; exact Ei].
  - unfold Bandit.choice_from_distribution in H.
    destruct (gsl_rng_uniform s) as [s1 target].
    destruct (distribution_loop _ _ _ _ _ _);
      (destruct (incr _ _) as [pulls|] eqn:Ei; [|discriminate]);
      cbn [bind] in H; injection H as _ <- <-; cbn;
      (split; [reflexivity | apply incr_rd; exact Ei]).
Qed.

Lemma expix_select_arm_advances s self mask s' self' choice :
  expix_select_arm s self mask = Some (s', self', choice) ->
  expix_select_arm s self None = Some (s', self', choice) /\
  ei_t self' = u64 (ei_t self + 1) /\
  rd (ei_pulls self') (Z.to_nat choice)
    = u64 (rd (ei_pulls self) (Z.to_nat choice) + 1).
Proof.
  intros H. split; [exact H|].
  unfold Bandit.expix_select_arm in H.
  destruct (gsl_rng_uniform s) as [s1 target].
  destruct (incr _ _) as [pulls|] eqn:Ei; [|discriminate].
  cbn [bind] in H. injection H as _ <- <-. cbn.
  split; [reflexivity | apply incr_rd; exact Ei].
Qed.

Lemma exppp_add_reward_t self arm r self' :
  exppp_add_reward self arm r = Some self' ->
  ep_t self' = ep_t self /\ ep_pulls self' = ep_pulls self.
Proof.
  unfold Bandit.exppp_add_reward.
  destruct (add_total _ _ _); [|discriminate]. cbn [bind].
  destruct (exppp_losses_weights self arm r) as [[ul ls] ws].
  intros [= <-]. split; reflexivity.
Qed.

Lemma expix_add_reward_t self arm r self' :
  expix_add_reward self arm r = Some self' ->
  ei_t self' = ei_t self /\ ei_pulls self' = ei_pulls self.
Proof.
  unfold Bandit.expix_add_reward.
  destruct (add_total _ _ _); [|discriminate]. cbn [bind].
  destruct (expix_losses_weights self arm r) as [ls ws].
  intros [= <-]. split; reflexivity.
Qed.

(** The Exp3 selectors return an arm of the instance. *)
Lemma distribution_loop_bound target : forall ps i acc k,
  distribution_loop dadd dlt target ps i acc = Some k ->
  (i <= k < i + length ps)%nat.
Proof.
  induction ps as [|p rest IH]; intros i acc k H;
    cbn [distribution_loop] in H; [discriminate|].
  destruct (dlt target (dadd acc p)).
  - injection H as <-. simpl. lia.
  - apply IH in H. simpl. lia.
Qed.

Lemma incr_some a i :
  0 <= i -> (Z.to_nat i < length a)%nat -> exists a', incr a i = Some a'.
Proof.
  intros H0 H1. unfold incr.
  replace (0 <=? i) with true by (symmetry; apply Z.leb_le; lia).
  replace (Z.to_nat i <? length a)%nat with true
    by (symmetry; apply Nat.ltb_lt; lia).
  cbn [andb]. eauto.
Qed.

Lemma exppp_select_arm_returns s self mask :
  0 <= ep_t self < 2 ^ 64 - 1 -> 1 <= ep_n_arms self < 2 ^ 64 ->
  (Z.to_nat (ep_n_arms self) <= length (ep_pulls self))%nat ->
  exists r, exppp_select_arm s self mask = Some r.
Proof.
  intros Ht Hn Hl. unfold Bandit.exppp_select_arm.
  change (2 ^ 64) with 18446744073709551616 in *.
  assert (Hu : u64 (ep_t self + 1) = ep_t self + 1)
    by (unfold u64; change (2 ^ 64) with 18446744073709551616;
        apply Z.mod_small; lia).
  rewrite Hu.
  destruct (ep_t self + 1 <=? ep_n_arms self) eqn:E.
  - apply Z.leb_le in E.
    assert (Hc : u64 (ep_t self + 1 - 1) = ep_t self)
      by (replace (ep_t self + 1 - 1) with (ep_t self) by lia;
          unfold u64; change (2 ^ 64) with 18446744073709551616;
          apply Z.mod_small; lia).
    rewrite Hc. cbn [ep_pulls].
    destruct (@incr_some (ep_pulls self) (ep_t self)) as [a' Ha];
      [lia | lia |]. rewrite Ha. cbn [bind]. eauto.
  - unfold Bandit.choice_from_distribution.
    destruct (gsl_rng_uniform s) as [s1 target]. cbn [ep_n_arms].
    destruct (distribution_loop _ _ _ _ _ _) as [k|] eqn:Ed; cbn [ep_pulls].
    + apply distribution_loop_bound in Ed. rewrite length_firstn in Ed.
      destruct (@incr_some (ep_pulls self) (Z.of_nat k)) as [a' Ha];
        [lia | lia |]. rewrite Ha. cbn [bind]. eauto.
    + assert (Hc : u64 (ep_n_arms self - 1) = ep_n_arms self - 1)
        by (unfold u64; change (2 ^ 64) with 18446744073709551616;
            apply Z.mod_small; lia).
      rewrite Hc.
      destruct (@incr_some (ep_pulls self) (ep_n_arms self - 1))
        as [a' Ha]; [lia | lia |]. rewrite Ha. cbn [bind]. eauto.
Qed.

Lemma expix_select_arm_returns s self mask :
  1 <= ei_n_arms self < 2 ^ 64 ->
  (Z.to_nat (ei_n_arms self) <= length (ei_pulls self))%nat ->
  exists r, expix_select_arm s self mask = Some r.
Proof.
  intros Hn Hl. unfold Bandit.expix_select_arm.
  change (2 ^ 64) with 18446744073709551616 in *.
  destruct (gsl_rng_uniform s) as [s1 target].
  destruct (distribution_loop _ _ _ _ _ _) as [k|] eqn:Ed.
  - apply distribution_loop_bound in Ed. rewrite length_firstn in Ed.
    destruct (@incr_some (ei_pulls self) (Z.of_nat k)) as [a' Ha];
      [lia | lia |]. rewrite Ha. cbn [bind]. eauto.
  - assert (Hc : u64 (ei_n_arms self - 1) = ei_n_arms self - 1)
      by (unfold u64; change (2 ^ 64) with 18446744073709551616;
          apply Z.mod_small; lia).
    rewrite Hc.
    destruct (@incr_some (ei_pulls self) (ei_n_arms self - 1))
      as [a' Ha]; [lia | lia |]. rewrite Ha. cbn [bind]. eauto.
Qed.

(** ** The selectors in the havoc loop *)(** ** The selectors in the havoc loop *)

(** The havoc loop around an Exp3 operator bandit: the stage memory, the
    batch-size bandit and the harness are arbitrary. *)
Variable Mem : Type.
Variable batch_t : Type.
Variable select_batch :
  rng -> batch_t -> option (list Z) -> option (rng * batch_t * Z).
Variable add_reward_batch : batch_t -> Z -> Z -> option batch_t.
Variable common_fuzz_stuff : rng -> Mem -> rng * Z.
Variable queued_paths : rng -> Z.
Variable havoc_max_mult : rng -> Z.
Variable havoc_stack_pow2 : rng -> Z.
Variable havoc_case_mask : rng -> list Z.
Variable r_max : rng -> Z.
Variable r_of_case : rng -> Z -> Z.
Variable case_idx_of_r : rng -> Mem -> Z -> Z.
Variable havoc_switch :
  rng -> Z -> Z -> Mem -> option (rng * Mem * Havoc.MutationByteSize).
Variable havoc_restore : Havoc.MutationByteSize -> Z -> Mem -> option Mem.
Variable cfg : HavocLoop.config.

Local Abbreviation havoc_iteration_exppp :=
  (HavocLoop.havoc_iteration exppp_select_arm exppp_add_reward select_batch
     add_reward_batch rand_below common_fuzz_stuff queued_paths
     havoc_max_mult havoc_stack_pow2 havoc_case_mask r_max r_of_case
     case_idx_of_r havoc_switch havoc_restore cfg).
Local Abbreviation havoc_iteration_expix :=
  (HavocLoop.havoc_iteration expix_select_arm expix_add_reward select_batch
     add_reward_batch rand_below common_fuzz_stuff queued_paths
     havoc_max_mult havoc_stack_pow2 havoc_case_mask r_max r_of_case
     case_idx_of_r havoc_switch havoc_restore cfg).

Import HavocLoop.

(** A masked arm from Exp3-PP sends the iteration down the skip path:
    nothing is run, [t] and the pull count of the arm have advanced, and
    the reward 0 has been applied to the arm. *)
Lemma masked_pick_skips_exppp
    (st : loop_state rng Mem (exppp_t double) batch_t) s' self' choice
    self'' :
  MUT_MODE cfg = MOPTWISE_BANDIT -> EXP_GUARD cfg = true ->
  exppp_select_arm (world st) (mut_bandit st)
    (Some (havoc_case_mask (world st))) = Some (s', self', choice) ->
  masked (Some (havoc_case_mask (world st))) (Z.to_nat choice) = true ->
  exppp_add_reward self' choice 0 = Some self'' ->
  exists rep,
    havoc_iteration_exppp st = Some rep /\
    executed rep = None /\ batch_selected rep = None /\
    after rep = skipped st s' self'' /\
    ep_t self'' = u64 (ep_t (mut_bandit st) + 1) /\
    rd (ep_pulls self'') (Z.to_nat choice)
      = u64 (rd (ep_pulls (mut_bandit st)) (Z.to_nat choice) + 1).
Proof.
  intros Hmode Hg Hsel Hm Hr.
  cbn [masked] in Hm. apply negb_true_iff in Hm. apply Z.eqb_neq in Hm.
  eexists. split.
  { eapply HavocLoopTheory.masked_pick_skips; eassumption. }
  destruct (exppp_select_arm_advances _ _ _ Hsel) as (_ & Ht & Hp).
  destruct (exppp_add_reward_t _ _ _ Hr) as (Ht' & Hp').
  cbn. repeat split; congruence.
Qed.

Lemma masked_pick_skips_expix
    (st : loop_state rng Mem (expix_t double) batch_t) s' self' choice
    self'' :
  MUT_MODE cfg = MOPTWISE_BANDIT -> EXP_GUARD cfg = true ->
  expix_select_arm (world st) (mut_bandit st)
    (Some (havoc_case_mask (world st))) = Some (s', self', choice) ->
  masked (Some (havoc_case_mask (world st))) (Z.to_nat choice) = true ->
  expix_add_reward self' choice 0 = Some self'' ->
  exists rep,
    havoc_iteration_expix st = Some rep /\
    executed rep = None /\ batch_selected rep = None /\
    after rep = skipped st s' self'' /\
    ei_t self'' = u64 (ei_t (mut_bandit st) + 1) /\
    rd (ei_pulls self'') (Z.to_nat choice)
      = u64 (rd (ei_pulls (mut_bandit st)) (Z.to_nat choice) + 1).
Proof.
  intros Hmode Hg Hsel Hm Hr.
  cbn [masked] in Hm. apply negb_true_iff in Hm. apply Z.eqb_neq in Hm.
  eexists. split.
  { eapply HavocLoopTheory.masked_pick_skips; eassumption. }
  destruct (expix_select_arm_advances _ _ _ Hsel) as (_ & Ht & Hp).
  destruct (expix_add_reward_t _ _ _ Hr) as (Ht' & Hp').
  cbn. repeat split; congruence.
Qed.

Local Abbreviation ucb_select_arm :=
  (Bandit.ucb_select_arm d_of_Z dlt ucb_index).
Local Abbreviation klucb_select_arm :=
  (Bandit.klucb_select_arm d_of_Z dlt klucb_klucb).
Local Abbreviation ucb_add_reward := (Bandit.ucb_add_reward d_of_Z ddiv).
Local Abbreviation ts_add_reward := (Bandit.ts_add_reward d_of_Z ddiv).
Local Abbreviation ts_select_arm :=
  (Bandit.ts_select_arm d_of_Z dlt gsl_ran_beta).
Local Abbreviation adsts_select_arm :=
  (Bandit.adsts_select_arm d_of_Z dlt gsl_ran_beta).
Local Abbreviation dts_add_reward := (Bandit.dts_add_reward d_of_Z dadd).
Local Abbreviation dbe_add_reward :=
  (Bandit.dbe_add_reward d_of_Z dadd ddiv).

(** An arm among the first [n] slots of [arms] that the mask leaves
    enabled. *)
Local Abbreviation some_enabled mask n arms :=
  (exists j, (j < length (firstn (Z.to_nat n) arms))%nat /\
             masked mask j = false).


End FamilyTheory.

(** The stand-ins of the configuration [Scenario] meet the contracts. *)
Lemma draw0_range (s limit : Z) :
  0 < limit -> 0 <= snd (Scenario.draw0 s limit) < limit.
Proof. simpl. lia. Qed.

Lemma ltb_trans (a b c : Z) :
  (a <? b) = true -> (b <? c) = true -> (a <? c) = true.
Proof. rewrite !Z.ltb_lt. lia. Qed.



(** Three arms, the first one masked, and a generator that returns its
    state modulo the limit. *)
Lemma uniform_select_arm_enabled_witness :
  exists i,
    snd (uniform_select_arm (fun s limit => (s + 1, s mod limit)) 7 3
           (Some [1; 0; 0])) = Some i /\
    (i < Z.to_nat 3)%nat /\ masked (Some [1; 0; 0]) i = false.
Proof.
  apply uniform_select_arm_enabled.
  - intros s limit H. simpl. apply Z.mod_pos_bound. exact H.
  - lia.
  - exists 1%nat. split; [simpl; lia | reflexivity].
Defined.

End BanditTheory.

(** * Theory of the rare-branch trimmer *)

Module TrimTheory.

Import Trim.

Section TrimShort.

Variable World : Type.
Variable common_fuzz_stuff : World -> list Z -> World * Z.
Variable hits_branch : World -> Z -> bool.
Variable stop_soon : World -> bool.
Variable next_p2 : Z -> Z.
Variable TRIM_START_STEPS : Z.
Variable TRIM_END_STEPS : Z.
Variable TRIM_MIN_BYTES : Z.
Variable measure_run : World -> list Z -> World.

Local Abbreviation trim_case_rb :=
  (Trim.trim_case_rb common_fuzz_stuff hits_branch stop_soon next_p2
     TRIM_START_STEPS TRIM_END_STEPS TRIM_MIN_BYTES).
Local Abbreviation rb_trim_stage :=
  (Trim.rb_trim_stage common_fuzz_stuff hits_branch stop_soon next_p2
     TRIM_START_STEPS TRIM_END_STEPS TRIM_MIN_BYTES measure_run).

(** C6, as the code has it. On an input shorter than 5 bytes
    [trim_case_rb] runs nothing and leaves both buffers as they are; it
    returns [in_len] when no rare branch is targeted and the value 0
    otherwise. The caller adopts a positive result only, so its [len] and
    [in_buf] stay what they were. *)
Theorem trim_case_rb_short (fuel : nat) (w : World) (rb_fuzzing : Z)
    (trim_for_branch : bool) (in_buf : list Z) (in_len : Z)
    (out_buf : list Z) :
  in_len < 5 ->
  trim_case_rb fuel w rb_fuzzing in_buf in_len out_buf =
    Some (w, in_buf, out_buf, if rb_fuzzing =? 0 then in_len else 0) /\
  rb_trim_stage fuel w rb_fuzzing trim_for_branch in_buf in_len out_buf =
    Some (w, in_buf, in_len, blit out_buf 0 in_buf 0 (Z.to_nat in_len)).
Proof.
  intros Hshort.
  assert (Hcall : trim_case_rb fuel w rb_fuzzing in_buf in_len out_buf =
    Some (w, in_buf, out_buf, if rb_fuzzing =? 0 then in_len else 0)).
  { unfold Trim.trim_case_rb. destruct (rb_fuzzing =? 0); [reflexivity|].
    replace (in_len <? 5) with true by (symmetry; apply Z.ltb_lt; lia).
    reflexivity. }
  split; [exact Hcall|].
  unfold Trim.rb_trim_stage. rewrite Hcall.
  destruct (rb_fuzzing =? 0); simpl; [reflexivity|].
  destruct trim_for_branch; reflexivity.
Qed.

End TrimShort.

(** A three-byte input under rare-branch fuzzing. *)
Lemma trim_case_rb_short_witness :
  3 < 5 /\
  Trim.trim_case_rb (fun (w : unit) _ => (w, 0)) (fun _ _ => true)
    (fun _ => false) (fun x => x) 16 1024 4 1 tt 1 [65; 66; 67] 3 [0; 0; 0] =
    Some (tt, [65; 66; 67], [0; 0; 0], if 1 =? 0 then 3 else 0) /\
  Trim.rb_trim_stage (fun (w : unit) _ => (w, 0)) (fun _ _ => true)
    (fun _ => false) (fun x => x) 16 1024 4 (fun w _ => w)
    1 tt 1 true [65; 66; 67] 3 [0; 0; 0] =
    Some (tt, [65; 66; 67], 3,
          blit [0; 0; 0] 0 [65; 66; 67] 0 (Z.to_nat 3)).
Proof.
  split; [lia|].
  apply (@trim_case_rb_short unit (fun (w : unit) _ => (w, 0))
           (fun _ _ => true) (fun _ => false) (fun x => x) 16 1024 4
           (fun w _ => w) 1%nat tt 1 true [65; 66; 67] 3 [0; 0; 0]).
  lia.
Defined.

(** C6 as the specification words it fails: under rare-branch fuzzing a
    three-byte input makes [trim_case_rb] return 0, not the length 3. *)
Lemma trim_case_rb_short_counterexample :
  Trim.trim_case_rb (fun (w : unit) _ => (w, 0)) (fun _ _ => true)
    (fun _ => false) (fun x => x) 16 1024 4 1 tt 1 [65; 66; 67] 3 [0; 0; 0] =
    Some (tt, [65; 66; 67], [0; 0; 0], 0) /\
  ~ (exists w i o,
       Trim.trim_case_rb (fun (w : unit) _ => (w, 0)) (fun _ _ => true)
         (fun _ => false) (fun x => x) 16 1024 4 1 tt 1 [65; 66; 67] 3
         [0; 0; 0] = Some (w, i, o, 3)).
Proof.
  split; [reflexivity|].
  intros (w & i & o & H). vm_compute in H. discriminate.
Qed.

End TrimTheory.

(** * Theory of the branch mask *)

Module MaskTheory.

Import Mask.

Lemma rd_repeat (x : Z) n i : (i < n)%nat -> rd (repeat x n) i = x.
Proof.
  unfold rd. revert i; induction n as [|n IH]; intros [|i] H; simpl;
    try lia; auto. apply IH. lia.
Qed.

Lemma rd_repeat0 n i : rd (repeat 0 n) i = 0.
Proof.
  unfold rd. revert i; induction n as [|n IH]; intros [|i]; simpl; auto.
Qed.

Lemma alloc_branch_mask_spec (L : Z) :
  0 <= L ->
  exists m, alloc_branch_mask (L + 1) = Some m /\
            Z.of_nat (length m) = L + 1 /\
            rd m (Z.to_nat L) = INSERT_BEFORE_SAFE /\
            forall i, (i < Z.to_nat L)%nat -> rd m i = 7.
Proof.
  intros HL. unfold alloc_branch_mask.
  replace (L + 1 =? 0) with false by (symmetry; apply Z.eqb_neq; lia).
  eexists. split; [reflexivity|].
  replace (L + 1 - 1) with L by lia.
  rewrite upd_length, repeat_length. split; [lia|]. split.
  - apply rd_upd_eq. rewrite repeat_length. lia.
  - intros i Hi. rewrite rd_upd_ne by lia. apply rd_repeat. lia.
Qed.

Section BuilderTheory.

Variable World : Type.
Variable common_fuzz_stuff : World -> list Z -> World * Z.
Variable hits_branch : World -> Z -> bool.
Variable rand_below : World -> Z -> World * Z.

Local Abbreviation flip8_loop :=
  (Mask.flip8_loop common_fuzz_stuff hits_branch).
Local Abbreviation rbrem8_loop :=
  (Mask.rbrem8_loop common_fuzz_stuff hits_branch).
Local Abbreviation rbadd8_loop :=
  (Mask.rbadd8_loop common_fuzz_stuff hits_branch rand_below).

(** The first two loops write below [i + todo] only and keep the length. *)
Lemma flip8_loop_frame rb rbf : forall todo i w out mask,
  length (b_mask (flip8_loop rb rbf todo i w out mask)) = length mask /\
  forall j, (i + todo <= j)%nat ->
            rd (b_mask (flip8_loop rb rbf todo i w out mask)) j = rd mask j.
Proof.
  induction todo as [|todo IH]; intros i w out mask; simpl; [auto|].
  destruct (common_fuzz_stuff w _) as [w1 ab].
  destruct (negb (ab =? 0)); simpl; [auto|].
  destruct (IH (S i) w1 out
              (if rb && hits_branch w1 (u32 (rbf - 1))
               then upd mask i 1 else mask)) as [Hl Hf].
  split.
  - rewrite Hl. destruct (rb && hits_branch w1 (u32 (rbf - 1)));
      [apply upd_length | reflexivity].
  - intros j Hj. rewrite Hf by lia.
    destruct (rb && hits_branch w1 (u32 (rbf - 1))); [|reflexivity].
    apply rd_upd_ne. lia.
Qed.

Lemma rbrem8_loop_frame rbf : forall todo i w out mask,
  length (b_mask (rbrem8_loop rbf todo i w out mask)) = length mask /\
  forall j, (i + todo <= j)%nat ->
            rd (b_mask (rbrem8_loop rbf todo i w out mask)) j = rd mask j.
Proof.
  induction todo as [|todo IH]; intros i w out mask; simpl; [auto|].
  destruct (common_fuzz_stuff w _) as [w1 ab].
  destruct (negb (ab =? 0)); simpl; [auto|].
  destruct (IH (S i) w1 out
              (if hits_branch w1 (u32 (rbf - 1))
               then upd mask i (u8 (rd mask i + 2)) else mask)) as [Hl Hf].
  split.
  - rewrite Hl. destruct (hits_branch w1 (u32 (rbf - 1)));
      [apply upd_length | reflexivity].
  - intros j Hj. rewrite Hf by lia.
    destruct (hits_branch w1 (u32 (rbf - 1))); [|reflexivity].
    apply rd_upd_ne. lia.
Qed.

(** The last pass of "rbadd8" decides the last byte it visits. *)
Lemma rbadd8_loop_last rbf : forall todo i w out mask,
  (i + todo < length mask)%nat ->
  let b := rbadd8_loop rbf (S todo) i w out mask in
  length (b_mask b) = length mask /\
  (b_abandon b = false ->
   rd (b_mask b) (i + todo) =
   if hits_branch (b_world b) (u32 (rbf - 1))
   then u8 (rd mask (i + todo) + 4) else rd mask (i + todo)).
Proof.
  induction todo as [|todo IH]; intros i w out mask Hlen; cbn zeta.
  - cbn [Mask.rbadd8_loop].
    destruct (rand_below w 256) as [w0 byte].
    destruct (common_fuzz_stuff w0 _) as [w1 ab].
    destruct (negb (ab =? 0)); cbn [b_mask b_abandon b_world];
      [split; [auto|discriminate]|].
    rewrite Nat.add_0_r.
    destruct (hits_branch w1 (u32 (rbf - 1))) eqn:Eh;
      cbn [b_mask b_abandon b_world].
    + split; [apply upd_length|]. intros _. apply rd_upd_eq. lia.
    + split; [reflexivity|]. intros _. reflexivity.
  - remember (S todo) as n eqn:En. cbn [Mask.rbadd8_loop]. subst n.
    destruct (rand_below w 256) as [w0 byte].
    destruct (common_fuzz_stuff w0 _) as [w1 ab].
    destruct (negb (ab =? 0)); [cbn; split; [auto|discriminate]|].
    set (mask1 := if hits_branch w1 (u32 (rbf - 1))
                  then upd mask i (u8 (rd mask i + 4)) else mask).
    assert (Hl1 : length mask1 = length mask)
      by (unfold mask1; destruct (hits_branch w1 _);
          [apply upd_length | reflexivity]).
    assert (Hr1 : rd mask1 (S i + todo) = rd mask (i + S todo)).
    { unfold mask1. replace (i + S todo)%nat with (S i + todo)%nat by lia.
      destruct (hits_branch w1 _); [|reflexivity]. apply rd_upd_ne. lia. }
    destruct (IH (S i) w1 out mask1 ltac:(lia)) as [Hl Hv].
    split; [congruence|].
    intros Hab. replace (i + S todo)%nat with (S i + todo)%nat by lia.
    rewrite (Hv Hab). rewrite Hr1.
    replace (S i + todo)%nat with (i + S todo)%nat by lia.
    reflexivity.
Qed.

(** "rbadd8" writes below [i + todo] only and keeps the length. *)
Lemma rbadd8_loop_frame rbf : forall todo i w out mask,
  length (b_mask (rbadd8_loop rbf todo i w out mask)) = length mask /\
  forall j, (i + todo <= j)%nat ->
            rd (b_mask (rbadd8_loop rbf todo i w out mask)) j = rd mask j.
Proof.
  induction todo as [|todo IH]; intros i w out mask; simpl; [auto|].
  destruct (rand_below w 256) as [w0 byte].
  destruct (common_fuzz_stuff w0 _) as [w1 ab].
  destruct (negb (ab =? 0)); simpl; [auto|].
  destruct (IH (S i) w1 out
              (if hits_branch w1 (u32 (rbf - 1))
               then upd mask i (u8 (rd mask i + 4)) else mask)) as [Hl Hf].
  split.
  - rewrite Hl. destruct (hits_branch w1 (u32 (rbf - 1)));
      [apply upd_length | reflexivity].
  - intros j Hj. rewrite Hf by lia.
    destruct (hits_branch w1 (u32 (rbf - 1))); [|reflexivity].
    apply rd_upd_ne. lia.
Qed.

Lemma rbadd8_loop_step rbf todo i w out mask :
  rbadd8_loop rbf (S todo) i w out mask =
  let '(w0, byte) := rand_below w 256 in
  let tmp_buf := firstn i out ++ [u8 byte] ++ skipn i out in
  let '(w1, ab) := common_fuzz_stuff w0 tmp_buf in
  if negb (ab =? 0)
  then {| b_world := w1; b_mask := mask; b_abandon := true |}
  else
    rbadd8_loop rbf todo (S i) w1 out
      (if hits_branch w1 (u32 (rbf - 1))
       then upd mask i (u8 (rd mask i + 4)) else mask).
Proof. reflexivity. Qed.

(** The passes of "rbadd8" one after the other: [S todo] passes are [todo]
    passes and, unless these left through [abandon_entry], one more pass
    from the state they reached. *)
Lemma rbadd8_loop_snoc rbf : forall todo i w out mask,
  rbadd8_loop rbf (S todo) i w out mask =
  let b := rbadd8_loop rbf todo i w out mask in
  if b_abandon b then b
  else rbadd8_loop rbf 1 (i + todo) (b_world b) out (b_mask b).
Proof.
  induction todo as [|todo IH]; intros i w out mask.
  - cbn zeta. rewrite Nat.add_0_r. reflexivity.
  - cbn zeta. rewrite (rbadd8_loop_step rbf (S todo)).
    rewrite (rbadd8_loop_step rbf todo).
    destruct (rand_below w 256) as [w0 byte]. cbn zeta.
    destruct (common_fuzz_stuff w0 _) as [w1 ab].
    destruct (negb (ab =? 0)); [reflexivity|].
    rewrite IH. cbn zeta.
    replace (S i + todo)%nat with (i + S todo)%nat by lia.
    reflexivity.
Qed.

(** The walking-byte loop leaves the mask alone when no mask is being
    built. *)
Lemma flip8_loop_keeps rbf : forall todo i w out mask,
  b_mask (flip8_loop false rbf todo i w out mask) = mask.
Proof.
  induction todo as [|todo IH]; intros i w out mask; simpl; [auto|].
  destruct (common_fuzz_stuff w _) as [w1 ab].
  destruct (negb (ab =? 0)); simpl; [auto|]. apply IH.
Qed.

(** A loop that left through [abandon_entry] before its last position has
    not written there. *)
Lemma rbadd8_loop_abandoned rbf : forall todo i w out mask,
  b_abandon (rbadd8_loop rbf (S todo) i w out mask) = true ->
  rd (b_mask (rbadd8_loop rbf (S todo) i w out mask)) (i + todo) =
  rd mask (i + todo).
Proof.
  intros todo i w out mask. rewrite rbadd8_loop_snoc. cbn zeta.
  destruct (rbadd8_loop_frame rbf todo i w out mask) as [_ Hf].
  destruct (b_abandon (rbadd8_loop rbf todo i w out mask)) eqn:E.
  - intros _. apply Hf. lia.
  - rewrite rbadd8_loop_step.
    destruct (rand_below _ 256) as [w0 byte]. cbn zeta.
    destruct (common_fuzz_stuff w0 _) as [w1 ab].
    destruct (negb (ab =? 0)); cbn [Mask.rbadd8_loop b_abandon b_mask].
    + intros _. apply Hf. lia.
    + discriminate.
Qed.

(** Every mode: the mask that the deterministic stage leaves has one byte
    more than the input. *)
Lemma deterministic_branch_mask_length (vanilla_afl shadow_mode : bool)
    (use_branch_mask rb_fuzzing : Z) (w : World) (out_buf : list Z) :
  Z.of_nat (length out_buf) + 1 < 2 ^ 32 ->
  exists b,
    deterministic_branch_mask common_fuzz_stuff hits_branch rand_below
      vanilla_afl shadow_mode use_branch_mask rb_fuzzing w out_buf = Some b /\
    length (b_mask b) = S (length out_buf).
Proof.
  intros Hlen. set (L := length out_buf).
  assert (Hu : u32 (Z.of_nat L + 1) = Z.of_nat L + 1)
    by (unfold u32; apply Z.mod_small; lia).
  assert (H0 : exists mask0,
             initial_branch_mask vanilla_afl shadow_mode use_branch_mask
               (Z.of_nat L) = Some mask0 /\ length mask0 = S L).
  { unfold initial_branch_mask. rewrite Hu.
    destruct (vanilla_afl || shadow_mode || (use_branch_mask =? 0)).
    - destruct (@alloc_branch_mask_spec (Z.of_nat L) ltac:(lia))
        as (m & Hm & Hl & _).
      exists m. split; [exact Hm | lia].
    - eexists. split; [reflexivity|].
      unfold ck_alloc. rewrite repeat_length. lia. }
  destruct H0 as (mask0 & Hm0 & Hl0).
  unfold deterministic_branch_mask. fold L. rewrite Hm0. cbn [bind].
  set (rb := negb (rb_fuzzing =? 0) && negb shadow_mode
             && (0 <? use_branch_mask)).
  destruct (flip8_loop_frame rb rb_fuzzing L 0 w out_buf mask0) as [Hl8 _].
  set (b1 := flip8_loop rb rb_fuzzing L 0 w out_buf mask0) in *.
  destruct (b_abandon b1); [exists b1; split; [reflexivity | congruence]|].
  destruct rb; [|exists b1; split; [reflexivity | congruence]].
  destruct (rbrem8_loop_frame rb_fuzzing L 0 (b_world b1) out_buf (b_mask b1))
    as [Hlr _].
  set (b2 := rbrem8_loop rb_fuzzing L 0 (b_world b1) out_buf (b_mask b1))
    in *.
  destruct (b_abandon b2); [exists b2; split; [reflexivity | congruence]|].
  destruct (rbadd8_loop_frame rb_fuzzing (S L) 0 (b_world b2) out_buf
              (b_mask b2)) as [Hla _].
  eexists. split; [reflexivity | congruence].
Qed.

(** The permissive modes: no mask is built, and the mask stays the one of
    [alloc_branch_mask]. *)
Lemma permissive_branch_mask (vanilla_afl shadow_mode : bool)
    (use_branch_mask rb_fuzzing : Z) (w : World) (out_buf : list Z) :
  Z.of_nat (length out_buf) + 1 < 2 ^ 32 ->
  vanilla_afl || shadow_mode || (use_branch_mask =? 0) = true ->
  (vanilla_afl = true -> rb_fuzzing = 0) ->
  exists b,
    deterministic_branch_mask common_fuzz_stuff hits_branch rand_below
      vanilla_afl shadow_mode use_branch_mask rb_fuzzing w out_buf = Some b /\
    alloc_branch_mask (Z.of_nat (length out_buf) + 1) = Some (b_mask b) /\
    rd (b_mask b) (length out_buf) = INSERT_BEFORE_SAFE.
Proof.
  intros Hlen Eperm Hmode. set (L := length out_buf).
  assert (Hu : u32 (Z.of_nat L + 1) = Z.of_nat L + 1)
    by (unfold u32; apply Z.mod_small; lia).
  unfold deterministic_branch_mask, initial_branch_mask. fold L.
  rewrite Hu, Eperm.
  assert (Hrb : negb (rb_fuzzing =? 0) && negb shadow_mode
                && (0 <? use_branch_mask) = false).
  { destruct vanilla_afl.
    - replace (rb_fuzzing =? 0) with true
        by (symmetry; apply Z.eqb_eq; apply Hmode; reflexivity).
      reflexivity.
    - destruct shadow_mode; [apply andb_false_intro1, andb_false_r|].
      cbn [orb] in Eperm. apply Z.eqb_eq in Eperm. subst use_branch_mask.
      apply andb_false_r. }
  rewrite Hrb.
  destruct (@alloc_branch_mask_spec (Z.of_nat L) ltac:(lia))
    as (m & Hm & Hl & Hlast & _).
  rewrite Hm. cbn [bind].
  rewrite Nat2Z.id in Hlast.
  assert (Hk := flip8_loop_keeps rb_fuzzing L 0 w out_buf m).
  set (b1 := flip8_loop false rb_fuzzing L 0 w out_buf m) in *.
  exists b1. split; [destruct (b_abandon b1); reflexivity|].
  rewrite Hk. split; [reflexivity | exact Hlast].
Qed.

(** Rare-branch mode: the last byte of the mask is written by the last
    pass of "rbadd8" alone. *)
Lemma built_branch_mask (use_branch_mask rb_fuzzing : Z) (w : World)
    (out_buf : list Z) :
  Z.of_nat (length out_buf) + 1 < 2 ^ 32 ->
  rb_fuzzing <> 0 -> 0 < use_branch_mask ->
  let L := length out_buf in
  let b1 := flip8_loop true rb_fuzzing L 0 w out_buf
              (ck_alloc (Z.of_nat L + 1)) in
  let b2 := rbrem8_loop rb_fuzzing L 0 (b_world b1) out_buf (b_mask b1) in
  let b3 := rbadd8_loop rb_fuzzing L 0 (b_world b2) out_buf (b_mask b2) in
  exists b,
    deterministic_branch_mask common_fuzz_stuff hits_branch rand_below
      false false use_branch_mask rb_fuzzing w out_buf = Some b /\
    let '(w0, byte) := rand_below (b_world b3) 256 in
    let '(w1, ab) := common_fuzz_stuff w0 (out_buf ++ [u8 byte]) in
    if b_abandon b then rd (b_mask b) L = 0
    else
      b_world b = w1 /\ ab = 0 /\
      rd (b_mask b) L =
      if hits_branch w1 (u32 (rb_fuzzing - 1))
      then INSERT_BEFORE_SAFE else 0.
Proof.
  intros Hlen Hrbf Hubm L.
  assert (Hu : u32 (Z.of_nat L + 1) = Z.of_nat L + 1)
    by (unfold u32; apply Z.mod_small; lia).
  unfold deterministic_branch_mask, initial_branch_mask. fold L.
  rewrite Hu.
  replace (rb_fuzzing =? 0) with false by (symmetry; apply Z.eqb_neq; lia).
  replace (use_branch_mask =? 0) with false
    by (symmetry; apply Z.eqb_neq; lia).
  replace (0 <? use_branch_mask) with true
    by (symmetry; apply Z.ltb_lt; lia).
  cbn [negb andb orb bind].
  set (mask0 := ck_alloc (Z.of_nat L + 1)).
  assert (Hl0 : length mask0 = S L)
    by (unfold mask0, ck_alloc; rewrite repeat_length; lia).
  assert (Hz0 : rd mask0 L = 0)
    by (unfold mask0, ck_alloc; apply rd_repeat0).
  destruct (flip8_loop_frame true rb_fuzzing L 0 w out_buf mask0)
    as [Hl8 Hf8].
  set (b1 := flip8_loop true rb_fuzzing L 0 w out_buf mask0) in *.
  destruct (rbrem8_loop_frame rb_fuzzing L 0 (b_world b1) out_buf
              (b_mask b1)) as [Hlr Hfr].
  set (b2 := rbrem8_loop rb_fuzzing L 0 (b_world b1) out_buf (b_mask b1))
    in *.
  destruct (rbadd8_loop_frame rb_fuzzing L 0 (b_world b2) out_buf
              (b_mask b2)) as [Hl3 Hf3].
  set (b3 := rbadd8_loop rb_fuzzing L 0 (b_world b2) out_buf (b_mask b2))
    in *.
  assert (H1 : rd (b_mask b1) L = 0) by (rewrite Hf8 by lia; exact Hz0).
  assert (H2 : rd (b_mask b2) L = 0) by (rewrite Hfr by lia; exact H1).
  assert (H3 : rd (b_mask b3) L = 0) by (rewrite Hf3 by lia; exact H2).
  cbn zeta.
  destruct (rand_below (b_world b3) 256) as [w0 byte] eqn:Er.
  destruct (common_fuzz_stuff w0 (out_buf ++ [u8 byte])) as [w1 ab] eqn:Ec.
  destruct (b_abandon b1) eqn:Eab1.
  { exists b1. rewrite Eab1. split; [reflexivity | exact H1]. }
  destruct (b_abandon b2) eqn:Eab2.
  { exists b2. rewrite Eab2. split; [reflexivity | exact H2]. }
  eexists. split; [reflexivity|].
  rewrite rbadd8_loop_snoc. cbn zeta. fold b3.
  destruct (b_abandon b3) eqn:Eab3.
  { rewrite Eab3. exact H3. }
  cbn [Nat.add]. rewrite rbadd8_loop_step. rewrite Er. cbn zeta.
  replace (firstn L out_buf ++ [u8 byte] ++ skipn L out_buf)
    with (out_buf ++ [u8 byte])
    by (unfold L; rewrite firstn_all, skipn_all, app_nil_r; reflexivity).
  rewrite Ec.
  destruct (negb (ab =? 0)) eqn:Eab; cbn [Mask.rbadd8_loop b_mask b_abandon
                                            b_world].
  { exact H3. }
  apply negb_false_iff in Eab. apply Z.eqb_eq in Eab.
  destruct (hits_branch w1 (u32 (rb_fuzzing - 1))).
  + split; [reflexivity|]. split; [exact Eab|].
    rewrite rd_upd_eq by lia. rewrite H3. reflexivity.
  + split; [reflexivity|]. split; [exact Eab | exact H3].
Qed.

(** C2, as the code has it, for every mode. The mask of an input of [L]
    bytes has [L + 1] bytes in every mode. In a permissive mode
    ([vanilla_afl], [shadow_mode] or [use_branch_mask == 0]; [rb_fuzzing]
    is 0 under [vanilla_afl]) it is the mask of [alloc_branch_mask] and
    ends in the byte [INSERT_BEFORE_SAFE]. In rare-branch mode
    ([rb_fuzzing] is a branch number plus one: the function has returned
    otherwise) the last pass of "rbadd8" runs the input with a random byte
    appended, from the state the passes before it reached; the last byte
    of the mask is [INSERT_BEFORE_SAFE] when that run hit the target
    branch and 0 when it did not, and 0 when the stage was abandoned. *)
Theorem branch_mask_final_byte (vanilla_afl shadow_mode : bool)
    (use_branch_mask rb_fuzzing : Z) (w : World) (out_buf : list Z) :
  Z.of_nat (length out_buf) + 1 < 2 ^ 32 ->
  let L := length out_buf in
  exists b,
    deterministic_branch_mask common_fuzz_stuff hits_branch rand_below
      vanilla_afl shadow_mode use_branch_mask rb_fuzzing w out_buf = Some b /\
    length (b_mask b) = S L /\
    (vanilla_afl || shadow_mode || (use_branch_mask =? 0) = true ->
     (vanilla_afl = true -> rb_fuzzing = 0) ->
     alloc_branch_mask (Z.of_nat L + 1) = Some (b_mask b) /\
     rd (b_mask b) L = INSERT_BEFORE_SAFE) /\
    (vanilla_afl || shadow_mode || (use_branch_mask =? 0) = false ->
     rb_fuzzing <> 0 -> 0 < use_branch_mask ->
     let b1 := flip8_loop true rb_fuzzing L 0 w out_buf
                 (ck_alloc (Z.of_nat L + 1)) in
     let b2 := rbrem8_loop rb_fuzzing L 0 (b_world b1) out_buf (b_mask b1) in
     let b3 := rbadd8_loop rb_fuzzing L 0 (b_world b2) out_buf (b_mask b2) in
     let '(w0, byte) := rand_below (b_world b3) 256 in
     let '(w1, ab) := common_fuzz_stuff w0 (out_buf ++ [u8 byte]) in
     if b_abandon b then rd (b_mask b) L = 0
     else
       b_world b = w1 /\ ab = 0 /\
       rd (b_mask b) L =
       if hits_branch w1 (u32 (rb_fuzzing - 1))
       then INSERT_BEFORE_SAFE else 0).
Proof.
  intros Hlen L.
  destruct (@deterministic_branch_mask_length vanilla_afl shadow_mode
              use_branch_mask rb_fuzzing w out_buf Hlen) as (b & Hb & Hl).
  exists b. split; [exact Hb|]. split; [exact Hl|]. split.
  - intros Eperm Hmode.
    destruct (@permissive_branch_mask vanilla_afl shadow_mode
                use_branch_mask rb_fuzzing w out_buf Hlen Eperm Hmode)
      as (b' & Hb' & Ha & Hlast).
    rewrite Hb in Hb'. injection Hb' as <-. split; [exact Ha | exact Hlast].
  - intros Eperm Hrbf Hubm.
    apply orb_false_elim in Eperm. destruct Eperm as [Eperm _].
    apply orb_false_elim in Eperm. destruct Eperm as [Ev Es].
    subst vanilla_afl shadow_mode.
    destruct (@built_branch_mask use_branch_mask rb_fuzzing w out_buf Hlen
                Hrbf Hubm) as (b' & Hb' & Hlast).
    rewrite Hb in Hb'. injection Hb' as <-. exact Hlast.
Qed.

End BuilderTheory.

(** A two-byte input; the harness state counts the runs and the target
    branch is hit by every second run. In rare-branch mode the last byte
    follows the last run; in the three permissive modes the mask is the
    one of [alloc_branch_mask]. *)
Lemma branch_mask_final_byte_witness :
  let cfs := fun (w : Z) (_ : list Z) => (w + 1, 0) in
  let hit := fun (w : Z) (_ : Z) => Z.even w in
  let rnd := fun (w : Z) (_ : Z) => (w, 0) in
  (exists b,
     deterministic_branch_mask cfs hit rnd false false 1 1 0 [65; 66]
       = Some b /\
     length (b_mask b) = 3%nat /\
     let b1 := Mask.flip8_loop cfs hit true 1 2 0 0 [65; 66]
                 (ck_alloc (Z.of_nat 2 + 1)) in
     let b2 := Mask.rbrem8_loop cfs hit 1 2 0 (b_world b1) [65; 66]
                 (b_mask b1) in
     let b3 := Mask.rbadd8_loop cfs hit rnd 1 2 0 (b_world b2) [65; 66]
                 (b_mask b2) in
     let '(w0, byte) := rnd (b_world b3) 256 in
     let '(w1, ab) := cfs w0 ([65; 66] ++ [u8 byte]) in
     if b_abandon b then rd (b_mask b) 2 = 0
     else
       b_world b = w1 /\ ab = 0 /\
       rd (b_mask b) 2 =
       if hit w1 (u32 (1 - 1)) then INSERT_BEFORE_SAFE else 0) /\
  (exists b,
     deterministic_branch_mask cfs hit rnd true false 1 0 0 [65; 66]
       = Some b /\
     length (b_mask b) = 3%nat /\
     alloc_branch_mask (Z.of_nat 2 + 1) = Some (b_mask b) /\
     rd (b_mask b) 2 = INSERT_BEFORE_SAFE) /\
  (exists b,
     deterministic_branch_mask cfs hit rnd false true 1 1 0 [65; 66]
       = Some b /\
     length (b_mask b) = 3%nat /\
     alloc_branch_mask (Z.of_nat 2 + 1) = Some (b_mask b) /\
     rd (b_mask b) 2 = INSERT_BEFORE_SAFE).
Proof.
  intros cfs hit rnd.
  assert (Hlen : Z.of_nat (length [65; 66]) + 1 < 2 ^ 32)
    by (vm_compute; reflexivity).
  split; [|split].
  - destruct (@branch_mask_final_byte Z cfs hit rnd false false 1 1 0
                [65; 66] Hlen) as (b & Hb & Hl & _ & Hrb).
    exists b. split; [exact Hb|]. split; [exact Hl|].
    apply Hrb; [reflexivity | discriminate | lia].
  - destruct (@branch_mask_final_byte Z cfs hit rnd true false 1 0 0
                [65; 66] Hlen) as (b & Hb & Hl & Hperm & _).
    exists b. split; [exact Hb|]. split; [exact Hl|].
    apply Hperm; reflexivity.
  - destruct (@branch_mask_final_byte Z cfs hit rnd false true 1 1 0
                [65; 66] Hlen) as (b & Hb & Hl & Hperm & _).
    exists b. split; [exact Hb|]. split; [exact Hl|].
    apply Hperm; [reflexivity | discriminate].
Defined.

(** The same input in the three permissive modes: the mask is the one of
    [alloc_branch_mask] whatever the runs do. *)
Lemma branch_mask_permissive_modes :
  let cfs := fun (w : Z) (_ : list Z) => (w + 1, 0) in
  let hit := fun (w : Z) (_ : Z) => Z.even w in
  let rnd := fun (w : Z) (_ : Z) => (w, 0) in
  option_map (@b_mask Z)
    (deterministic_branch_mask cfs hit rnd true false 1 0 0 [65; 66])
    = Some [7; 7; 4] /\
  option_map (@b_mask Z)
    (deterministic_branch_mask cfs hit rnd false true 1 1 0 [65; 66])
    = Some [7; 7; 4] /\
  option_map (@b_mask Z)
    (deterministic_branch_mask cfs hit rnd false false 0 1 0 [65; 66])
    = Some [7; 7; 4].
Proof. repeat split. Qed.

(** C2 as the specification words it fails: in rare-branch mode, with a
    target whose branch is lost by every probe, the mask built for a
    two-byte input ends in a byte without [INSERT_BEFORE_SAFE]. *)
Lemma branch_mask_final_byte_counterexample :
  exists b,
    deterministic_branch_mask (fun (w : unit) (_ : list Z) => (w, 0))
      (fun _ _ => false) (fun w _ => (w, 0)) false false 1 1 tt [65; 66]
      = Some b /\
    b_abandon b = false /\ b_mask b = [0; 0; 0] /\
    has_flag (b_mask b) 2 INSERT_BEFORE_SAFE = false.
Proof. eexists. repeat split. Qed.

End MaskTheory.

(** * Theory of the rare-branch selector *)

Module RareBranchTheory.

Import RareBranch.

(** C5 on [two_branches]: branches 0 and 1 are rare and hit, yet the list
    that [is_rb_hit_mini] returns names branch 1 twice (entries are ids
    plus one) and leaves branch 0 out. The entry shifted by the one-byte
    [memmove] is overwritten by the unconditional append behind the
    insertion loop. *)
Theorem is_rb_hit_mini_drops_branch :
  get_lowest_hit_branch_ids 2 two_branches
    = Some ([0; 1; -1; 0; 0; 0; 0; 0], 2) /\
  rare_and_hit two_branches [3] [0; 1; -1; 0; 0; 0; 0; 0] 0 = true /\
  rare_and_hit two_branches [3] [0; 1; -1; 0; 0; 0; 0; 0] 1 = true /\
  is_rb_hit_mini 2 two_branches [3] = Some (Some [2; 2], 2) /\
  ~ In (0 + 1) [2; 2].
Proof.
  repeat split; try reflexivity.
  simpl. intros [H|[H|H]]; try discriminate; contradiction.
Qed.

End RareBranchTheory.

(** * Theory of the havoc stage *)

Module HavocTheory.

Import Havoc.

(** C1 on [mem_byte1_safe], with both draws of the random source equal
    to 0: the position query returns byte position 1, [FLIP_BIT] reads it
    as a bit position, and the bit that is flipped lies in byte 0, whose
    mask entry has no [OVERWRITE_SAFE]. *)
Theorem flip_bit1_flips_unsafe_byte :
  Mask.has_flag (branch_mask mem_byte1_safe) 0 Mask.OVERWRITE_SAFE = false /\
  Mask.get_random_modifiable_posn (fun (w : unit) _ => (w, 0)) tt 1 1 2
    [0; 1; 4] 3 = Some (tt, 1) /\
  exists m,
    sub_application (fun (w : unit) _ => (w, 0)) [] [] [] 35 FLIP_BIT1 0 tt
      mem_byte1_safe = Some (tt, m, false) /\
    out_buf m = [1; 66] /\
    rd (out_buf m) 0 <> rd (out_buf mem_byte1_safe) 0.
Proof.
  split; [reflexivity|]. split; [reflexivity|].
  eexists. split; [vm_compute; reflexivity|].
  split; [reflexivity|]. vm_compute. discriminate.
Qed.

(** ** Loads and stores *)

(** The little-endian value of a list of bytes. *)
Local Abbreviation le_value l := (fold_right (fun b acc => b + 2 ^ 8 * acc) 0 l).

Lemma Forall_firstn' (A : Type) (P : A -> Prop) : forall n (l : list A),
  Forall P l -> Forall P (firstn n l).
Proof.
  induction n as [|n IH]; intros l H; [constructor|].
  destruct H; cbn [firstn]; constructor; auto.
Qed.

Lemma Forall_skipn' (A : Type) (P : A -> Prop) : forall n (l : list A),
  Forall P l -> Forall P (skipn n l).
Proof.
  induction n as [|n IH]; intros l H; [exact H|].
  destruct H; cbn [skipn]; [constructor | auto].
Qed.

Lemma bytes_of_length width : forall v, length (bytes_of width v) = width.
Proof. induction width as [|n IH]; intros v; simpl; auto. Qed.

Lemma bytes_of_bytes width : forall v, Forall is_byte (bytes_of width v).
Proof.
  induction width as [|n IH]; intros v; cbn [bytes_of]; constructor; auto.
  unfold is_byte. change (2 ^ 8) with 256. apply Z.mod_pos_bound. lia.
Qed.

Lemma bytes_of_le_value (l : list Z) :
  Forall is_byte l -> bytes_of (length l) (le_value l) = l.
Proof.
  induction 1 as [|b l Hb Hl IH]; [reflexivity|].
  cbn [length bytes_of fold_right]. unfold is_byte in Hb.
  rewrite Z.shiftr_div_pow2 by lia. change (2 ^ 8) with 256 in *.
  set (acc := fold_right (fun b0 acc0 => b0 + 256 * acc0) 0 l) in *.
  replace (b + 256 * acc) with (b + acc * 256) by lia.
  rewrite Z.mod_add, Z.div_add, Z.mod_small, Z.div_small by lia.
  rewrite Z.add_0_l, IH. reflexivity.
Qed.

Lemma load_some width buf pos v :
  load width buf pos = Some v ->
  (pos + width <= length buf)%nat /\
  v = le_value (firstn width (skipn pos buf)).
Proof.
  unfold load. destruct (pos + width <=? length buf)%nat eqn:E;
    [|discriminate].
  apply Nat.leb_le in E. intros [= <-]. auto.
Qed.

Lemma store_some width buf pos v ob :
  store width buf pos v = Some ob ->
  (pos + width <= length buf)%nat /\
  ob = firstn pos buf ++ bytes_of width v ++ skipn (pos + width) buf.
Proof.
  unfold store. destruct (pos + width <=? length buf)%nat eqn:E;
    [|discriminate].
  apply Nat.leb_le in E. intros [= <-]. auto.
Qed.

Lemma store_length width buf pos v ob :
  store width buf pos v = Some ob -> length ob = length buf.
Proof.
  intros H. apply store_some in H. destruct H as [Hle ->].
  rewrite !length_app, length_firstn, bytes_of_length, length_skipn. lia.
Qed.

Lemma store_bytes width buf pos v ob :
  Forall is_byte buf -> store width buf pos v = Some ob ->
  Forall is_byte ob.
Proof.
  intros Hb H. apply store_some in H. destruct H as [Hle ->].
  apply Forall_app. split; [apply Forall_firstn'; exact Hb|].
  apply Forall_app. split; [apply bytes_of_bytes|].
  apply Forall_skipn'. exact Hb.
Qed.

Lemma slot_store_same width buf pos v ob :
  store width buf pos v = Some ob -> slot width ob pos = bytes_of width v.
Proof.
  intros H. apply store_some in H. destruct H as [Hle ->]. unfold slot.
  rewrite skipn_app, length_firstn.
  replace (pos - Nat.min pos (length buf))%nat with 0%nat by lia.
  rewrite skipn_all2 by (rewrite length_firstn; lia).
  cbn [app skipn]. rewrite firstn_app, bytes_of_length, Nat.sub_diag.
  cbn [firstn]. rewrite app_nil_r.
  rewrite <- (bytes_of_length width v) at 1. apply firstn_all.
Qed.

Lemma slot_app_l width q (l1 l2 : list Z) :
  (q + width <= length l1)%nat ->
  slot width (l1 ++ l2) q = slot width l1 q.
Proof.
  intros H. unfold slot. rewrite skipn_app, firstn_app, length_skipn.
  replace (width - (length l1 - q))%nat with 0%nat by lia.
  cbn [firstn]. apply app_nil_r.
Qed.

Lemma slot_store_below width buf pos v ob q :
  store width buf pos v = Some ob -> (q + width <= pos)%nat ->
  slot width ob q = slot width buf q.
Proof.
  intros H Hq. apply store_some in H. destruct H as [Hle ->].
  rewrite <- (firstn_skipn pos buf) at 3.
  rewrite !slot_app_l by (rewrite length_firstn; lia). reflexivity.
Qed.

(** Storing what was loaded, over anything stored in between, gives the
    buffer back. *)
Lemma store_back width buf pos v ob :
  Forall is_byte buf ->
  store width buf pos v = Some ob ->
  store width ob pos (le_value (slot width buf pos)) = Some buf.
Proof.
  intros Hb H. pose proof (store_length _ _ _ _ H) as Hlen.
  apply store_some in H. destruct H as [Hle Hob].
  unfold store. rewrite Hlen.
  replace (pos + width <=? length buf)%nat with true
    by (symmetry; apply Nat.leb_le; lia).
  f_equal.
  assert (Hf : firstn pos ob = firstn pos buf).
  { rewrite Hob, firstn_app, length_firstn.
    replace (pos - Nat.min pos (length buf))%nat with 0%nat by lia.
    cbn [firstn]. rewrite app_nil_r, firstn_firstn, Nat.min_id.
    reflexivity. }
  assert (Hs : skipn (pos + width) ob = skipn (pos + width) buf).
  { rewrite Hob, (app_assoc (firstn pos buf)), skipn_app.
    rewrite skipn_all2
      by (rewrite length_app, length_firstn, bytes_of_length; lia).
    rewrite length_app, length_firstn, bytes_of_length.
    replace (pos + width - (Nat.min pos (length buf) + width))%nat
      with 0%nat by lia.
    reflexivity. }
  assert (Hl : length (slot width buf pos) = width)
    by (unfold slot; rewrite length_firstn, length_skipn; lia).
  rewrite Hf, Hs. rewrite <- Hl at 1. rewrite bytes_of_le_value
    by (unfold slot; apply Forall_firstn', Forall_skipn'; exact Hb).
  unfold slot.
  replace (skipn (pos + width) buf) with (skipn width (skipn pos buf))
    by (rewrite skipn_skipn; f_equal; lia).
  rewrite firstn_skipn, firstn_skipn. reflexivity.
Qed.

Lemma store_congr width buf pos a b :
  bytes_of width a = bytes_of width b ->
  store width buf pos a = store width buf pos b.
Proof. intros H. unfold store. rewrite H. reflexivity. Qed.

Lemma load_slot width buf pos :
  (pos + width <= length buf)%nat ->
  load width buf pos = Some (le_value (slot width buf pos)).
Proof.
  intros H. unfold load, slot.
  replace (pos + width <=? length buf)%nat with true
    by (symmetry; apply Nat.leb_le; lia).
  reflexivity.
Qed.

(** Flipping twice gives the byte back. *)
Lemma lxor_twice_mod (old bit : Z) :
  (Z.lxor ((Z.lxor old bit) mod 2 ^ 8) bit) mod 2 ^ 8 = old mod 2 ^ 8.
Proof.
  apply Z.bits_inj'. intros n Hn.
  destruct (Z.ltb_spec n 8) as [Hlt|Hge].
  - rewrite !Z.mod_pow2_bits_low, Z.lxor_spec, Z.mod_pow2_bits_low,
      Z.lxor_spec by lia.
    destruct (Z.testbit old n), (Z.testbit bit n); reflexivity.
  - rewrite !Z.mod_pow2_bits_high by lia. reflexivity.
Qed.

Lemma FLIP_BIT_involutive (buf ob : list Z) (pos : Z) :
  Forall is_byte buf ->
  FLIP_BIT buf pos = Some ob -> FLIP_BIT ob pos = Some buf.
Proof.
  intros Hb H. unfold FLIP_BIT in *.
  set (i := Z.to_nat (Z.shiftr pos 3)) in *.
  set (bit := Z.shiftr 128 (Z.land pos 7)) in *.
  destruct (load 1 buf i) as [old|] eqn:El; [|discriminate].
  cbn [bind] in H. apply load_some in El. destruct El as [Hle Hold].
  pose proof (store_length _ _ _ _ H) as Hlen.
  pose proof (slot_store_same _ _ _ _ H) as Hslot.
  rewrite load_slot by lia. cbn [bind]. rewrite Hslot.
  rewrite <- (@store_back _ _ _ _ _ Hb H). apply store_congr.
  fold (slot 1 buf i) in Hold. rewrite <- Hold.
  cbn [bytes_of fold_right]. f_equal.
  replace (Z.lxor old bit mod 2 ^ 8 + 2 ^ 8 * 0)
    with (Z.lxor old bit mod 2 ^ 8) by lia.
  apply lxor_twice_mod.
Qed.

(** ** The restore phase after an early break *)

(** A flipped bit changes the byte. *)
Lemma flip_changes_byte (old p : Z) :
  (Z.lxor old (Z.shiftr 128 (Z.land p 7))) mod 2 ^ 8 <> old.
Proof.
  intros E.
  assert (Hk : 0 <= Z.land p 7 < 8).
  { change 7 with (Z.ones 3). rewrite Z.land_ones by lia.
    apply Z.mod_pos_bound. lia. }
  assert (Hb : Z.testbit ((Z.lxor old (Z.shiftr 128 (Z.land p 7))) mod 2 ^ 8)
                 (7 - Z.land p 7)
               = negb (Z.testbit old (7 - Z.land p 7))).
  { rewrite Z.mod_pow2_bits_low by lia.
    rewrite Z.lxor_spec, Z.shiftr_spec by lia.
    replace (7 - Z.land p 7 + Z.land p 7) with 7 by lia.
    change (Z.testbit 128 7) with true. apply xorb_true_r. }
  rewrite E in Hb. destruct (Z.testbit old (7 - Z.land p 7)); discriminate.
Qed.

Lemma FLIP_BIT_changes (buf : list Z) (p : Z) :
  0 <= p < 8 * Z.of_nat (length buf) ->
  exists ob, FLIP_BIT buf p = Some ob /\ ob <> buf.
Proof.
  intros Hp. unfold FLIP_BIT, load, store.
  assert (Hi : (Z.to_nat (Z.shiftr p 3) < length buf)%nat).
  { rewrite Z.shiftr_div_pow2 by lia. change (2 ^ 3) with 8.
    apply Nat2Z.inj_lt. rewrite Z2Nat.id by (apply Z.div_pos; lia).
    apply Z.div_lt_upper_bound; lia. }
  set (i := Z.to_nat (Z.shiftr p 3)) in *.
  assert (Hle : (i + 1 <=? length buf)%nat = true)
    by (apply Nat.leb_le; lia).
  rewrite Hle. cbn [bind].
  eexists. split; [reflexivity|]. intros E.
  apply (f_equal (fun l => nth i l 0)) in E.
  rewrite app_nth2 in E by (rewrite length_firstn; lia).
  rewrite length_firstn in E.
  replace (i - Nat.min i (length buf))%nat with 0%nat in E by lia.
  cbn [bytes_of app nth] in E.
  assert (Hold : fold_right (fun b acc => b + 2 ^ 8 * acc) 0
                   (firstn 1 (skipn i buf)) = nth i buf 0).
  { rewrite <- (firstn_skipn i buf) at 2.
    rewrite app_nth2 by (rewrite length_firstn; lia).
    rewrite length_firstn.
    replace (i - Nat.min i (length buf))%nat with 0%nat by lia.
    destruct (skipn i buf) as [|b rest] eqn:Es.
    - apply (f_equal (@length Z)) in Es. rewrite length_skipn in Es.
      simpl in Es. lia.
    - cbn. lia. }
  rewrite Hold in E. exact (@flip_changes_byte _ _ E).
Qed.

Section RestoreTheory.

Variable World : Type.
Variable rand_below : World -> Z -> World * Z.
Variable common_fuzz_stuff : World -> list Z -> World * Z.
Variable interesting_8 : list Z.
Variable interesting_16 : list Z.
Variable interesting_32 : list Z.
Variable ARITH_MAX : Z.
Variable MIN_LEN_FOR_OPTIMIZED_RESTORE : Z.

Local Abbreviation havoc_case :=
  (Havoc.havoc_case rand_below interesting_8 interesting_16 interesting_32
     ARITH_MAX).
Local Abbreviation havoc_fine_iteration :=
  (Havoc.havoc_fine_iteration rand_below common_fuzz_stuff interesting_8
     interesting_16 interesting_32 ARITH_MAX MIN_LEN_FOR_OPTIMIZED_RESTORE).

(** A mask without [mod_type] in its first [todo] bytes gives an empty
    position map. *)
Lemma posn_scan_none ntm mask cap : forall todo i,
  (forall k, (k < todo)%nat -> rd mask (i + k) = 0) ->
  Mask.posn_scan ntm 1 mask cap todo i [] (-1) true = Some ([], -1, true).
Proof.
  induction todo as [|todo IH]; intros i H; cbn [Mask.posn_scan];
    [reflexivity|].
  pose proof (H 0%nat ltac:(lia)) as H0. rewrite Nat.add_0_r in H0.
  rewrite H0. cbn [Z.land Z.eqb negb andb bind].
  apply IH. intros k Hk.
  replace (S i + k)%nat with (i + S k)%nat by lia. apply H. lia.
Qed.

Lemma no_posn (w : World) ntm (n : nat) cap :
  Mask.get_random_modifiable_posn rand_below w ntm 1 (Z.of_nat n)
    (repeat 0 n ++ [4]) cap = Some (w, Mask.NO_POSN).
Proof.
  unfold Mask.get_random_modifiable_posn, Mask.modifiable_positions.
  rewrite Nat2Z.id. rewrite posn_scan_none; [reflexivity|].
  intros k Hk. unfold rd. rewrite app_nth1 by (rewrite repeat_length; lia).
  apply nth_repeat_lt. lia.
Qed.

(** C3, on every input that reaches the fine-grained restore and whose
    mask allows no overwrite: the position query finds no legal position,
    the inner loop of FLIP_BIT1 breaks before its first sub-application,
    and the restore phase still replays [use_stacking = 1] entry of
    [mutation_pos]. The entry was not recorded in this iteration; whatever
    bit of the buffer it names is flipped, and [out_buf] no longer equals
    [in_buf]. *)
Theorem restore_after_early_break (w : World) (buf mp md : list Z) :
  let len := Z.of_nat (length buf) in
  let mask := repeat 0 (length buf) ++ [4] in
  let m := {| out_buf := buf; temp_len := len; branch_mask := mask;
              mutation_pos := mp; mutation_data := md |} in
  MIN_LEN_FOR_OPTIMIZED_RESTORE <= len ->
  0 <= rd mp 0 < 8 * len ->
  snd (common_fuzz_stuff w buf) = 0 ->
  havoc_case FLIP_BIT1 1 w m = Some (w, m, 0%nat) /\
  exists m',
    havoc_fine_iteration FLIP_BIT1 1 len buf mask w m
      = Some (fst (common_fuzz_stuff w buf), m', false) /\
    out_buf m' <> buf.
Proof.
  intros len mask m Hmin Hp Hrun.
  assert (Hcase : havoc_case FLIP_BIT1 1 w m = Some (w, m, 0%nat)).
  { unfold Havoc.havoc_case.
    cbn [mutation_size_of byte_width Z.of_nat Z.eqb negb].
    replace (temp_len m <? 0) with false
      by (symmetry; apply Z.ltb_ge; cbn [temp_len m]; lia).
    cbn [andb]. change (Z.to_nat 1) with 1%nat.
    cbn [stacking_loop]. unfold sub_application.
    cbn [num_to_modify_of temp_len branch_mask m].
    unfold len, mask. rewrite no_posn. reflexivity. }
  split; [exact Hcase|].
  destruct (FLIP_BIT_changes buf Hp) as (ob & Hflip & Hne).
  exists {| out_buf := ob; temp_len := len; branch_mask := mask;
            mutation_pos := mp; mutation_data := md |}.
  split; [|exact Hne].
  unfold Havoc.havoc_fine_iteration. rewrite Hcase. cbn [bind].
  cbn [temp_len out_buf m]. unfold len at 1. rewrite Nat2Z.id, firstn_all.
  destruct (common_fuzz_stuff w buf) as [w2 abandon]. cbn [snd fst] in *.
  subst abandon. cbn [Z.eqb negb].
  unfold havoc_restore. apply Z.leb_le in Hmin. rewrite Hmin.
  cbn [mutation_size_of byte_width Z.of_nat Z.eqb negb andb].
  rewrite andb_false_r. change (Z.to_nat 1) with 1%nat.
  cbn [restore_loop mutation_pos out_buf m]. rewrite Hflip. reflexivity.
Qed.

(** ** The restore phase after a full loop *)

Local Abbreviation sub_application :=
  (Havoc.sub_application rand_below interesting_8 interesting_16
     interesting_32 ARITH_MAX).
Local Abbreviation stacking_loop :=
  (Havoc.stacking_loop rand_below interesting_8 interesting_16
     interesting_32 ARITH_MAX).

Lemma same_records_refl width k m : same_records width k m m.
Proof. repeat split; reflexivity. Qed.

Lemma same_records_trans width k m1 m2 m3 :
  same_records width k m1 m2 -> same_records width k m2 m3 ->
  same_records width k m1 m3.
Proof.
  intros (A1 & B1 & C1 & D1) (A2 & B2 & C2 & D2).
  repeat split; try congruence;
    destruct (D1 j H) as [E1 F1]; destruct (D2 j H) as [E2 F2]; congruence.
Qed.

Lemma same_records_weaken width k k' m1 m2 :
  (k' <= k)%nat -> same_records width k m1 m2 -> same_records width k' m1 m2.
Proof.
  intros Hk (A & B & C & D). repeat split; auto; apply D; lia.
Qed.

(** A sub-application that does not leave the loop records what the
    restore phase needs to take it back. *)
Lemma sub_application_step (c : fine_case) (i : nat) (w w1 : World)
    (m m1 : havoc_mem) :
  Forall is_byte (out_buf m) ->
  sub_application c i w m = Some (w1, m1, false) ->
  Forall is_byte (out_buf m1) /\
  same_records (byte_width (mutation_size_of c)) i m m1 /\
  forall m',
    same_records (byte_width (mutation_size_of c)) (S i) m1 m' ->
    restore_loop (mutation_size_of c) (S i) (with_out m' (out_buf m1))
    = restore_loop (mutation_size_of c) i (with_out m' (out_buf m)).
Proof.
  intros Hb H. unfold Havoc.sub_application in H.
  destruct (Mask.get_random_modifiable_posn _ _ _ _ _ _ _)
    as [[w0 pos]|]; [|discriminate]. cbn [bind] in H.
  destruct (pos =? Mask.NO_POSN); [discriminate|].
  destruct (set_pos (mutation_pos m) i pos) as [mp|] eqn:Ep;
    [|discriminate]. cbn [bind] in H.
  unfold set_pos in Ep.
  destruct (i <? length (mutation_pos m))%nat eqn:Ei; [|discriminate].
  apply Nat.ltb_lt in Ei. injection Ep as <-.
  destruct (mutation_size_of c) eqn:Esz.
  2:{ (* BIT1 *)
    destruct (FLIP_BIT (out_buf m) pos) as [ob|] eqn:Ef; [|discriminate].
    cbn [bind] in H. injection H as <- <-. cbn [out_buf].
    split.
    { unfold FLIP_BIT in Ef. destruct (load _ _ _); [|discriminate].
      eapply store_bytes; eauto. }
    split.
    { repeat split; cbn [mutation_pos mutation_data temp_len];
        try reflexivity; [apply upd_length | apply rd_upd_ne; lia]. }
    intros m' (A & B & C & D). cbn [restore_loop with_out mutation_pos
                                   out_buf].
    destruct (D i ltac:(lia)) as [Hpos _]. cbn [mutation_pos] in Hpos.
    rewrite Hpos, rd_upd_eq by exact Ei.
    rewrite (FLIP_BIT_involutive _ Hb Ef). reflexivity. }
  all: cbv zeta in H;
    match type of H with
    | context [load ?wd _ _] => remember wd as width eqn:Ew in *
    end;
    destruct (load width (out_buf m) (Z.to_nat pos)) as [old|] eqn:El;
      [|discriminate]; cbn [bind] in H;
    destruct (store width (mutation_data m) (width * i) old) as [md|] eqn:Em;
      [|discriminate]; cbn [bind] in H;
    destruct (new_value _ _ _ _ _ c w0 old) as [w2 v];
    destruct (store width (out_buf m) (Z.to_nat pos) v) as [ob|] eqn:Eo;
      [|discriminate]; cbn [bind] in H;
    injection H as <- <-; cbn [out_buf];
    (split; [eapply store_bytes; eauto|]);
    (split;
     [ repeat split; cbn [mutation_pos mutation_data temp_len];
       first [ reflexivity
             | apply upd_length
             | eapply store_length; exact Em
             | apply rd_upd_ne; lia
             | eapply slot_store_below; [exact Em | nia] ]
     |]);
    intros m' (A & B & C & D);
    cbn [restore_loop with_out mutation_pos mutation_data out_buf];
    rewrite <- ?Ew;
    destruct (D i ltac:(lia)) as [Hpos Hslot];
    cbn [mutation_pos mutation_data] in Hpos, Hslot, B;
    rewrite Hpos, rd_upd_eq by exact Ei;
    pose proof (store_length _ _ _ _ Em) as Hlm;
    pose proof (store_some _ _ _ _ Em) as [Hle _];
    rewrite load_slot by lia; cbn [bind];
    rewrite Hslot, (slot_store_same _ _ _ _ Em);
    apply load_some in El; destruct El as [Hle' Hold];
    fold (slot width (out_buf m) (Z.to_nat pos)) in Hold;
    rewrite (@store_congr width ob (Z.to_nat pos) _
               (le_value (slot width (out_buf m) (Z.to_nat pos))));
    [ rewrite (@store_back _ _ _ _ _ Hb Eo); reflexivity
    | rewrite <- (bytes_of_length width old) at 1;
      rewrite bytes_of_le_value by apply bytes_of_bytes;
      rewrite Hold; reflexivity ].
Qed.


(** The loop that carries out all its sub-applications leaves a memory
    from which the restore loop gets the buffer back. *)
Lemma stacking_restore (c : fine_case) : forall todo i w m w' m',
  Forall is_byte (out_buf m) ->
  stacking_loop c todo i w m = Some (w', m', (i + todo)%nat) ->
  same_records (byte_width (mutation_size_of c)) i m m' /\
  restore_loop (mutation_size_of c) (i + todo) m'
  = restore_loop (mutation_size_of c) i (with_out m' (out_buf m)).
Proof.
  induction todo as [|todo IH]; intros i w m w' m' Hb H;
    cbn [Havoc.stacking_loop] in H.
  - injection H as _ <- _. rewrite Nat.add_0_r.
    split; [apply same_records_refl|]. destruct m; reflexivity.
  - destruct (sub_application c i w m) as [[[w1 m1] stop]|] eqn:Es;
      [|discriminate]. cbn [bind] in H.
    destruct stop; [injection H as _ _ Hc; lia|].
    replace (i + S todo)%nat with (S i + todo)%nat in * by lia.
    destruct (@sub_application_step _ _ _ _ _ _ Hb Es) as (Hb1 & R1 & Hstep).
    destruct (@IH _ _ _ _ _ Hb1 H) as (R2 & Hrest).
    split.
    + eapply same_records_trans; [exact R1|].
      eapply same_records_weaken; [|exact R2]. lia.
    + rewrite Hrest. apply Hstep. exact R2.
Qed.


End RestoreTheory.


(** The input [[65; 66]] with a threshold of one byte and zeros in the
    recording arrays: bit 0 of the buffer comes back flipped. *)
Lemma restore_after_early_break_witness :
  havoc_case (fun (w : unit) _ => (w, 0)) [] [] [] 35 FLIP_BIT1 1 tt
    mem_no_safe_byte = Some (tt, mem_no_safe_byte, 0%nat) /\
  exists m,
    havoc_fine_iteration (fun (w : unit) _ => (w, 0)) (fun w _ => (w, 0))
      [] [] [] 35 1 FLIP_BIT1 1 2 [65; 66] [0; 0; 4] tt mem_no_safe_byte
      = Some (tt, m, false) /\
    out_buf m <> [65; 66].
Proof.
  apply (@restore_after_early_break unit (fun (w : unit) _ => (w, 0))
           (fun w _ => (w, 0)) [] [] [] 35 1 tt [65; 66] (repeat 0 512)
           (repeat 0 2048)).
  - change (1 <= 2). lia.
  - change (0 <= 0 < 16). lia.
  - reflexivity.
Defined.

(** The same run evaluated: the buffer that the restore phase leaves. *)
Lemma restore_after_early_break_run :
  exists m,
    havoc_fine_iteration (fun (w : unit) _ => (w, 0)) (fun w _ => (w, 0))
      [] [] [] 35 1 FLIP_BIT1 1 2 [65; 66] [0; 0; 4] tt mem_no_safe_byte
      = Some (tt, m, false) /\
    out_buf m = [193; 66].
Proof. eexists. split; [vm_compute; reflexivity | reflexivity]. Qed.

End HavocTheory.

(** * Theory of the helpers of the deterministic stages *)

Module HelpersTheory.

Import Helpers.

(** ** [could_be_bitflip] *)

Lemma land_1_odd (x : Z) : Z.land x 1 = x mod 2.
Proof. change 1 with (Z.ones 1). rewrite Z.land_ones by lia. reflexivity. Qed.

(** The loop stops at the lowest set bit: it returns the odd part of
    [xor_val] and the number of zero bits below it. *)
Lemma first_set_bit_spec : forall fuel sh x,
  0 < x < 2 ^ Z.of_nat fuel -> 0 <= sh -> sh + Z.of_nat fuel < 2 ^ 32 ->
  exists k,
    0 <= k < Z.of_nat fuel /\
    first_set_bit fuel sh x = (sh + k, x / 2 ^ k) /\
    x = (x / 2 ^ k) * 2 ^ k /\ (x / 2 ^ k) mod 2 = 1.
Proof.
  induction fuel as [|fuel IH]; intros sh x Hx Hsh Hb;
    change (2 ^ 32) with 4294967296 in *.
  - simpl in Hx. lia.
  - cbn [first_set_bit]. rewrite land_1_odd.
    rewrite Nat2Z.inj_succ, Z.pow_succ_r in Hx by lia.
    destruct (x mod 2 =? 0) eqn:E.
    + apply Z.eqb_eq in E.
      assert (Hx2 : x = 2 * (x / 2)) by
        (pose proof (Z.div_mod x 2 ltac:(lia)); lia).
      rewrite Z.shiftr_div_pow2 by lia. change (2 ^ 1) with 2.
      assert (Hu : u32 (sh + 1) = sh + 1).
      { unfold u32. apply Z.mod_small.
        change (2 ^ 32) with 4294967296. lia. }
      rewrite Hu.
      destruct (IH (sh + 1) (x / 2) ltac:(lia) ltac:(lia)
                  ltac:(change (2 ^ 32) with 4294967296; lia))
        as (k & Hk & Hr & Hd & Ho).
      exists (k + 1). rewrite Hr.
      assert (Hp : 2 ^ (k + 1) = 2 * 2 ^ k)
        by (rewrite Z.pow_add_r by lia; lia).
      rewrite Hp, <- Z.div_div by lia.
      repeat split; try lia. f_equal. lia.
    + apply Z.eqb_neq in E. exists 0.
      rewrite Z.add_0_r, Z.pow_0_r, Z.div_1_r.
      pose proof (Z.mod_pos_bound x 2 ltac:(lia)).
      repeat split; lia.
Qed.

(** An odd number times a power of two determines both. *)
Lemma odd_part_unique (p q a b : Z) :
  0 <= a -> 0 <= b -> p mod 2 = 1 -> q mod 2 = 1 ->
  p * 2 ^ a = q * 2 ^ b -> a = b /\ p = q.
Proof.
  intros Ha Hb Hp Hq E.
  assert (H : forall p q a b, 0 <= a -> a <= b -> p mod 2 = 1 ->
              p * 2 ^ a = q * 2 ^ b -> a = b).
  { clear. intros p q a b Ha Hab Hp E.
    destruct (Z.eq_dec a b) as [|Hne]; [assumption|exfalso].
    replace b with (a + (1 + (b - a - 1))) in E by lia.
    rewrite !Z.pow_add_r in E by lia.
    assert (H2 : 0 < 2 ^ a) by (apply Z.pow_pos_nonneg; lia).
    assert (E' : p = 2 * (q * 2 ^ (b - a - 1))) by nia.
    rewrite E' in Hp. rewrite Z.mul_comm, Z.mod_mul in Hp by lia.
    discriminate. }
  assert (Hab : a = b).
  { destruct (Z.le_ge_cases a b) as [L|L].
    - apply (H p q a b); auto.
    - symmetry. apply (H q p b a); auto. }
  subst b. split; [reflexivity|].
  assert (H2 : 0 < 2 ^ a) by (apply Z.pow_pos_nonneg; lia). nia.
Qed.

(** What [could_be_bitflip] accepts: zero; a run of 1, 2 or 4 set bits at
    any position; a run of 8, 16 or 32 set bits that starts at a byte
    boundary. Nothing else is accepted. *)
Theorem could_be_bitflip_spec (x : Z) :
  0 <= x < 2 ^ 32 ->
  could_be_bitflip x = true <->
  (x = 0 \/
   exists sh p,
     0 <= sh < 32 /\ x = p * 2 ^ sh /\
     (p = 1 \/ p = 3 \/ p = 15 \/
      (sh mod 8 = 0 /\ (p = 255 \/ p = 65535 \/ p = 4294967295)))).
Proof.
  intros Hx. unfold could_be_bitflip.
  assert (Hu : u32 x = x) by (unfold u32; apply Z.mod_small; lia).
  rewrite Hu.
  destruct (x =? 0) eqn:E0.
  { apply Z.eqb_eq in E0. split; auto. }
  apply Z.eqb_neq in E0.
  destruct (@first_set_bit_spec 32 0 x) as (k & Hk & Hr & Hd & Ho);
    [simpl; lia | lia | simpl; lia |].
  rewrite Hr. cbn [Z.add].
  set (q := x / 2 ^ k) in *.
  assert (Hl : Z.land k 7 = k mod 8).
  { change 7 with (Z.ones 3). rewrite Z.land_ones by lia. reflexivity. }
  rewrite Hl.
  split.
  - intros H. right. exists k, q. split; [simpl in Hk; lia|].
    split; [exact Hd|].
    destruct ((q =? 1) || (q =? 3) || (q =? 15)) eqn:E1.
    + apply orb_true_iff in E1. destruct E1 as [E1|E1];
        [apply orb_true_iff in E1; destruct E1 as [E1|E1]|];
        apply Z.eqb_eq in E1; auto.
    + destruct (k mod 8 =? 0) eqn:E8; cbn [negb] in H; [|discriminate].
      apply Z.eqb_eq in E8.
      apply orb_true_iff in H. destruct H as [H|H];
        [apply orb_true_iff in H; destruct H as [H|H]|];
        apply Z.eqb_eq in H; auto 10.
  - intros [H|(sh & p & Hsh & Hxp & Hp)]; [contradiction|].
    assert (Hodd : p mod 2 = 1)
      by (destruct Hp as [-> | [-> | [-> | (_ & [-> | [-> | ->] ])] ] ];
          reflexivity).
    destruct (@odd_part_unique p q sh k) as [-> ->]; try lia.
    destruct Hp as [-> | [-> | [-> | (H8 & Hp)] ] ]; try reflexivity.
    rewrite H8. cbn [Z.eqb negb].
    destruct Hp as [-> | [-> | ->] ]; reflexivity.
Qed.

(** A single walking bit at position 5 of a byte, and a byte flip at the
    second byte of a word. *)
Lemma could_be_bitflip_spec_witness :
  could_be_bitflip 32 = true /\ could_be_bitflip 65280 = true.
Proof.
  split.
  - apply could_be_bitflip_spec; [lia|]. right. exists 5, 1.
    repeat split; auto; lia.
  - apply could_be_bitflip_spec; [lia|]. right. exists 8, 255.
    repeat split; auto 10; lia.
Defined.

(** ** [could_be_arith] *)

Section ArithTheory.

Variable ARITH_MAX : Z.

Local Abbreviation could_be_arith := (Helpers.could_be_arith ARITH_MAX).
Local Abbreviation within := (Helpers.within ARITH_MAX).

(** Two values that differ by at most [ARITH_MAX] modulo [2^n] are
    [within] range of each other. *)
Lemma within_delta (n old delta : Z) :
  0 <= n -> - ARITH_MAX <= delta <= ARITH_MAX ->
  within (fun x => x mod 2 ^ n) old ((old + delta) mod 2 ^ n) = true.
Proof.
  intros Hn Hd. unfold Helpers.within. cbv beta.
  assert (Hp : 0 < 2 ^ n) by (apply Z.pow_pos_nonneg; lia).
  apply orb_true_iff.
  destruct (Z.le_ge_cases 0 delta) as [H|H].
  - right. apply Z.leb_le.
    rewrite Zminus_mod_idemp_l.
    replace (old + delta - old) with delta by lia.
    pose proof (Z.mod_le delta (2 ^ n) H Hp). lia.
  - left. apply Z.leb_le.
    rewrite Zminus_mod_idemp_r.
    replace (old - (old + delta)) with (- delta) by lia.
    pose proof (Z.mod_le (- delta) (2 ^ n) ltac:(lia) Hp). lia.
Qed.

(** [could_be_arith] accepts every value that lies within [ARITH_MAX] of
    the old one in arithmetic on the whole [blen]-byte operand: what the
    arith 8/8, 16/8 and 32/8 stages write (little endian) is recognised
    as arithmetic. *)
Theorem could_be_arith_accepts (old delta blen : Z) :
  blen = 1 \/ blen = 2 \/ blen = 4 ->
  0 <= old < 2 ^ (8 * blen) ->
  - ARITH_MAX <= delta <= ARITH_MAX ->
  could_be_arith old ((old + delta) mod 2 ^ (8 * blen)) blen = true.
Proof.
  intros Hb Ho Hd.
  set (new := (old + delta) mod 2 ^ (8 * blen)).
  assert (Hn : 0 <= new < 2 ^ (8 * blen))
    by (apply Z.mod_pos_bound; apply Z.pow_pos_nonneg; lia).
  assert (H32 : 2 ^ (8 * blen) <= 2 ^ 32)
    by (apply Z.pow_le_mono_r; lia).
  unfold Helpers.could_be_arith.
  assert (Hou : u32 old = old) by (unfold u32; apply Z.mod_small; lia).
  assert (Hnu : u32 new = new) by (unfold u32; apply Z.mod_small; lia).
  assert (Hbu : u8 blen = blen)
    by (destruct Hb as [-> | [-> | ->] ]; reflexivity).
  rewrite Hou, Hnu, Hbu.
  destruct (old =? new) eqn:E; [reflexivity|]. apply Z.eqb_neq in E.
  destruct Hb as [-> | [-> | ->] ].
  - (* one byte *)
    change (Z.to_nat 1) with 1%nat. cbn [Helpers.unit_diffs].
    change (8 * 0) with 0. rewrite !Z.shiftr_0_r.
    assert (Hob : u8 old = old) by (unfold u8; apply Z.mod_small; lia).
    assert (Hnb : u8 new = new) by (unfold u8; apply Z.mod_small; lia).
    rewrite Hob, Hnb.
    destruct (old =? new) eqn:E'; [apply Z.eqb_eq in E'; contradiction|].
    change (u32 (0 + 1)) with 1. cbn [Z.eqb Pos.eqb andb].
    assert (Hw : within u8 old new = true)
      by exact (@within_delta 8 old delta ltac:(lia) Hd).
    rewrite Hw. reflexivity.
  - (* two bytes *)
    destruct (Helpers.unit_diffs 8 u8 old new _ 0 0 0 0) as [[ov nv] diffs].
    destruct ((diffs =? 1) && _); [reflexivity|].
    cbn [Z.eqb Pos.eqb]. change (Z.to_nat (2 / 2)) with 1%nat.
    cbn [Helpers.unit_diffs]. change (16 * 0) with 0. rewrite !Z.shiftr_0_r.
    assert (Hob : u16 old = old) by (unfold u16; apply Z.mod_small; lia).
    assert (Hnb : u16 new = new) by (unfold u16; apply Z.mod_small; lia).
    rewrite Hob, Hnb.
    destruct (old =? new) eqn:E'; [apply Z.eqb_eq in E'; contradiction|].
    change (u32 (0 + 1)) with 1. cbn [Z.eqb Pos.eqb andb].
    assert (Hw : within u16 old new = true)
      by exact (@within_delta 16 old delta ltac:(lia) Hd).
    rewrite Hw. reflexivity.
  - (* four bytes *)
    destruct (Helpers.unit_diffs 8 u8 old new _ 0 0 0 0) as [[ov nv] diffs].
    destruct ((diffs =? 1) && _); [reflexivity|].
    cbn [Z.eqb Pos.eqb].
    destruct (Helpers.unit_diffs 16 u16 old new _ 0 ov nv 0)
      as [[ov' nv'] diffs'].
    destruct ((diffs' =? 1) && _); [reflexivity|].
    assert (Hw : within u32 old new = true)
      by exact (@within_delta 32 old delta ltac:(lia) Hd).
    rewrite Hw. reflexivity.
Qed.

End ArithTheory.

(** With [ARITH_MAX = 35]: the byte 250 plus 10 wraps to 4. *)
Lemma could_be_arith_accepts_witness :
  Helpers.could_be_arith 35 250 4 1 = true.
Proof.
  apply (@could_be_arith_accepts 35 250 10 1); [auto | simpl; lia | lia].
Defined.

(** ** [locate_diffs] *)

Lemma s32_small (x : Z) : 0 <= x < 2 ^ 31 -> s32 x = x.
Proof.
  intros H. unfold s32. change (2 ^ 31) with 2147483648 in *.
  change (2 ^ 32) with 4294967296. rewrite Z.mod_small; lia.
Qed.

Lemma locate_diffs_loop_spec ptr1 ptr2 : forall todo pos f l,
  Z.of_nat (pos + todo) < 2 ^ 31 ->
  located ptr1 ptr2 pos f l ->
  located ptr1 ptr2 (pos + todo)%nat
    (fst (locate_diffs_loop ptr1 ptr2 todo pos f l))
    (snd (locate_diffs_loop ptr1 ptr2 todo pos f l)).
Proof.
  induction todo as [|todo IH]; intros pos f l Hb H;
    cbn [locate_diffs_loop].
  - rewrite Nat.add_0_r. exact H.
  - replace (pos + S todo)%nat with (S pos + todo)%nat in * by lia.
    rewrite s32_small by lia.
    destruct (rd ptr1 pos =? rd ptr2 pos) eqn:E.
    + apply Z.eqb_eq in E. apply IH; [exact Hb|].
      destruct H as [(Hf & Hl & Heq) | (Hfl & Hl & Hdf & Hdl & Hbef & Haft)].
      * left. repeat split; auto. intros i Hi.
        destruct (Nat.eq_dec i pos) as [->|]; [exact E | apply Heq; lia].
      * right. repeat split; auto; try lia. intros i Hi1 Hi2.
        destruct (Nat.eq_dec i pos) as [->|]; [exact E | apply Haft; lia].
    + apply Z.eqb_neq in E. apply IH; [exact Hb|]. right.
      destruct H as [(-> & -> & Heq) | (Hfl & Hl & Hdf & Hdl & Hbef & Haft)].
      * change (-1 =? -1) with true. cbv iota. rewrite Nat2Z.id.
        split; [lia|]. split; [lia|]. split; [exact E|]. split; [exact E|].
        split; [intros i Hi; apply Heq; lia | intros i Hi1 Hi2; lia].
      * replace (f =? -1) with false by (symmetry; apply Z.eqb_neq; lia).
        rewrite Nat2Z.id.
        split; [lia|]. split; [lia|]. split; [exact Hdf|]. split; [exact E|].
        split; [exact Hbef | intros i Hi1 Hi2; lia].
Qed.

(** [locate_diffs] on the first [len] bytes of two buffers: it returns
    -1 and -1 when they agree; otherwise [first <= last < len], the
    buffers differ at [first] and at [last], and they agree before
    [first] and behind [last]. *)
Theorem locate_diffs_spec (ptr1 ptr2 : list Z) (len : Z) :
  0 <= len < 2 ^ 31 ->
  located ptr1 ptr2 (Z.to_nat len)
    (fst (locate_diffs ptr1 ptr2 len)) (snd (locate_diffs ptr1 ptr2 len)).
Proof.
  intros H. unfold locate_diffs.
  apply (@locate_diffs_loop_spec ptr1 ptr2 (Z.to_nat len) 0%nat (-1) (-1)).
  - cbn [Nat.add]. rewrite Z2Nat.id; lia.
  - left. repeat split; auto. intros i Hi. lia.
Qed.

(** Two buffers that differ at the positions 1 and 3. *)
Lemma locate_diffs_spec_witness :
  locate_diffs [1; 2; 3; 4; 5] [1; 9; 3; 8; 5] 5 = (1, 3) /\
  located [1; 2; 3; 4; 5] [1; 9; 3; 8; 5] 5%nat 1 3.
Proof.
  split; [reflexivity|].
  exact (@locate_diffs_spec [1; 2; 3; 4; 5] [1; 9; 3; 8; 5] 5
           ltac:(simpl; lia)).
Defined.

(** ** [choose_block_len] *)

Section BlockLenTheory.

Variable World : Type.
Variable rand_below : World -> Z -> World * Z.
Variable queue_cycle : World -> Z.
Variable run_over10m : World -> bool.
Variable HAVOC_BLK_SMALL : Z.
Variable HAVOC_BLK_MEDIUM : Z.
Variable HAVOC_BLK_LARGE : Z.
Variable HAVOC_BLK_XL : Z.

Local Abbreviation choose_block_len :=
  (Helpers.choose_block_len rand_below queue_cycle run_over10m
     HAVOC_BLK_SMALL HAVOC_BLK_MEDIUM HAVOC_BLK_LARGE HAVOC_BLK_XL).

(** The contract of the random source and the order of the four block
    sizes. *)
Hypothesis rand_below_range :
  forall s limit, 0 < limit -> 0 <= snd (rand_below s limit) < limit.
Hypothesis blocks_ordered :
  1 <= HAVOC_BLK_SMALL /\ HAVOC_BLK_SMALL <= HAVOC_BLK_MEDIUM /\
  HAVOC_BLK_MEDIUM <= HAVOC_BLK_LARGE /\ HAVOC_BLK_LARGE <= HAVOC_BLK_XL /\
  HAVOC_BLK_XL < 2 ^ 32.

(** The last step of [choose_block_len], for any of the four ranges. *)
Lemma block_len_pick (w : World) (limit min_value max_value : Z) :
  1 <= limit < 2 ^ 32 -> 1 <= min_value <= max_value ->
  max_value < 2 ^ 32 ->
  let m := if limit <=? min_value then 1 else min_value in
  let r := snd (rand_below w (u32 (Z.min max_value limit - m + 1))) in
  1 <= u32 (m + r) <= limit /\ u32 (m + r) <= max_value.
Proof.
  intros Hl Hm Hx m r. change (2 ^ 32) with 4294967296 in *.
  assert (Hm' : 1 <= m <= Z.min max_value limit)
    by (unfold m; destruct (Z.leb_spec limit min_value); lia).
  assert (Hu : u32 (Z.min max_value limit - m + 1)
               = Z.min max_value limit - m + 1).
  { unfold u32. change (2 ^ 32) with 4294967296. apply Z.mod_small. lia. }
  assert (Hr : 0 <= r < Z.min max_value limit - m + 1).
  { unfold r. rewrite Hu. apply rand_below_range. lia. }
  assert (Hu2 : u32 (m + r) = m + r).
  { unfold u32. change (2 ^ 32) with 4294967296. apply Z.mod_small. lia. }
  rewrite Hu2. lia.
Qed.

(** [choose_block_len] does not return zero and does not exceed its
    limit, for every positive limit and whatever the cycle count is. *)
Theorem choose_block_len_range (w : World) (limit : Z) :
  1 <= limit < 2 ^ 32 ->
  1 <= snd (choose_block_len w limit) <= limit /\
  snd (choose_block_len w limit) <= HAVOC_BLK_XL.
Proof.
  intros Hl. destruct blocks_ordered as (H1 & H2 & H3 & H4 & H5).
  unfold Helpers.choose_block_len.
  destruct (rand_below w _) as [w1 k].
  assert (Hpick : forall w2 mn mx, 1 <= mn <= mx -> mx <= HAVOC_BLK_XL ->
            1 <= snd (let '(w3, r) :=
                        rand_below w2
                          (u32 (Z.min mx limit
                                - (if limit <=? mn then 1 else mn) + 1)) in
                      (w3, u32 ((if limit <=? mn then 1 else mn) + r)))
              <= limit /\
            snd (let '(w3, r) :=
                   rand_below w2
                     (u32 (Z.min mx limit
                           - (if limit <=? mn then 1 else mn) + 1)) in
                 (w3, u32 ((if limit <=? mn then 1 else mn) + r)))
              <= HAVOC_BLK_XL).
  { intros w2 mn mx Hmn Hmx.
    pose proof (@block_len_pick w2 limit mn mx Hl Hmn ltac:(lia)) as Hp.
    cbv zeta in Hp. destruct (rand_below w2 _) as [w3 r].
    cbn [snd] in *. lia. }
  destruct (k =? 0); [apply Hpick; lia|].
  destruct (k =? 1); [apply Hpick; lia|].
  destruct (rand_below w1 10) as [w2 t].
  destruct (negb (t =? 0)); apply Hpick; lia.
Qed.

End BlockLenTheory.

(** The sizes 32, 128, 1500 and 32768, a source that returns its state
    modulo the limit, and the limit 100. *)
Lemma choose_block_len_range_witness :
  1 <= snd (Helpers.choose_block_len
              (fun s limit => (s + 1, s mod limit)) (fun _ => 5)
              (fun _ => true) 32 128 1500 32768 7 100) <= 100 /\
  snd (Helpers.choose_block_len
         (fun s limit => (s + 1, s mod limit)) (fun _ => 5)
         (fun _ => true) 32 128 1500 32768 7 100) <= 32768.
Proof.
  apply choose_block_len_range.
  - intros s limit H. simpl. apply Z.mod_pos_bound. exact H.
  - simpl. lia.
  - simpl. lia.
Defined.

End HelpersTheory.

(** * Theory of the position queries *)

Module QueryTheory.

Import Mask.

Section Queries.

Variable World : Type.
Variable rand_below : World -> Z -> World * Z.

Hypothesis rand_below_range :
  forall s limit, 0 < limit -> 0 <= snd (rand_below s limit) < limit.

Local Abbreviation get_random_insert_posn :=
  (Mask.get_random_insert_posn rand_below).
Local Abbreviation get_random_modifiable_posn :=
  (Mask.get_random_modifiable_posn rand_below).

(** ** [get_random_insert_posn] *)

(** The position map of [get_random_insert_posn] holds the positions with
    [INSERT_BEFORE_SAFE], and nothing else. *)
Lemma insert_scan_spec mask : forall todo i pm x,
  In x (insert_scan mask todo i pm) <->
  In x pm \/
  exists j, (i <= j < i + todo)%nat /\ x = Z.of_nat j /\
            has_flag mask j INSERT_BEFORE_SAFE = true.
Proof.
  induction todo as [|todo IH]; intros i pm x; cbn [insert_scan].
  - split; [auto|]. intros [H|(j & Hj & _)]; [exact H | lia].
  - fold (has_flag mask i 4).
    destruct (has_flag mask i 4) eqn:E; rewrite IH.
    + rewrite in_app_iff. cbn [In]. split.
      * intros [[H|[H|[]]]|(j & Hj & Hx & Hf)]; auto.
        -- right. exists i. repeat split; auto; lia.
        -- right. exists j. repeat split; auto; lia.
      * intros [H|(j & Hj & Hx & Hf)]; auto.
        destruct (Nat.eq_dec j i) as [->|Hne]; [auto|].
        right. exists j. repeat split; auto; lia.
    + split.
      * intros [H|(j & Hj & Hx & Hf)]; auto.
        right. exists j. repeat split; auto; lia.
      * intros [H|(j & Hj & Hx & Hf)]; auto.
        destruct (Nat.eq_dec j i) as [->|Hne];
          [unfold INSERT_BEFORE_SAFE in Hf; congruence|].
        right. exists j. repeat split; auto; lia.
Qed.

(** [get_random_insert_posn] returns a position in [[0, map_len]], never
    the failure value that its callers test for; when some position up
    to [map_len] has [INSERT_BEFORE_SAFE] the position returned has it
    too, and when none has it the function returns [map_len]. *)
Theorem get_random_insert_posn_safe (w : World) (map_len : Z)
    (mask : list Z) :
  0 <= map_len < NO_POSN ->
  let p := snd (get_random_insert_posn w map_len mask) in
  0 <= p <= map_len /\ p <> NO_POSN /\
  ((exists j, (j <= Z.to_nat map_len)%nat /\
              has_flag mask j INSERT_BEFORE_SAFE = true) ->
   has_flag mask (Z.to_nat p) INSERT_BEFORE_SAFE = true) /\
  ((forall j, (j <= Z.to_nat map_len)%nat ->
              has_flag mask j INSERT_BEFORE_SAFE = false) ->
   p = map_len).
Proof.
  intros Hm p. unfold Mask.get_random_insert_posn in p.
  pose proof (insert_scan_spec mask (S (Z.to_nat map_len)) 0 []) as Hspec.
  destruct (insert_scan mask (S (Z.to_nat map_len)) 0 []) as [|x0 pm] eqn:E.
  - cbn [snd] in p. subst p. repeat split; try lia.
    intros (j & Hj & Hf). exfalso.
    apply (proj2 (Hspec (Z.of_nat j))). right. exists j.
    repeat split; auto; lia.
  - assert (Hpos : 0 < Z.of_nat (length (x0 :: pm))) by (simpl; lia).
    pose proof (rand_below_range w Hpos) as Hk.
    destruct (rand_below w _) as [w1 k]. cbn [snd] in *.
    assert (Hin : In p (x0 :: pm))
      by (unfold p, rd; apply nth_In; lia).
    apply Hspec in Hin. destruct Hin as [[]|(j & Hj & Hx & Hf)].
    rewrite Hx, Nat2Z.id.
    repeat split; try lia.
    + intros _. exact Hf.
    + intros Hnone. rewrite Hnone in Hf by lia. discriminate.
Qed.

(** ** [get_random_modifiable_posn] for whole bytes *)

Import Positions.

Lemma pm_fill_spec pm cap start bound pm' :
  0 <= start ->
  pm_fill pm cap start bound = Some pm' ->
  Z.of_nat (length pm) + Z.max 0 (bound - start) <= Z.of_nat cap /\
  forall x, In x pm' <-> In x pm \/ start <= x < bound.
Proof.
  intros Hs H. unfold pm_fill in H.
  destruct (_ <=? _) eqn:E; [|discriminate]. apply Z.leb_le in E.
  injection H as <-. split; [exact E|]. intros x.
  rewrite in_app_iff, in_map_iff. split.
  - intros [H|(j & Hj & Hin)]; [auto|]. right.
    apply in_seq in Hin. lia.
  - intros [H|H]; [auto|]. right. exists (Z.to_nat x). split; [lia|].
    apply in_seq. lia.
Qed.

Section Scan.

Variables (num_to_modify mod_type : Z) (mask : list Z) (cap : nat).

Local Abbreviation nb := (num_bytes_of num_to_modify).

(** The position map holds at most [2^32 - nb] entries. *)
Hypothesis cap_small : Z.of_nat cap + nb <= 2 ^ 32.

(** The state of the scan at byte [i]: every recorded position fits
    below [i], and outside a 0-block the bytes from
    [prev_start_of_1_block] on are modifiable. *)
Local Abbreviation scan_inv i pm prev in0 :=
  ((forall x, In x pm -> fits mask mod_type nb (Z.of_nat i) x) /\
   (in0 = false ->
    0 <= prev <= Z.of_nat i /\
    forall j, prev <= j < Z.of_nat i ->
      Z.land (rd mask (Z.to_nat j)) mod_type <> 0)).

(** One block is closed at byte [lim]: the positions added fit. *)
Lemma close_block (lim : nat) pm prev pm' :
  Z.of_nat lim < 2 ^ 32 ->
  scan_inv lim pm prev false ->
  pm_fill pm cap (u32 prev) (u32 (Z.of_nat lim - nb + 1)) = Some pm' ->
  forall x, In x pm' -> fits mask mod_type nb (Z.of_nat lim) x.
Proof.
  intros Hlim (Hpm & Hblk) Hfill x Hx.
  destruct (Hblk eq_refl) as (Hprev & Hsafe).
  assert (Hnb : 1 <= nb) by (unfold num_bytes_of; lia).
  change (2 ^ 32) with 4294967296 in *.
  assert (Hup : u32 prev = prev)
    by (unfold u32; change (2 ^ 32) with 4294967296;
        apply Z.mod_small; lia).
  rewrite Hup in Hfill.
  apply pm_fill_spec in Hfill; [|lia]. destruct Hfill as (Hcap & Hin).
  apply Hin in Hx. destruct Hx as [Hx|Hx]; [auto|].
  destruct (Z.le_gt_cases 0 (Z.of_nat lim - nb + 1)) as [Hge|Hlt].
  - assert (Hub : u32 (Z.of_nat lim - nb + 1) = Z.of_nat lim - nb + 1)
      by (unfold u32; change (2 ^ 32) with 4294967296;
          apply Z.mod_small; lia).
    rewrite Hub in Hx. split; [lia|]. split; [lia|].
    intros k Hk. apply Hsafe. lia.
  - exfalso.
    assert (Hub : u32 (Z.of_nat lim - nb + 1)
                  = Z.of_nat lim - nb + 1 + 4294967296).
    { unfold u32. change (2 ^ 32) with 4294967296.
      rewrite <- (Z.mod_add _ 1) by lia. apply Z.mod_small. lia. }
    rewrite Hub in Hcap. lia.
Qed.

Lemma posn_scan_inv : forall todo i pm prev in0 pm' prev' in0',
  Z.of_nat (i + todo) < 2 ^ 32 ->
  scan_inv i pm prev in0 ->
  posn_scan num_to_modify mod_type mask cap todo i pm prev in0
    = Some (pm', prev', in0') ->
  scan_inv (i + todo)%nat pm' prev' in0'.
Proof.
  induction todo as [|todo IH]; intros i pm prev in0 pm' prev' in0' Hb Hinv H;
    cbn [posn_scan] in H.
  - injection H as <- <- <-. rewrite Nat.add_0_r. exact Hinv.
  - replace (i + S todo)%nat with (S i + todo)%nat in * by lia.
    destruct Hinv as (Hpm & Hblk).
    assert (Hgrow : forall x, fits mask mod_type nb (Z.of_nat i) x ->
                              fits mask mod_type nb (Z.of_nat (S i)) x)
      by (intros x (A & B & C); repeat split; auto; lia).
    destruct (negb (Z.land (rd mask i) mod_type =? 0)) eqn:Ef.
    + apply negb_true_iff, Z.eqb_neq in Ef.
      destruct in0.
      * apply (IH _ _ _ _ _ _ _ Hb) in H; [exact H|].
        split; [intros x Hx; apply Hgrow, Hpm, Hx|]. intros _.
        split; [lia|]. intros j Hj.
        replace j with (Z.of_nat i) by lia. rewrite Nat2Z.id. exact Ef.
      * apply (IH _ _ _ _ _ _ _ Hb) in H; [exact H|].
        destruct (Hblk eq_refl) as (Hprev & Hsafe).
        split; [intros x Hx; apply Hgrow, Hpm, Hx|]. intros _.
        split; [lia|]. intros j Hj.
        destruct (Z.eq_dec j (Z.of_nat i)) as [->|Hne];
          [rewrite Nat2Z.id; exact Ef | apply Hsafe; lia].
    + destruct (negb in0 && negb (prev =? -1)) eqn:Ec.
      * destruct (pm_fill _ _ _ _) as [pm1|] eqn:Efill; [|discriminate].
        cbn [bind] in H.
        apply (IH _ _ _ _ _ _ _ Hb) in H; [exact H|].
        apply andb_true_iff in Ec. destruct Ec as [Ec _].
        apply negb_true_iff in Ec. subst in0.
        split; [|discriminate]. intros x Hx. apply Hgrow.
        apply (@close_block i pm prev pm1);
          [lia | split; assumption | exact Efill | exact Hx].
      * cbn [bind] in H.
        apply (IH _ _ _ _ _ _ _ Hb) in H; [exact H|].
        split; [intros x Hx; apply Hgrow, Hpm, Hx | discriminate].
Qed.

(** Every position of the final map fits below [map_len]. *)
Lemma modifiable_positions_fit (map_len : Z) pm :
  0 <= map_len < 2 ^ 32 ->
  modifiable_positions num_to_modify mod_type map_len mask cap = Some pm ->
  forall x, In x pm -> fits mask mod_type nb map_len x.
Proof.
  intros Hm H. unfold modifiable_positions in H.
  destruct (posn_scan _ _ _ _ _ _ _ _ _) as [[[pm0 prev] in0]|] eqn:Es;
    [|discriminate]. cbn [bind] in H.
  apply posn_scan_inv in Es.
  - cbn [Nat.add] in Es. rewrite Z2Nat.id in Es by lia.
    destruct in0.
    + injection H as <-. apply Es.
    + intros x Hx.
      pose proof (@close_block (Z.to_nat map_len) pm0 prev pm) as Hc.
      rewrite Z2Nat.id in Hc by lia. apply Hc; auto; lia.
  - cbn [Nat.add]. rewrite Z2Nat.id; lia.
  - split; [intros x []|discriminate].
Qed.

End Scan.

(** A query for [n >= 1] whole bytes ([num_to_modify = 8 * n], as the
    byte, word, dword, overwrite and delete operators ask) that returns a
    position returns one at which all [n] bytes lie inside the buffer
    and carry a bit of [mod_type]. *)
Theorem get_random_modifiable_posn_safe (w w' : World)
    (num_to_modify mod_type map_len : Z) (mask : list Z) (cap : nat)
    (p : Z) :
  8 <= num_to_modify ->
  0 <= map_len < 2 ^ 32 ->
  Z.of_nat cap + num_to_modify / 8 <= 2 ^ 32 ->
  get_random_modifiable_posn w num_to_modify mod_type map_len mask cap
    = Some (w', p) ->
  p <> NO_POSN ->
  0 <= p /\ p + num_to_modify / 8 <= map_len /\
  block_safe mask mod_type p (num_to_modify / 8).
Proof.
  intros Hn Hm Hcap H Hp.
  assert (Hnb : num_bytes_of num_to_modify = num_to_modify / 8).
  { unfold num_bytes_of.
    pose proof (Z.div_le_mono 8 num_to_modify 8 ltac:(lia) Hn) as Hd.
    change (8 / 8) with 1 in Hd. lia. }
  unfold Mask.get_random_modifiable_posn in H.
  destruct (modifiable_positions _ _ _ _ _) as [pm|] eqn:Epm;
    [|discriminate]. cbn [bind] in H.
  pose proof (@modifiable_positions_fit num_to_modify mod_type mask cap
                ltac:(rewrite Hnb; exact Hcap) map_len pm Hm Epm) as Hfit.
  rewrite Hnb in Hfit.
  destruct pm as [|x0 pm]; [injection H as _ <-; contradiction|].
  assert (Hpos : 0 < Z.of_nat (length (x0 :: pm))) by (simpl; lia).
  pose proof (rand_below_range w Hpos) as Hk.
  destruct (rand_below w _) as [w1 k]. cbn [snd] in Hk.
  replace (8 <=? num_to_modify) with true in H
    by (symmetry; apply Z.leb_le; lia).
  injection H as _ <-.
  apply Hfit. unfold rd. apply nth_In. lia.
Qed.

(** ** Runs of modifiable bytes *)

Section Runs.

Variables (num_to_modify mod_type : Z) (mask : list Z) (cap : nat).

Local Abbreviation scan :=
  (posn_scan num_to_modify mod_type mask cap).

(** The scan of [a + b] bytes is the scan of [a] bytes followed by the
    scan of [b] bytes. *)
Lemma posn_scan_app : forall a b i pm prev in0,
  scan (a + b)%nat i pm prev in0 =
  (r <- scan a i pm prev in0 ;;
   let '(pm1, prev1, in1) := r in
   scan b (i + a)%nat pm1 prev1 in1).
Proof.
  induction a as [|a IH]; intros b i pm prev in0.
  - cbn [Nat.add posn_scan bind]. rewrite Nat.add_0_r. reflexivity.
  - cbn [Nat.add posn_scan].
    replace (i + S a)%nat with (S i + a)%nat by lia.
    destruct (negb (Z.land (rd mask i) mod_type =? 0)).
    + destruct in0; apply IH.
    + destruct (if negb in0 && negb (prev =? -1) then _ else _);
        cbn [bind]; [apply IH | reflexivity].
Qed.

(** Inside a run of modifiable bytes nothing is recorded. *)
Lemma posn_scan_run : forall todo i pm prev,
  (forall j, (j < todo)%nat -> Z.land (rd mask (i + j)) mod_type <> 0) ->
  scan todo i pm prev false = Some (pm, prev, false).
Proof.
  induction todo as [|todo IH]; intros i pm prev H; cbn [posn_scan];
    [reflexivity|].
  pose proof (H 0%nat ltac:(lia)) as H0. rewrite Nat.add_0_r in H0.
  apply Z.eqb_neq in H0. rewrite H0. cbn [negb].
  apply IH. intros j Hj.
  replace (S i + j)%nat with (i + S j)%nat by lia. apply H. lia.
Qed.

Lemma posn_scan_run_start : forall todo i pm prev,
  (forall j, (j < S todo)%nat ->
             Z.land (rd mask (i + j)) mod_type <> 0) ->
  scan (S todo) i pm prev true = Some (pm, Z.of_nat i, false).
Proof.
  intros todo i pm prev H. cbn [posn_scan].
  pose proof (H 0%nat ltac:(lia)) as H0. rewrite Nat.add_0_r in H0.
  apply Z.eqb_neq in H0. rewrite H0. cbn [negb].
  apply posn_scan_run. intros j Hj.
  replace (S i + j)%nat with (i + S j)%nat by lia. apply H. lia.
Qed.

End Runs.

(** A run of [i >= 1] modifiable bytes at the head of the mask that is
    shorter than the operand by two bytes or more: the bound
    [i - num_bytes + 1] of the recording loop wraps around as an unsigned
    number, and the loop writes behind the end of [position_map]. *)
Theorem get_random_modifiable_posn_overrun (w : World)
    (num_to_modify mod_type map_len : Z) (mask : list Z) (cap i : nat) :
  (1 <= i)%nat -> Z.of_nat i < map_len ->
  (forall j, (j < i)%nat -> Z.land (rd mask j) mod_type <> 0) ->
  Z.land (rd mask i) mod_type = 0 ->
  Z.of_nat i + 1 < num_to_modify / 8 ->
  Z.of_nat cap + num_to_modify / 8 <= 2 ^ 32 ->
  get_random_modifiable_posn w num_to_modify mod_type map_len mask cap
    = None.
Proof.
  intros Hi Hlt Hrun Hstop Hshort Hcap.
  assert (Hnb : num_bytes_of num_to_modify = num_to_modify / 8)
    by (unfold num_bytes_of; lia).
  unfold Mask.get_random_modifiable_posn, modifiable_positions.
  replace (Z.to_nat map_len)
    with (i + S (Z.to_nat map_len - i - 1))%nat by lia.
  rewrite posn_scan_app.
  destruct i as [|i]; [lia|].
  rewrite posn_scan_run_start by (intros j Hj; apply Hrun; exact Hj).
  cbn [bind Nat.add posn_scan].
  apply Z.eqb_eq in Hstop. rewrite Hstop. cbn [negb andb].
  change (0 =? -1) with false. cbn [negb].
  unfold pm_fill. rewrite Hnb. cbn [length].
  change (Z.of_nat 0) with 0.
  change (2 ^ 32) with 4294967296 in *.
  assert (Hub : u32 (Z.of_nat (S i) - num_to_modify / 8 + 1)
                = Z.of_nat (S i) - num_to_modify / 8 + 1 + 4294967296).
  { unfold u32. change (2 ^ 32) with 4294967296.
    rewrite <- (Z.mod_add _ 1) by lia. apply Z.mod_small. lia. }
  rewrite Hub. change (u32 0) with 0.
  replace (_ <=? _) with false by (symmetry; apply Z.leb_gt; lia).
  reflexivity.
Qed.

(** ** Permissive masks *)

(** On the mask that [alloc_branch_mask] builds, the query for [n] whole
    bytes to overwrite or delete is one draw below [len - n + 1], which is
    the position itself: the draw that the original code of the havoc
    stage made. *)
Theorem get_random_modifiable_posn_permissive (w : World)
    (n mod_type len : Z) (mask : list Z) :
  alloc_branch_mask (len + 1) = Some mask ->
  mod_type = OVERWRITE_SAFE \/ mod_type = DELETE_SAFE ->
  1 <= n <= len -> len + 1 < 2 ^ 32 ->
  get_random_modifiable_posn w (8 * n) mod_type len mask
    (S (Z.to_nat len))
  = Some (fst (rand_below w (len - n + 1)),
          snd (rand_below w (len - n + 1))).
Proof.
  intros Hmask Hmod Hn Hlen. change (2 ^ 32) with 4294967296 in *.
  unfold alloc_branch_mask in Hmask.
  destruct (len + 1 =? 0); [discriminate|]. injection Hmask as <-.
  assert (Hflag : forall j, (j < Z.to_nat len)%nat ->
            Z.land (rd (upd (repeat 7 (Z.to_nat (len + 1)))
                          (Z.to_nat (len + 1 - 1)) 4) j) mod_type <> 0).
  { intros j Hj. rewrite rd_upd_ne by lia.
    rewrite MaskTheory.rd_repeat by lia.
    destruct Hmod as [-> | ->]; discriminate. }
  set (mask := upd _ _ _) in *.
  assert (Hnb : num_bytes_of (8 * n) = n).
  { unfold num_bytes_of. rewrite Z.mul_comm, Z.div_mul by lia. lia. }
  unfold Mask.get_random_modifiable_posn, modifiable_positions.
  destruct (Z.to_nat len) as [|l] eqn:El; [lia|].
  rewrite posn_scan_run_start by (intros j Hj; apply Hflag; exact Hj).
  cbn [bind]. unfold pm_fill. rewrite Hnb. cbn [length].
  change (Z.of_nat 0) with 0. change (u32 0) with 0.
  assert (Hub : u32 (len - n + 1) = len - n + 1)
    by (unfold u32; change (2 ^ 32) with 4294967296;
        apply Z.mod_small; lia).
  rewrite Hub.
  replace (_ <=? _) with true by (symmetry; apply Z.leb_le; lia).
  cbn [bind app Nat.add]. rewrite Z.sub_0_r.
  replace (Z.max 0 (len - n + 1)) with (len - n + 1) by lia.
  destruct (Z.to_nat (len - n + 1)) as [|c] eqn:Ec; [lia|].
  rewrite <- Ec. cbn [Z.to_nat]. change (Z.to_nat 0) with 0%nat.
  assert (Hl : Z.of_nat (length (map Z.of_nat (seq 0 (Z.to_nat (len - n + 1)))))
               = len - n + 1)
    by (rewrite length_map, length_seq; lia).
  destruct (map Z.of_nat (seq 0 (Z.to_nat (len - n + 1)))) as [|x0 pm] eqn:Em;
    [simpl in Hl; lia|].
  rewrite Hl.
  pose proof (@rand_below_range w (len - n + 1) ltac:(lia)) as Hk.
  destruct (rand_below w (len - n + 1)) as [w1 k]. cbn [fst snd] in *.
  replace (8 <=? 8 * n) with true by (symmetry; apply Z.leb_le; lia).
  f_equal. f_equal. rewrite <- Em. unfold rd.
  rewrite (nth_indep _ 0 (Z.of_nat 0))
    by (rewrite length_map, length_seq; lia).
  rewrite map_nth, seq_nth by lia. lia.
Qed.

End Queries.

(** A generator that returns its state modulo the limit. *)
Lemma counter_range (s limit : Z) :
  0 < limit -> 0 <= snd ((s + 1, s mod limit)) < limit.
Proof. intros H. cbn [snd]. apply Z.mod_pos_bound. exact H. Qed.

(** A two-byte input that allows insertion before byte 1 and at the
    end. *)
Lemma get_random_insert_posn_safe_witness :
  let p := snd (Mask.get_random_insert_posn
                  (fun s limit => (s + 1, s mod limit)) 7 2 [0; 4; 4]) in
  0 <= p <= 2 /\ p <> NO_POSN /\
  ((exists j, (j <= Z.to_nat 2)%nat /\
              has_flag [0; 4; 4] j INSERT_BEFORE_SAFE = true) ->
   has_flag [0; 4; 4] (Z.to_nat p) INSERT_BEFORE_SAFE = true) /\
  ((forall j, (j <= Z.to_nat 2)%nat ->
              has_flag [0; 4; 4] j INSERT_BEFORE_SAFE = false) ->
   p = 2).
Proof.
  apply (@get_random_insert_posn_safe Z
           (fun s limit => (s + 1, s mod limit)) counter_range 7 2
           [0; 4; 4]).
  unfold NO_POSN. lia.
Defined.

(** A query for two bytes on a five-byte input whose bytes 1 to 3 can be
    overwritten. *)
Lemma get_random_modifiable_posn_safe_witness :
  Mask.get_random_modifiable_posn (fun s limit => (s + 1, s mod limit)) 7
    16 1 5 [0; 1; 1; 1; 0; 4] 6 = Some (8, 2) /\
  0 <= 2 /\ 2 + 16 / 8 <= 5 /\
  Positions.block_safe [0; 1; 1; 1; 0; 4] 1 2 (16 / 8).
Proof.
  split; [reflexivity|].
  apply (@get_random_modifiable_posn_safe Z
           (fun s limit => (s + 1, s mod limit)) counter_range 7 8 16 1 5
           [0; 1; 1; 1; 0; 4] 6%nat 2).
  - lia.
  - simpl. lia.
  - simpl. lia.
  - reflexivity.
  - unfold NO_POSN. lia.
Defined.

(** A query for three bytes on a five-byte input whose byte 0 alone can
    be overwritten. *)
Lemma get_random_modifiable_posn_overrun_witness :
  Mask.get_random_modifiable_posn (fun s limit => (s + 1, s mod limit)) 7
    24 1 5 [1; 0; 0; 0; 0; 4] 6 = None.
Proof.
  apply (@get_random_modifiable_posn_overrun Z
           (fun s limit => (s + 1, s mod limit)) 7 24 1 5
           [1; 0; 0; 0; 0; 4] 6%nat 1%nat).
  - lia.
  - vm_compute; easy.
  - intros j Hj. destruct j; [discriminate | lia].
  - reflexivity.
  - vm_compute; easy.
  - vm_compute; easy.
Defined.

(** A query for two bytes to delete on the permissive mask of a four-byte
    input. *)
Lemma get_random_modifiable_posn_permissive_witness :
  Mask.get_random_modifiable_posn (fun s limit => (s + 1, s mod limit)) 7
    (8 * 2) 2 4 [7; 7; 7; 7; 4] (S (Z.to_nat 4))
  = Some (fst ((fun s limit => (s + 1, s mod limit)) 7 (4 - 2 + 1)),
          snd ((fun s limit => (s + 1, s mod limit)) 7 (4 - 2 + 1))).
Proof.
  apply (@get_random_modifiable_posn_permissive Z
           (fun s limit => (s + 1, s mod limit)) counter_range 7 2 2 4
           [7; 7; 7; 7; 4]).
  - reflexivity.
  - right. reflexivity.
  - lia.
  - simpl. lia.
Defined.

End QueryTheory.

(** * Theory of the rare-branch lists *)

Module RareListTheory.

Import RareBranch RareList.

(** ** [get_lowest_hit_branch_ids] *)

Section Lowest.

Variable st : rb_state.

(** The list has room for an entry and its terminator. *)
Hypothesis max_range : 2 <= max_rare_branches st < 2 ^ 32.

Lemma u32_max_pred : u32 (max_rare_branches st - 1) = max_rare_branches st - 1.
Proof.
  unfold u32. change (2 ^ 32) with 4294967296 in *.
  apply Z.mod_small. lia.
Qed.

(** The entries below [size] of the array under construction: eligible
    branches below [i], all of the order of magnitude [exp - 1]. *)
Local Abbreviation listed i ids size exp :=
  (0 <= size <= max_rare_branches st - 1 /\
   length ids = Z.to_nat (max_rare_branches st) /\
   forall k, Z.of_nat k < size ->
     exists b, rd ids k = Z.of_nat b /\ (b < i)%nat /\
               0 < rd (hit_bits st) b /\
               contains_id (Z.of_nat b) (blacklist st) = false /\
               hob st b = exp - 1).

Lemma lowest_scan_listed : forall todo i ids size lowest exp,
  listed i ids size exp ->
  let '(ids', size', _, exp') := lowest_scan st todo i ids size lowest exp in
  listed (i + todo)%nat ids' size' exp'.
Proof.
  induction todo as [|todo IH]; intros i ids size lowest exp H;
    cbn [lowest_scan].
  - rewrite Nat.add_0_r. exact H.
  - replace (i + S todo)%nat with (S i + todo)%nat by lia.
    assert (Hgrow : forall ids size exp,
              listed i ids size exp -> listed (S i) ids size exp).
    { intros ids0 size0 exp0 (A & B & C). split; [exact A|].
      split; [exact B|]. intros k Hk.
      destruct (C k Hk) as (b & Hb1 & Hb2 & Hb3).
      exists b. repeat split; try tauto; lia. }
    rewrite u32_max_pred.
    destruct (size <? max_rare_branches st - 1) eqn:Efull.
    2:{ destruct H as (A & B & C). split; [exact A|]. split; [exact B|].
        intros k Hk. destruct (C k Hk) as (b & Hb1 & Hb2 & Hb3).
        exists b. repeat split; try tauto; lia. }
    apply Z.ltb_lt in Efull.
    destruct (0 <? rd (hit_bits st) i) eqn:Ehit;
      [|apply IH, Hgrow, H].
    apply Z.ltb_lt in Ehit.
    destruct (contains_id (Z.of_nat i) (blacklist st)) eqn:Ebl;
      [apply IH, Hgrow, H|].
    fold (hob st i).
    destruct (hob st i <? exp) eqn:Erare; [|apply IH, Hgrow, H].
    apply Z.ltb_lt in Erare.
    destruct H as (A & B & C).
    destruct (hob st i <? exp - 1) eqn:Elow; apply IH.
    + (* a rarer order of magnitude: the list starts again *)
      split; [lia|]. split; [rewrite upd_length; exact B|].
      intros k Hk.
      assert (k = 0%nat) by lia. subst k. exists i.
      change (Z.to_nat 0) with 0%nat.
      rewrite rd_upd_eq by lia. repeat split; auto; lia.
    + apply Z.ltb_ge in Elow.
      split; [lia|]. split; [rewrite upd_length; exact B|].
      intros k Hk.
      destruct (Nat.eq_dec k (Z.to_nat size)) as [->|Hne].
      * exists i. rewrite rd_upd_eq by lia. repeat split; auto; lia.
      * rewrite rd_upd_ne by lia.
        destruct (C k ltac:(lia)) as (b & Hb1 & Hb2 & Hb3).
        exists b. repeat split; try tauto; lia.
Qed.

(** Once the list holds an entry it holds one for good. *)
Lemma lowest_scan_size_pos : forall todo i ids size lowest exp,
  1 <= size ->
  let '(_, size', _, _) := lowest_scan st todo i ids size lowest exp in
  1 <= size'.
Proof.
  induction todo as [|todo IH]; intros i ids size lowest exp H;
    cbn [lowest_scan]; [exact H|].
  destruct (size <? _); [|exact H].
  destruct (0 <? rd (hit_bits st) i); [|apply IH, H].
  destruct (contains_id _ _); [apply IH, H|].
  destruct (_ <? exp); [|apply IH, H].
  destruct (_ <? exp - 1); apply IH; lia.
Qed.

(** A branch of an order of magnitude below [exp] gets the list an
    entry. *)
Lemma lowest_scan_finds : forall todo i ids size lowest exp b,
  0 <= size ->
  (i <= b < i + todo)%nat ->
  0 < rd (hit_bits st) b ->
  contains_id (Z.of_nat b) (blacklist st) = false ->
  hob st b < exp ->
  let '(_, size', _, _) := lowest_scan st todo i ids size lowest exp in
  1 <= size'.
Proof.
  induction todo as [|todo IH]; intros i ids size lowest exp b Hs Hb Hh Hbl Hr;
    [lia|]. cbn [lowest_scan]. rewrite u32_max_pred.
  destruct (size <? max_rare_branches st - 1) eqn:Efull;
    [|apply Z.ltb_ge in Efull; lia].
  destruct (Nat.eq_dec b i) as [->|Hne].
  - apply Z.ltb_lt in Hh. rewrite Hh, Hbl. fold (hob st i).
    apply Z.ltb_lt in Hr. rewrite Hr.
    destruct (_ <? exp - 1); apply lowest_scan_size_pos; lia.
  - assert (Hb' : (S i <= b < S i + todo)%nat) by lia.
    destruct (0 <? rd (hit_bits st) i) eqn:Ehit; [|apply (IH _ _ _ _ _ b); auto].
    destruct (contains_id (Z.of_nat i) _); [apply (IH _ _ _ _ _ b); auto|].
    fold (hob st i).
    destruct (hob st i <? exp) eqn:Erare; [|apply (IH _ _ _ _ _ b); auto].
    destruct (_ <? exp - 1); apply lowest_scan_size_pos; lia.
Qed.

(** A scan that leaves the list empty has seen every branch, and
    [lowest_hob] is at most the order of magnitude of each eligible
    one. *)
Lemma lowest_scan_empty : forall todo i ids size lowest exp b,
  0 <= size ->
  (i <= b < i + todo)%nat ->
  0 < rd (hit_bits st) b ->
  contains_id (Z.of_nat b) (blacklist st) = false ->
  let '(_, size', lowest', _) := lowest_scan st todo i ids size lowest exp in
  size' = 0 -> lowest' <= hob st b.
Proof.
  assert (Hmono : forall todo i ids size lowest exp,
            let '(_, _, lowest', _) :=
              lowest_scan st todo i ids size lowest exp in
            lowest' <= lowest).
  { induction todo as [|todo IH]; intros i ids size lowest exp;
      cbn [lowest_scan]; [lia|].
    destruct (size <? _); [|lia].
    destruct (0 <? rd (hit_bits st) i); [|apply IH].
    destruct (contains_id _ _); [apply IH|].
    fold (hob st i).
    assert (Hstep : forall ids' size' exp',
              let '(_, _, lowest', _) :=
                lowest_scan st todo (S i) ids' size'
                  (if hob st i <? lowest then hob st i else lowest) exp' in
              lowest' <= lowest).
    { intros ids' size' exp'.
      pose proof (IH (S i) ids' size'
                    (if hob st i <? lowest then hob st i else lowest) exp')
        as Hi.
      destruct (lowest_scan _ _ _ _ _ _ _) as [[[? ?] l'] ?].
      destruct (Z.ltb_spec (hob st i) lowest); lia. }
    destruct (_ <? exp); [|apply Hstep].
    destruct (_ <? exp - 1); apply Hstep. }
  induction todo as [|todo IH]; intros i ids size lowest exp b Hs Hb Hh Hbl;
    [lia|]. cbn [lowest_scan]. rewrite u32_max_pred.
  destruct (size <? max_rare_branches st - 1) eqn:Efull;
    [|apply Z.ltb_ge in Efull; lia].
  assert (Hpos : forall ids' size' lowest' exp', 1 <= size' ->
            let '(_, s', l', _) :=
              lowest_scan st todo (S i) ids' size' lowest' exp' in
            s' = 0 -> l' <= hob st b).
  { intros ids' size' lowest' exp' H1.
    pose proof (@lowest_scan_size_pos todo (S i) ids' size' lowest' exp' H1)
      as Hp.
    destruct (lowest_scan _ _ _ _ _ _ _) as [[[? s'] ?] ?]. lia. }
  destruct (Nat.eq_dec b i) as [->|Hne].
  - apply Z.ltb_lt in Hh. rewrite Hh, Hbl. fold (hob st i).
    destruct (hob st i <? exp) eqn:Erare.
    + destruct (_ <? exp - 1); apply Hpos; lia.
    + pose proof (Hmono todo (S i) ids size
                    (if hob st i <? lowest then hob st i else lowest) exp)
        as Hm.
      destruct (lowest_scan _ _ _ _ _ _ _) as [[[? s'] l'] ?].
      intros _. destruct (Z.ltb_spec (hob st i) lowest); lia.
  - assert (Hb' : (S i <= b < S i + todo)%nat) by lia.
    destruct (0 <? rd (hit_bits st) i); [|apply (IH _ _ _ _ _ b); auto].
    destruct (contains_id (Z.of_nat i) _); [apply (IH _ _ _ _ _ b); auto|].
    fold (hob st i).
    destruct (hob st i <? exp); [|apply (IH _ _ _ _ _ b); auto].
    destruct (_ <? exp - 1); apply Hpos; lia.
Qed.

(** [lowest_hob] keeps its value or takes the order of magnitude of an
    eligible branch. *)
Lemma lowest_scan_lowest : forall todo i ids size lowest exp,
  let '(_, _, lowest', _) := lowest_scan st todo i ids size lowest exp in
  lowest' = lowest \/
  exists b, (i <= b < i + todo)%nat /\ 0 < rd (hit_bits st) b /\
            contains_id (Z.of_nat b) (blacklist st) = false /\
            hob st b = lowest'.
Proof.
  induction todo as [|todo IH]; intros i ids size lowest exp;
    cbn [lowest_scan]; [auto|].
  assert (Hskip : forall ids' size' exp',
            let '(_, _, lowest', _) :=
              lowest_scan st todo (S i) ids' size' lowest exp' in
            lowest' = lowest \/
            exists b, (i <= b < i + S todo)%nat /\ 0 < rd (hit_bits st) b /\
                      contains_id (Z.of_nat b) (blacklist st) = false /\
                      hob st b = lowest').
  { intros ids' size' exp'. pose proof (IH (S i) ids' size' lowest exp') as Hi.
    destruct (lowest_scan _ _ _ _ _ _ _) as [[[? ?] l'] ?].
    destruct Hi as [Hi|(b & Hb & Hrest)]; [auto|].
    right. exists b. split; [lia | exact Hrest]. }
  destruct (size <? _); [|auto].
  destruct (0 <? rd (hit_bits st) i) eqn:Ehit; [|apply Hskip].
  apply Z.ltb_lt in Ehit.
  destruct (contains_id (Z.of_nat i) _) eqn:Ebl; [apply Hskip|].
  fold (hob st i).
  assert (Hstep : forall ids' size' exp',
            let '(_, _, lowest', _) :=
              lowest_scan st todo (S i) ids' size'
                (if hob st i <? lowest then hob st i else lowest) exp' in
            lowest' = lowest \/
            exists b, (i <= b < i + S todo)%nat /\ 0 < rd (hit_bits st) b /\
                      contains_id (Z.of_nat b) (blacklist st) = false /\
                      hob st b = lowest').
  { intros ids' size' exp'.
    pose proof (IH (S i) ids' size'
                  (if hob st i <? lowest then hob st i else lowest) exp')
      as Hi.
    destruct (lowest_scan _ _ _ _ _ _ _) as [[[? ?] l'] ?].
    destruct Hi as [Hi|(b & Hb & Hrest)].
    - destruct (hob st i <? lowest); [|auto].
      right. exists i. repeat split; auto; lia.
    - right. exists b. split; [lia | exact Hrest]. }
  destruct (_ <? exp); [|apply Hstep].
  destruct (_ <? exp - 1); apply Hstep.
Qed.

End Lowest.

(** [contains_id] on an array whose first [n] entries are branch ids and
    whose entry [n] is the terminator. *)
Lemma contains_id_prefix (x : Z) : forall (l : list Z) (n : nat),
  (n < length l)%nat ->
  (forall k, (k < n)%nat -> 0 <= rd l k) ->
  rd l n = -1 ->
  contains_id x l = true <-> exists k, (k < n)%nat /\ rd l k = x.
Proof.
  induction l as [|y l IH]; intros n Hn Hpos Hend; [simpl in Hn; lia|].
  cbn [contains_id]. destruct n as [|n].
  - unfold rd in Hend. cbn [nth] in Hend. subst y. cbn [Z.eqb Pos.eqb].
    split; [discriminate | intros (k & Hk & _); lia].
  - pose proof (Hpos 0%nat ltac:(lia)) as H0. unfold rd in H0. cbn [nth] in H0.
    replace (y =? -1) with false by (symmetry; apply Z.eqb_neq; lia).
    destruct (y =? x) eqn:E.
    + apply Z.eqb_eq in E. split; [|auto]. intros _. exists 0%nat.
      split; [lia | exact E].
    + apply Z.eqb_neq in E. rewrite (IH n).
      * split.
        -- intros (k & Hk & Hx). exists (S k). split; [lia | exact Hx].
        -- intros (k & Hk & Hx). destruct k as [|k];
             [unfold rd in Hx; cbn [nth] in Hx; contradiction|].
           exists k. split; [lia | exact Hx].
      * simpl in Hn. lia.
      * intros k Hk. apply (Hpos (S k)). lia.
      * exact Hend.
Qed.

Lemma highest_order_bit_bound : forall fuel hits h,
  highest_order_bit fuel hits h <= h + Z.of_nat fuel.
Proof.
  induction fuel as [|fuel IH]; intros hits h; cbn [highest_order_bit];
    [lia|].
  destruct (_ =? 0); [lia|]. pose proof (IH (Z.shiftr hits 1) (h + 1)). lia.
Qed.

(** [get_lowest_hit_branch_ids] returns after at most one recursive call.
    Every branch of the list it returns lies in the map, has been hit, is
    not blacklisted, and has a hit count of the order of magnitude
    [rare_branch_exp - 1], for the [rare_branch_exp] the call leaves. The
    list is empty only if no branch is eligible. *)
Theorem get_lowest_hit_branch_ids_rare (st : rb_state) :
  2 <= max_rare_branches st < 2 ^ 32 ->
  0 <= map_size st ->
  exists ids exp,
    get_lowest_hit_branch_ids 2 st = Some (ids, exp) /\
    (forall b, contains_id (Z.of_nat b) ids = true ->
               eligible st b /\ hob st b = exp - 1) /\
    ((exists b, eligible st b) ->
     exists b, contains_id (Z.of_nat b) ids = true).
Proof.
  intros Hmax Hmap.
  (* what a finished scan gives *)
  assert (Hdone : forall (st' : rb_state) ids size exp,
            hit_bits st' = hit_bits st -> blacklist st' = blacklist st ->
            max_rare_branches st' = max_rare_branches st ->
            map_size st' = map_size st ->
            (0 <= size <= max_rare_branches st' - 1 /\
             length ids = Z.to_nat (max_rare_branches st') /\
             forall k, Z.of_nat k < size ->
               exists b, rd ids k = Z.of_nat b /\
                 (b < 0 + Z.to_nat (map_size st'))%nat /\
                 0 < rd (hit_bits st') b /\
                 contains_id (Z.of_nat b) (blacklist st') = false /\
                 hob st' b = exp - 1) ->
            (forall b, contains_id (Z.of_nat b) (upd ids (Z.to_nat size) (-1))
                       = true ->
                       eligible st b /\ hob st b = exp - 1) /\
            (1 <= size ->
             exists b, contains_id (Z.of_nat b)
                         (upd ids (Z.to_nat size) (-1)) = true)).
  { intros st' ids size exp Eh Eb Em Es (Hsz & Hlen & Hent).
    assert (Hpre : forall x,
              contains_id x (upd ids (Z.to_nat size) (-1)) = true <->
              exists k, (k < Z.to_nat size)%nat /\
                        rd (upd ids (Z.to_nat size) (-1)) k = x).
    { intros x. apply contains_id_prefix.
      - rewrite upd_length. lia.
      - intros k Hk. rewrite rd_upd_ne by lia.
        destruct (Hent k ltac:(lia)) as (b & -> & _). lia.
      - apply rd_upd_eq. lia. }
    split.
    - intros b Hb. apply Hpre in Hb. destruct Hb as (k & Hk & Hx).
      rewrite rd_upd_ne in Hx by lia.
      destruct (Hent k ltac:(lia)) as (b' & Hb' & Hlt & Hhit & Hbl & Hhob).
      assert (b' = b) by lia. subst b'.
      unfold eligible, hob in *. rewrite Eh, Eb, Es in *.
      repeat split; auto. lia.
    - intros H1. destruct (Hent 0%nat ltac:(lia)) as (b & Hb & _).
      exists b. apply Hpre. exists 0%nat.
      split; [lia|]. rewrite rd_upd_ne by lia. exact Hb. }
  cbn [get_lowest_hit_branch_ids].
  set (ids0 := repeat 0 (Z.to_nat (max_rare_branches st))).
  pose proof (@lowest_scan_listed st Hmax (Z.to_nat (map_size st)) 0 ids0 0
                INT_MAX (rare_branch_exp st)) as L1.
  pose proof (@lowest_scan_lowest st (Z.to_nat (map_size st)) 0 ids0 0
                INT_MAX (rare_branch_exp st)) as Llow.
  pose proof (fun b => @lowest_scan_empty st Hmax (Z.to_nat (map_size st)) 0
                ids0 0 INT_MAX (rare_branch_exp st) b (Z.le_refl 0)) as Lemp.
  destruct (lowest_scan st _ 0 ids0 0 INT_MAX (rare_branch_exp st))
    as [[[ids1 size1] low1] exp1].
  specialize (L1 ltac:(split; [lia|]; split;
                       [unfold ids0; apply repeat_length | intros k Hk; lia])).
  destruct ((size1 =? 0) && negb (low1 =? INT_MAX)) eqn:Eretry.
  - (* one recursive call *)
    apply andb_true_iff in Eretry. destruct Eretry as [Es Er].
    apply Z.eqb_eq in Es. apply negb_true_iff, Z.eqb_neq in Er.
    destruct Llow as [Llow|(b & Hb & Hhit & Hbl & Hhob)]; [contradiction|].
    set (st' := {| hit_bits := hit_bits st; blacklist := blacklist st;
                   rare_branch_exp := low1 + 1;
                   max_rare_branches := max_rare_branches st;
                   map_size := map_size st |}).
    change (Z.to_nat (map_size st')) with (Z.to_nat (map_size st)).
    change (repeat 0 (Z.to_nat (max_rare_branches st'))) with ids0.
    change (rare_branch_exp st') with (low1 + 1).
    pose proof (@lowest_scan_listed st' Hmax (Z.to_nat (map_size st)) 0 ids0
                  0 INT_MAX (low1 + 1)) as L2.
    pose proof (@lowest_scan_finds st' Hmax (Z.to_nat (map_size st)) 0 ids0
                  0 INT_MAX (low1 + 1) b (Z.le_refl 0) Hb Hhit Hbl
                  ltac:(change (hob st' b) with (hob st b); lia)) as F2.
    destruct (lowest_scan st' _ 0 ids0 0 INT_MAX (low1 + 1))
      as [[[ids2 size2] low2] exp2].
    change (max_rare_branches st') with (max_rare_branches st) in L2.
    specialize (L2 ltac:(split; [lia|]; split;
                         [unfold ids0; apply repeat_length
                         | intros k Hk; lia])).
    replace (size2 =? 0) with false by (symmetry; apply Z.eqb_neq; lia).
    cbn [andb]. exists (upd ids2 (Z.to_nat size2) (-1)), exp2.
    split; [reflexivity|].
    destruct (Hdone st' ids2 size2 exp2 eq_refl eq_refl eq_refl eq_refl L2)
      as [Hs Hn].
    split; [exact Hs | intros _; apply Hn; exact F2].
  - exists (upd ids1 (Z.to_nat size1) (-1)), exp1. split; [reflexivity|].
    destruct (Hdone st ids1 size1 exp1 eq_refl eq_refl eq_refl eq_refl L1)
      as [Hs Hn].
    split; [exact Hs|]. intros (b & Hb1 & Hb2 & Hb3). apply Hn.
    destruct (Z.eq_dec size1 0) as [E0|]; [|lia]. exfalso.
    rewrite E0 in Eretry. cbn [Z.eqb andb] in Eretry.
    apply negb_false_iff, Z.eqb_eq in Eretry.
    specialize (Lemp b ltac:(lia) Hb2 Hb3 E0).
    pose proof (highest_order_bit_bound 64 (rd (hit_bits st) b) 0) as Hbd.
    unfold hob in Lemp. unfold INT_MAX in Eretry.
    change (0 + Z.of_nat 64) with 64 in Hbd.
    change (2 ^ 31 - 1) with 2147483647 in Eretry. lia.
Qed.

(** Branches with 300, 5 and 7 hits under [rare_branch_exp = 2]: the scan
    finds nothing, the recursive call lists the branches 1 and 2. *)
Lemma get_lowest_hit_branch_ids_rare_witness :
  exists ids exp,
    get_lowest_hit_branch_ids 2
      {| hit_bits := [300; 5; 7; 0]; blacklist := [-1];
         rare_branch_exp := 2; max_rare_branches := 4; map_size := 4 |}
      = Some (ids, exp) /\
    (forall b, contains_id (Z.of_nat b) ids = true ->
       eligible {| hit_bits := [300; 5; 7; 0]; blacklist := [-1];
                   rare_branch_exp := 2; max_rare_branches := 4;
                   map_size := 4 |} b /\
       hob {| hit_bits := [300; 5; 7; 0]; blacklist := [-1];
              rare_branch_exp := 2; max_rare_branches := 4;
              map_size := 4 |} b = exp - 1) /\
    ((exists b,
        eligible {| hit_bits := [300; 5; 7; 0]; blacklist := [-1];
                    rare_branch_exp := 2; max_rare_branches := 4;
                    map_size := 4 |} b) ->
     exists b, contains_id (Z.of_nat b) ids = true).
Proof.
  apply get_lowest_hit_branch_ids_rare; simpl; lia.
Defined.

(** [min_hit_index] counts the branches of the rare list that the trace
    hits. *)
Lemma rb_scan_count st tr rarest : forall todo i mhi cts ids,
  (fst (fst (rb_scan st tr rarest todo i mhi cts ids))
   + rare_hits tr rarest i
   = mhi + rare_hits tr rarest (i + todo))%nat.
Proof.
  induction todo as [|todo IH]; intros i mhi cts ids.
  - cbn [rb_scan fst]. rewrite Nat.add_0_r. reflexivity.
  - cbn [rb_scan].
    replace (i + S todo)%nat with (S i + todo)%nat by lia.
    destruct (mini_bit tr i && contains_id (Z.of_nat i) rarest) eqn:Ec.
    + destruct (match mhi with
                | O => _
                | S _ => _
                end) as [cts0 ids0].
      destruct (insert_loop _ _ _ _ _ _ _) as [cts1 ids1].
      specialize (IH (S i) (S mhi)
                    (wr32 cts1 mhi (rd (hit_bits st) i))
                    (wr32 ids1 mhi (Z.of_nat i + 1))).
      cbn [rare_hits] in IH. rewrite Ec in IH. lia.
    + specialize (IH (S i) mhi cts ids).
      cbn [rare_hits] in IH. rewrite Ec in IH. lia.
Qed.

(** [is_rb_hit_mini] returns [NULL] exactly when the trace hits no branch
    of the rare list, and otherwise as many entries as the trace hits rare
    branches. *)
Theorem is_rb_hit_mini_null (fuel : nat) (st : rb_state)
    (trace_bits_mini rarest : list Z) (exp : Z) :
  get_lowest_hit_branch_ids fuel st = Some (rarest, exp) ->
  let n := rare_hits trace_bits_mini rarest (Z.to_nat (map_size st)) in
  exists res,
    is_rb_hit_mini fuel st trace_bits_mini = Some (res, exp) /\
    (res = None <-> n = 0%nat) /\
    (forall l, res = Some l -> length l = n).
Proof.
  intros Hlow n. unfold is_rb_hit_mini. rewrite Hlow. cbn [bind].
  pose proof (rb_scan_count st trace_bits_mini rarest
                (Z.to_nat (map_size st)) 0 0
                (repeat 0 (4 * Z.to_nat (max_rare_branches st)))
                (repeat 0 (4 * Z.to_nat (max_rare_branches st)))) as Hc.
  cbn [rare_hits Nat.add] in Hc. fold n in Hc.
  destruct (rb_scan _ _ _ _ _ _ _ _) as [[mhi cts] ids]. cbn [fst] in Hc.
  destruct mhi as [|mhi].
  - exists None. split; [reflexivity|]. split.
    + split; [intros _; lia | reflexivity].
    + discriminate.
  - eexists. split; [reflexivity|]. split.
    + split; [discriminate | lia].
    + intros l [= <-]. unfold words. rewrite length_map, length_seq. lia.
Qed.

(** The trace [[3]] hits the branches 0 and 1 of [two_branches], both
    rare: the result has two entries. *)
Lemma is_rb_hit_mini_null_witness :
  exists res,
    is_rb_hit_mini 2 two_branches [3] = Some (res, 2) /\
    (res = None <->
     rare_hits [3] [0; 1; -1; 0; 0; 0; 0; 0] (Z.to_nat 8) = 0%nat) /\
    (forall l, res = Some l ->
       length l = rare_hits [3] [0; 1; -1; 0; 0; 0; 0; 0] (Z.to_nat 8)).
Proof.
  apply (@is_rb_hit_mini_null 2 two_branches [3]
           [0; 1; -1; 0; 0; 0; 0; 0] 2).
  vm_compute. reflexivity.
Defined.

End RareListTheory.

(** * More on the bandit selectors *)

Module SelectorTheory.

Import Bandit.

Section IndexPolicies.

Variable double : Type.
Variable d_of_Z : Z -> double.
Variable dlt : double -> double -> bool.
Variable ucb_index : Z -> normal_bandit_arm double -> double.
Variable klucb_klucb : Z -> normal_bandit_arm double -> double.

(** The loop returns at the first enabled arm that was never pulled,
    whatever the indices of the arms before it. *)
Lemma index_loop_unpulled index mask : forall arms i max_ucb sel k a,
  nth_error arms k = Some a -> masked mask (i + k) = false ->
  na_num_selected a = 0 ->
  (forall j b, (j < k)%nat -> nth_error arms j = Some b ->
     masked mask (i + j) = false -> na_num_selected b <> 0) ->
  index_loop dlt index mask arms i max_ucb sel = Some (i + k)%nat.
Proof.
  induction arms as [|x rest IH]; intros i max_ucb sel k a Hk Hm Hz Hbefore.
  - destruct k; discriminate.
  - cbn [index_loop]. destruct k as [|k].
    + injection Hk as ->. rewrite Nat.add_0_r in *. rewrite Hm.
      replace (na_num_selected a =? 0) with true
        by (symmetry; apply Z.eqb_eq; exact Hz).
      reflexivity.
    + cbn [nth_error] in Hk.
      assert (Hrec : forall mx s,
                 index_loop dlt index mask rest (S i) mx s
                 = Some (i + S k)%nat).
      { intros mx s. replace (i + S k)%nat with (S i + k)%nat by lia.
        apply (IH (S i) mx s k a Hk);
          [replace (S i + k)%nat with (i + S k)%nat by lia; exact Hm
          | exact Hz |].
        intros j b Hj Hb Hmj. apply (Hbefore (S j) b); [lia | exact Hb |].
        replace (i + S j)%nat with (S i + j)%nat by lia. exact Hmj. }
      destruct (masked mask i) eqn:Em; [apply Hrec|].
      replace (na_num_selected x =? 0) with false
        by (symmetry; apply Z.eqb_neq; apply (Hbefore 0%nat x);
            [lia | reflexivity | rewrite Nat.add_0_r; exact Em]).
      destruct (dlt max_ucb (index x)); apply Hrec.
Qed.

(** UCB and KL-UCB explore first: as long as an enabled arm among the
    first [n_arms] has never been pulled, they return the first such arm
    and compute no index for it. *)
Theorem ucb_select_arm_unpulled_first (inst : normal_bandit double)
    (mask : option (list Z)) (k : nat) (a : normal_bandit_arm double) :
  (k < Z.to_nat (nb_n_arms inst))%nat ->
  nth_error (nb_arms inst) k = Some a ->
  masked mask k = false -> na_num_selected a = 0 ->
  (forall j b, (j < k)%nat -> nth_error (nb_arms inst) j = Some b ->
     masked mask j = false -> na_num_selected b <> 0) ->
  ucb_select_arm d_of_Z dlt ucb_index inst mask = Some k /\
  klucb_select_arm d_of_Z dlt klucb_klucb inst mask = Some k.
Proof.
  intros Hk Ha Hm Hz Hbefore.
  assert (Hpre : forall j b,
             nth_error (firstn (Z.to_nat (nb_n_arms inst)) (nb_arms inst)) j
               = Some b -> nth_error (nb_arms inst) j = Some b).
  { intros j b. rewrite nth_error_firstn.
    destruct (j <? Z.to_nat (nb_n_arms inst))%nat; [auto | discriminate]. }
  assert (Hka : nth_error
                  (firstn (Z.to_nat (nb_n_arms inst)) (nb_arms inst)) k
                = Some a).
  { rewrite nth_error_firstn.
    replace (k <? Z.to_nat (nb_n_arms inst))%nat with true
      by (symmetry; apply Nat.ltb_lt; exact Hk).
    exact Ha. }
  split; unfold ucb_select_arm, klucb_select_arm;
    apply (@index_loop_unpulled _ mask _ 0%nat _ _ k a Hka Hm Hz);
    intros j b Hj Hb Hmj; apply (Hbefore j b Hj (Hpre j b Hb) Hmj).
Qed.

End IndexPolicies.

Section RoundRobin.

Variable rng : Type.
Variable double : Type.
Variable d_of_Z : Z -> double.
Variable dadd : double -> double -> double.
Variable dlt : double -> double -> bool.
Variable gsl_rng_uniform : rng -> rng * double.
Variable exppp_update_trusts : exppp_t double -> list double.

(** The first [n_arms] calls of [exppp_select_arm] play the arms in their
    order: call number [t + 1] returns arm [t], draws nothing from the
    generator and leaves the trusts as they are. *)
Theorem exppp_select_arm_round_robin (s : rng) (self : exppp_t double)
    (mask : option (list Z)) :
  0 <= ep_t self < ep_n_arms self -> ep_n_arms self < 2 ^ 64 ->
  (Z.to_nat (ep_t self) < length (ep_pulls self))%nat ->
  exists self',
    exppp_select_arm d_of_Z dadd dlt gsl_rng_uniform exppp_update_trusts
      s self mask = Some (s, self', ep_t self) /\
    ep_t self' = ep_t self + 1 /\
    ep_trusts self' = ep_trusts self /\
    ep_weights self' = ep_weights self /\
    ep_pulls self'
      = upd (ep_pulls self) (Z.to_nat (ep_t self))
          (u64 (rd (ep_pulls self) (Z.to_nat (ep_t self)) + 1)).
Proof.
  intros Ht Hn Hl. unfold exppp_select_arm.
  change (2 ^ 64) with 18446744073709551616 in *.
  assert (Hu : u64 (ep_t self + 1) = ep_t self + 1)
    by (unfold u64; change (2 ^ 64) with 18446744073709551616;
        apply Z.mod_small; lia).
  rewrite Hu.
  replace (ep_t self + 1 <=? ep_n_arms self) with true
    by (symmetry; apply Z.leb_le; lia).
  replace (ep_t self + 1 - 1) with (ep_t self) by lia.
  assert (Hc : u64 (ep_t self) = ep_t self)
    by (unfold u64; change (2 ^ 64) with 18446744073709551616;
        apply Z.mod_small; lia).
  rewrite Hc. cbn [ep_pulls]. unfold incr.
  replace (0 <=? ep_t self) with true by (symmetry; apply Z.leb_le; lia).
  replace (Z.to_nat (ep_t self) <? length (ep_pulls self))%nat with true
    by (symmetry; apply Nat.ltb_lt; exact Hl).
  cbn [andb bind]. eexists. split; [reflexivity|].
  cbn. repeat split.
Qed.

End RoundRobin.

(** Two fresh arms of which the mask disables the first: UCB and KL-UCB
    return arm 1. *)
Lemma ucb_select_arm_unpulled_first_witness :
  ucb_select_arm (fun z : Z => z) Z.ltb Scenario.sample_mean
    Scenario.two_arms (Some [1; 0]) = Some 1%nat /\
  klucb_select_arm (fun z : Z => z) Z.ltb Scenario.sample_mean
    Scenario.two_arms (Some [1; 0]) = Some 1%nat.
Proof.
  apply (@ucb_select_arm_unpulled_first Z (fun z : Z => z) Z.ltb
           Scenario.sample_mean Scenario.sample_mean Scenario.two_arms
           (Some [1; 0]) 1%nat Scenario.fresh_normal_arm).
  - simpl. lia.
  - reflexivity.
  - reflexivity.
  - reflexivity.
  - intros [|j] b Hj Hb Hm; [vm_compute in Hm; discriminate Hm | lia].
Defined.

(** The second call on two arms returns arm 1. *)
Lemma exppp_select_arm_round_robin_witness :
  exists self',
    Scenario.exppp_select 0 (HavocLoop.mut_bandit Scenario.second)
      (Some [1; 0]) = Some (0, self', 1) /\
    ep_t self' = 1 + 1 /\
    ep_trusts self' = [0; 0] /\
    ep_weights self' = [0; 0] /\
    ep_pulls self' = upd [1; 0] (Z.to_nat 1) (u64 (rd [1; 0] (Z.to_nat 1) + 1)).
Proof.
  apply (@exppp_select_arm_round_robin Z Z (fun z : Z => z) Z.add Z.ltb
           Scenario.target0 Scenario.keep_trusts 0
           (HavocLoop.mut_bandit Scenario.second) (Some [1; 0])).
  - simpl. lia.
  - vm_compute. reflexivity.
  - simpl. lia.
Defined.

End SelectorTheory.

(** * The bits of the branch mask *)

Module MaskBuildTheory.

Import Mask.

Section Build.

Variable World : Type.
Variable common_fuzz_stuff : World -> list Z -> World * Z.
Variable hits_branch : World -> Z -> bool.
Variable rand_below : World -> Z -> World * Z.

Local Abbreviation flip8_loop :=
  (Mask.flip8_loop common_fuzz_stuff hits_branch).
Local Abbreviation rbrem8_loop :=
  (Mask.rbrem8_loop common_fuzz_stuff hits_branch).
Local Abbreviation rbadd8_loop :=
  (Mask.rbadd8_loop common_fuzz_stuff hits_branch rand_below).

(** ** The passes of a loop one after the other *)

Lemma flip8_loop_app rb rbf : forall a b i w out mask,
  flip8_loop rb rbf (a + b) i w out mask =
  let p := flip8_loop rb rbf a i w out mask in
  if b_abandon p then p
  else flip8_loop rb rbf b (i + a) (b_world p) out (b_mask p).
Proof.
  induction a as [|a IH]; intros b i w out mask.
  - cbn. rewrite Nat.add_0_r. reflexivity.
  - cbn [Nat.add Mask.flip8_loop].
    destruct (common_fuzz_stuff w _) as [w1 ab].
    destruct (negb (ab =? 0)); [reflexivity|].
    rewrite IH. cbn zeta.
    replace (S i + a)%nat with (i + S a)%nat by lia. reflexivity.
Qed.

Lemma rbrem8_loop_app rbf : forall a b i w out mask,
  rbrem8_loop rbf (a + b) i w out mask =
  let p := rbrem8_loop rbf a i w out mask in
  if b_abandon p then p
  else rbrem8_loop rbf b (i + a) (b_world p) out (b_mask p).
Proof.
  induction a as [|a IH]; intros b i w out mask.
  - cbn. rewrite Nat.add_0_r. reflexivity.
  - cbn [Nat.add Mask.rbrem8_loop].
    destruct (common_fuzz_stuff w _) as [w1 ab].
    destruct (negb (ab =? 0)); [reflexivity|].
    rewrite IH. cbn zeta.
    replace (S i + a)%nat with (i + S a)%nat by lia. reflexivity.
Qed.

Lemma rbadd8_loop_app rbf : forall a b i w out mask,
  rbadd8_loop rbf (a + b) i w out mask =
  let p := rbadd8_loop rbf a i w out mask in
  if b_abandon p then p
  else rbadd8_loop rbf b (i + a) (b_world p) out (b_mask p).
Proof.
  induction a as [|a IH]; intros b i w out mask.
  - cbn. rewrite Nat.add_0_r. reflexivity.
  - cbn [Nat.add Mask.rbadd8_loop].
    destruct (rand_below w 256) as [w0 byte].
    destruct (common_fuzz_stuff w0 _) as [w1 ab].
    destruct (negb (ab =? 0)); [reflexivity|].
    rewrite IH. cbn zeta.
    replace (S i + a)%nat with (i + S a)%nat by lia. reflexivity.
Qed.

(** ** A loop writes at the positions it visits only *)

Lemma flip8_loop_below rb rbf : forall todo i w out mask j,
  (j < i)%nat ->
  rd (b_mask (flip8_loop rb rbf todo i w out mask)) j = rd mask j.
Proof.
  induction todo as [|todo IH]; intros i w out mask j Hj; simpl; [auto|].
  destruct (common_fuzz_stuff w _) as [w1 ab].
  destruct (negb (ab =? 0)); simpl; [auto|].
  rewrite IH by lia.
  destruct (rb && hits_branch w1 (u32 (rbf - 1))); [|reflexivity].
  apply rd_upd_ne. lia.
Qed.

Lemma rbrem8_loop_below rbf : forall todo i w out mask j,
  (j < i)%nat ->
  rd (b_mask (rbrem8_loop rbf todo i w out mask)) j = rd mask j.
Proof.
  induction todo as [|todo IH]; intros i w out mask j Hj; simpl; [auto|].
  destruct (common_fuzz_stuff w _) as [w1 ab].
  destruct (negb (ab =? 0)); simpl; [auto|].
  rewrite IH by lia.
  destruct (hits_branch w1 (u32 (rbf - 1))); [|reflexivity].
  apply rd_upd_ne. lia.
Qed.

Lemma rbadd8_loop_below rbf : forall todo i w out mask j,
  (j < i)%nat ->
  rd (b_mask (rbadd8_loop rbf todo i w out mask)) j = rd mask j.
Proof.
  induction todo as [|todo IH]; intros i w out mask j Hj; simpl; [auto|].
  destruct (rand_below w 256) as [w0 byte].
  destruct (common_fuzz_stuff w0 _) as [w1 ab].
  destruct (negb (ab =? 0)); simpl; [auto|].
  rewrite IH by lia.
  destruct (hits_branch w1 (u32 (rbf - 1))); [|reflexivity].
  apply rd_upd_ne. lia.
Qed.

(** ** The byte that pass [k] of a loop decides *)

Lemma flip8_loop_at rbf todo w out mask k :
  (k < todo)%nat -> (k < length mask)%nat ->
  b_abandon (flip8_loop true rbf todo 0 w out mask) = false ->
  let p := flip8_loop true rbf k 0 w out mask in
  let run := common_fuzz_stuff (b_world p)
               (upd out k (Z.lxor (rd out k) 255)) in
  b_abandon p = false /\ snd run = 0 /\
  rd (b_mask (flip8_loop true rbf todo 0 w out mask)) k =
  if hits_branch (fst run) (u32 (rbf - 1)) then 1 else rd mask k.
Proof.
  intros Hk Hl Hab. cbn zeta.
  replace todo with (k + S (todo - k - 1))%nat in Hab |- * by lia.
  rewrite flip8_loop_app in Hab |- *. cbn zeta in Hab |- *.
  destruct (MaskTheory.flip8_loop_frame common_fuzz_stuff hits_branch true
              rbf k 0 w out mask) as [Hlp Hfp].
  set (p := flip8_loop true rbf k 0 w out mask) in *.
  destruct (b_abandon p) eqn:Ep; [congruence|].
  split; [reflexivity|]. cbn [Nat.add] in Hab |- *.
  cbn [Mask.flip8_loop] in Hab |- *.
  destruct (common_fuzz_stuff (b_world p) _) as [w1 ab]. cbn [fst snd].
  destruct (negb (ab =? 0)) eqn:Eab; [cbn in Hab; discriminate|].
  apply negb_false_iff in Eab. apply Z.eqb_eq in Eab.
  split; [exact Eab|].
  rewrite flip8_loop_below by lia. cbn [andb].
  destruct (hits_branch w1 (u32 (rbf - 1))).
  - apply rd_upd_eq. lia.
  - apply Hfp. lia.
Qed.

Lemma rbrem8_loop_at rbf todo w out mask k :
  (k < todo)%nat -> (k < length mask)%nat ->
  b_abandon (rbrem8_loop rbf todo 0 w out mask) = false ->
  let p := rbrem8_loop rbf k 0 w out mask in
  let run := common_fuzz_stuff (b_world p)
               (firstn k out ++ skipn (S k) out) in
  b_abandon p = false /\ snd run = 0 /\
  rd (b_mask (rbrem8_loop rbf todo 0 w out mask)) k =
  if hits_branch (fst run) (u32 (rbf - 1))
  then u8 (rd mask k + 2) else rd mask k.
Proof.
  intros Hk Hl Hab. cbn zeta.
  replace todo with (k + S (todo - k - 1))%nat in Hab |- * by lia.
  rewrite rbrem8_loop_app in Hab |- *. cbn zeta in Hab |- *.
  destruct (MaskTheory.rbrem8_loop_frame common_fuzz_stuff hits_branch
              rbf k 0 w out mask) as [Hlp Hfp].
  set (p := rbrem8_loop rbf k 0 w out mask) in *.
  destruct (b_abandon p) eqn:Ep; [congruence|].
  split; [reflexivity|]. cbn [Nat.add] in Hab |- *.
  cbn [Mask.rbrem8_loop] in Hab |- *.
  destruct (common_fuzz_stuff (b_world p) _) as [w1 ab]. cbn [fst snd].
  destruct (negb (ab =? 0)) eqn:Eab; [cbn in Hab; discriminate|].
  apply negb_false_iff in Eab. apply Z.eqb_eq in Eab.
  split; [exact Eab|].
  rewrite rbrem8_loop_below by lia.
  destruct (hits_branch w1 (u32 (rbf - 1))).
  - rewrite rd_upd_eq by lia. rewrite Hfp by lia. reflexivity.
  - apply Hfp. lia.
Qed.

Lemma rbadd8_loop_at rbf todo w out mask k :
  (k < todo)%nat -> (k < length mask)%nat ->
  b_abandon (rbadd8_loop rbf todo 0 w out mask) = false ->
  let p := rbadd8_loop rbf k 0 w out mask in
  let draw := rand_below (b_world p) 256 in
  let run := common_fuzz_stuff (fst draw)
               (firstn k out ++ [u8 (snd draw)] ++ skipn k out) in
  b_abandon p = false /\ snd run = 0 /\
  rd (b_mask (rbadd8_loop rbf todo 0 w out mask)) k =
  if hits_branch (fst run) (u32 (rbf - 1))
  then u8 (rd mask k + 4) else rd mask k.
Proof.
  intros Hk Hl Hab. cbn zeta.
  replace todo with (k + S (todo - k - 1))%nat in Hab |- * by lia.
  rewrite rbadd8_loop_app in Hab |- *. cbn zeta in Hab |- *.
  destruct (MaskTheory.rbadd8_loop_frame common_fuzz_stuff hits_branch
              rand_below rbf k 0 w out mask) as [Hlp Hfp].
  set (p := rbadd8_loop rbf k 0 w out mask) in *.
  destruct (b_abandon p) eqn:Ep; [congruence|].
  split; [reflexivity|]. cbn [Nat.add] in Hab |- *.
  cbn [Mask.rbadd8_loop] in Hab |- *.
  destruct (rand_below (b_world p) 256) as [w0 byte]. cbn [fst snd].
  destruct (common_fuzz_stuff w0 _) as [w1 ab]. cbn [fst snd].
  destruct (negb (ab =? 0)) eqn:Eab; [cbn in Hab; discriminate|].
  apply negb_false_iff in Eab. apply Z.eqb_eq in Eab.
  split; [exact Eab|].
  rewrite rbadd8_loop_below by lia.
  destruct (hits_branch w1 (u32 (rbf - 1))).
  - rewrite rd_upd_eq by lia. rewrite Hfp by lia. reflexivity.
  - apply Hfp. lia.
Qed.

(** The three flags of the mask byte of position [i], as the deterministic
    stage sets them in rare-branch mode when it is not abandoned:
    [OVERWRITE_SAFE] when the run with byte [i] inverted hit the target
    branch, [DELETE_SAFE] when the run with byte [i] deleted hit it, and
    [INSERT_BEFORE_SAFE] when the run with a random byte inserted before
    position [i] hit it. Each run starts from the fuzzer state that the
    runs before it have left. *)
Theorem branch_mask_bits (use_branch_mask rb_fuzzing : Z) (w : World)
    (out_buf : list Z) (b : built World) (i : nat) :
  Z.of_nat (length out_buf) + 1 < 2 ^ 32 ->
  rb_fuzzing <> 0 -> 0 < use_branch_mask ->
  deterministic_branch_mask common_fuzz_stuff hits_branch rand_below
    false false use_branch_mask rb_fuzzing w out_buf = Some b ->
  b_abandon b = false ->
  (i < length out_buf)%nat ->
  let L := length out_buf in
  let target := u32 (rb_fuzzing - 1) in
  let b1 := flip8_loop true rb_fuzzing L 0 w out_buf
              (ck_alloc (Z.of_nat L + 1)) in
  let b2 := rbrem8_loop rb_fuzzing L 0 (b_world b1) out_buf (b_mask b1) in
  let p1 := flip8_loop true rb_fuzzing i 0 w out_buf
              (ck_alloc (Z.of_nat L + 1)) in
  let p2 := rbrem8_loop rb_fuzzing i 0 (b_world b1) out_buf (b_mask b1) in
  let p3 := rbadd8_loop rb_fuzzing i 0 (b_world b2) out_buf (b_mask b2) in
  let flipped := common_fuzz_stuff (b_world p1)
                   (upd out_buf i (Z.lxor (rd out_buf i) 255)) in
  let deleted := common_fuzz_stuff (b_world p2)
                   (firstn i out_buf ++ skipn (S i) out_buf) in
  let draw := rand_below (b_world p3) 256 in
  let inserted := common_fuzz_stuff (fst draw)
                    (firstn i out_buf ++ [u8 (snd draw)]
                     ++ skipn i out_buf) in
  rd (b_mask b) i =
  (if hits_branch (fst flipped) target then OVERWRITE_SAFE else 0)
  + (if hits_branch (fst deleted) target then DELETE_SAFE else 0)
  + (if hits_branch (fst inserted) target then INSERT_BEFORE_SAFE else 0).
Proof.
  intros Hlen Hrbf Hubm Hb Hab Hi L target.
  assert (Hu : u32 (Z.of_nat L + 1) = Z.of_nat L + 1)
    by (unfold u32; apply Z.mod_small; lia).
  unfold deterministic_branch_mask, initial_branch_mask in Hb. fold L in Hb.
  rewrite Hu in Hb.
  replace (rb_fuzzing =? 0) with false in Hb
    by (symmetry; apply Z.eqb_neq; lia).
  replace (use_branch_mask =? 0) with false in Hb
    by (symmetry; apply Z.eqb_neq; lia).
  replace (0 <? use_branch_mask) with true in Hb
    by (symmetry; apply Z.ltb_lt; lia).
  cbn [negb andb orb bind] in Hb.
  set (mask0 := ck_alloc (Z.of_nat L + 1)) in *.
  assert (Hl0 : length mask0 = S L)
    by (unfold mask0, ck_alloc; rewrite repeat_length; lia).
  assert (Hz0 : rd mask0 i = 0)
    by (unfold mask0, ck_alloc; apply MaskTheory.rd_repeat0).
  destruct (MaskTheory.flip8_loop_frame common_fuzz_stuff hits_branch true
              rb_fuzzing L 0 w out_buf mask0) as [Hl1 _].
  set (b1 := flip8_loop true rb_fuzzing L 0 w out_buf mask0) in *.
  destruct (b_abandon b1) eqn:Eab1; [injection Hb as <-; congruence|].
  destruct (MaskTheory.rbrem8_loop_frame common_fuzz_stuff hits_branch
              rb_fuzzing L 0 (b_world b1) out_buf (b_mask b1)) as [Hl2 _].
  set (b2 := rbrem8_loop rb_fuzzing L 0 (b_world b1) out_buf (b_mask b1))
    in *.
  destruct (b_abandon b2) eqn:Eab2; [injection Hb as <-; congruence|].
  assert (Hbe : rbadd8_loop rb_fuzzing (S L) 0 (b_world b2) out_buf
                  (b_mask b2) = b) by congruence.
  subst b.
  destruct (@flip8_loop_at rb_fuzzing L w out_buf mask0 i Hi ltac:(lia)
              Eab1) as (_ & _ & H1).
  destruct (@rbrem8_loop_at rb_fuzzing L (b_world b1) out_buf (b_mask b1) i
              Hi ltac:(lia) Eab2) as (_ & _ & H2).
  destruct (@rbadd8_loop_at rb_fuzzing (S L) (b_world b2) out_buf
              (b_mask b2) i ltac:(lia) ltac:(lia) Hab) as (_ & _ & H3).
  cbn zeta in H1, H2, H3 |- *. fold b1 in H1, H2. fold b2 in H2, H3.
  rewrite H3, H2, H1, Hz0.
  unfold OVERWRITE_SAFE, DELETE_SAFE, INSERT_BEFORE_SAFE, target.
  destruct (hits_branch _ _); destruct (hits_branch _ _);
    destruct (hits_branch _ _); reflexivity.
Qed.

End Build.

(** A two-byte input; the harness state counts the runs and the target
    branch is hit by every second run, which is the run that probes
    position 1 in each of the three loops: the mask is [[0; 7; 0]]. *)
Lemma branch_mask_bits_witness :
  let cfs := fun (w : Z) (_ : list Z) => (w + 1, 0) in
  let hit := fun (w : Z) (_ : Z) => Z.even w in
  let rnd := fun (w : Z) (_ : Z) => (w, 0) in
  exists b,
    deterministic_branch_mask cfs hit rnd false false 1 1 0 [65; 66]
      = Some b /\
    b_mask b = [0; 7; 0] /\
    rd (b_mask b) 1 =
    (if hit 2 0 then OVERWRITE_SAFE else 0)
    + (if hit 4 0 then DELETE_SAFE else 0)
    + (if hit 6 0 then INSERT_BEFORE_SAFE else 0).
Proof.
  intros cfs hit rnd. eexists. split; [reflexivity|]. split; [reflexivity|].
  apply (@branch_mask_bits Z cfs hit rnd 1 1 0 [65; 66] _ 1%nat).
  - vm_compute. reflexivity.
  - discriminate.
  - lia.
  - reflexivity.
  - reflexivity.
  - simpl. lia.
Defined.

End MaskBuildTheory.

(** * Theory of the target branch *)

Module TargetTheory.

Import Target.

(** ** The bits of [fuzzed_branches] *)

Lemma land_bit (x b : Z) :
  0 <= b -> (negb (Z.land x (Z.shiftl 1 b) =? 0)) = Z.testbit x b.
Proof.
  intros Hb. rewrite Z.shiftl_1_l.
  destruct (Z.testbit x b) eqn:E.
  - apply negb_true_iff. apply Z.eqb_neq. intros H0.
    assert (Ht : Z.testbit (Z.land x (2 ^ b)) b = true)
      by (rewrite Z.land_spec, E, Z.pow2_bits_true by lia; reflexivity).
    rewrite H0, Z.bits_0 in Ht. discriminate.
  - apply negb_false_iff. apply Z.eqb_eq. apply Z.bits_inj'. intros n Hn.
    rewrite Z.land_spec, Z.bits_0, Z.pow2_bits_eqb by lia.
    destruct (Z.eqb_spec b n) as [->|Hne]; [rewrite E; reflexivity|].
    apply andb_false_r.
Qed.

Lemma bit_offset_range (x : Z) : 0 <= Z.land x 7 < 8.
Proof.
  change 7 with (Z.ones 3). rewrite Z.land_ones by lia.
  change (2 ^ 3) with 8. apply Z.mod_pos_bound. lia.
Qed.

(** A branch is the bit [bit_offset] of the byte [byte_offset]. *)
Lemma offsets_inj (x y : Z) :
  0 <= x -> 0 <= y ->
  Z.to_nat (Z.shiftr x 3) = Z.to_nat (Z.shiftr y 3) ->
  Z.land x 7 = Z.land y 7 -> x = y.
Proof.
  intros Hx Hy Hb Hbit.
  rewrite !Z.shiftr_div_pow2 in Hb by lia. change (2 ^ 3) with 8 in Hb.
  change 7 with (Z.ones 3) in Hbit. rewrite !Z.land_ones in Hbit by lia.
  change (2 ^ 3) with 8 in Hbit.
  assert (Hq : x / 8 = y / 8).
  { apply Z2Nat.inj; [apply Z.div_pos; lia | apply Z.div_pos; lia | exact Hb]. }
  rewrite (Z.div_mod x 8), (Z.div_mod y 8) by lia. congruence.
Qed.

(** A write behind the end of the list is no write. *)
Lemma upd_beyond (l : list Z) : forall n v,
  (length l <= n)%nat -> upd l n v = l.
Proof.
  induction l as [|a l IH]; intros [|n] v Hl; simpl in *;
    try reflexivity; try lia.
  f_equal. apply IH. lia.
Qed.

Lemma fuzzed_set_same (fb : list Z) (h : Z) :
  (Z.to_nat (Z.shiftr (h - 1) 3) < length fb)%nat ->
  fuzzed (set_fuzzed fb h) h = true.
Proof.
  intros Hl. unfold fuzzed, set_fuzzed. cbn zeta.
  pose proof (bit_offset_range (h - 1)) as Hb.
  rewrite rd_upd_eq by exact Hl. rewrite land_bit by lia.
  rewrite Z.lor_spec, Z.shiftl_1_l, Z.pow2_bits_true by lia.
  apply orb_true_r.
Qed.

Lemma fuzzed_set_other (fb : list Z) (h h' : Z) :
  1 <= h -> 1 <= h' -> h' <> h ->
  fuzzed (set_fuzzed fb h) h' = fuzzed fb h'.
Proof.
  intros Hh Hh' Hne. unfold fuzzed, set_fuzzed. cbn zeta.
  pose proof (bit_offset_range (h - 1)) as Hb.
  pose proof (bit_offset_range (h' - 1)) as Hb'.
  destruct (Nat.eq_dec (Z.to_nat (Z.shiftr (h' - 1) 3))
              (Z.to_nat (Z.shiftr (h - 1) 3))) as [Eb|Eb].
  - rewrite Eb.
    destruct (Nat.lt_ge_cases (Z.to_nat (Z.shiftr (h - 1) 3)) (length fb))
      as [Hl|Hl].
    + rewrite rd_upd_eq by exact Hl. rewrite !land_bit by lia.
      rewrite Z.lor_spec, Z.shiftl_1_l, Z.pow2_bits_eqb by lia.
      replace (Z.land (h - 1) 7 =? Z.land (h' - 1) 7) with false;
        [apply orb_false_r|].
      symmetry. apply Z.eqb_neq. intros Hbit. apply Hne.
      assert (h' - 1 = h - 1)
        by (apply offsets_inj; [lia | lia | exact Eb | congruence]).
      lia.
    + rewrite upd_beyond by exact Hl. reflexivity.
  - rewrite rd_upd_ne by (intros E; apply Eb; symmetry; exact E).
    reflexivity.
Qed.

(** ** The selection *)

(** The loop stops at the first entry whose branch the entry has not
    been fuzzed for. *)
Lemma target_loop_find (hits fb : list Z) (map_size : Z) (skip rb_skip : bool) :
  Forall (fun h => h <> 0) hits ->
  target_loop hits fb map_size skip rb_skip =
  option_map
    (fun h => {| rb_fuzzing := h; fuzzed_branches := set_fuzzed fb h;
                 skip_simple_bitflip := skip || any_fuzzed fb map_size;
                 rb_skip_deterministic := rb_skip |})
    (find (fun h => negb (fuzzed fb h)) hits).
Proof.
  induction 1 as [|h rest Hh _ IH]; [reflexivity|].
  cbn [target_loop find].
  replace (h =? 0) with false by (symmetry; apply Z.eqb_neq; exact Hh).
  destruct (fuzzed fb h); cbn [negb]; [exact IH | reflexivity].
Qed.


(** ** The blacklist *)

Lemma contains_id_terminated (b : Z) : forall (bl : list Z) (pos : nat),
  (pos < length bl)%nat -> rd bl pos = -1 ->
  (forall j, (j < pos)%nat -> rd bl j <> -1) ->
  RareBranch.contains_id b bl = true <->
  exists j, (j < pos)%nat /\ rd bl j = b.
Proof.
  induction bl as [|x rest IH]; intros pos Hl Hterm Hbefore;
    [simpl in Hl; lia|].
  cbn [RareBranch.contains_id]. destruct pos as [|pos].
  - unfold rd in Hterm. cbn in Hterm. subst x. cbn. split; [discriminate|].
    intros (j & Hj & _). lia.
  - replace (x =? -1) with false
      by (symmetry; apply Z.eqb_neq; apply (Hbefore 0%nat); lia).
    destruct (Z.eqb_spec x b) as [->|Hne].
    + split; [|reflexivity]. intros _. exists 0%nat. split; [lia|reflexivity].
    + rewrite (IH pos); [| simpl in Hl; lia | exact Hterm |].
      * split.
        -- intros (j & Hj & Hr). exists (S j). split; [lia | exact Hr].
        -- intros ([|j] & Hj & Hr); [unfold rd in Hr; cbn in Hr; congruence|].
           exists j. split; [lia | exact Hr].
      * intros j Hj. apply (Hbefore (S j)). lia.
Qed.

(** The append keeps the blacklist a list of branches in front of the
    terminator -1 inside its allocation, doubling the allocation when the
    list fills it; the new branch is on the list, and so is every branch
    that was. *)
Theorem blacklist_append_spec (blacklist fresh : list Z)
    (blacklist_pos blacklist_size rb_fuzzing : Z) :
  1 <= blacklist_size -> Z.of_nat (length blacklist) = blacklist_size ->
  Z.of_nat (length fresh) = blacklist_size ->
  0 <= blacklist_pos < blacklist_size ->
  rd blacklist (Z.to_nat blacklist_pos) = -1 ->
  (forall j, (j < Z.to_nat blacklist_pos)%nat -> rd blacklist j <> -1) ->
  1 <= rb_fuzzing ->
  exists bl size,
    blacklist_append blacklist fresh blacklist_pos blacklist_size rb_fuzzing
      = Some (bl, blacklist_pos + 1, size) /\
    Z.of_nat (length bl) = size /\ blacklist_pos + 1 < size /\
    rd bl (Z.to_nat (blacklist_pos + 1)) = -1 /\
    (forall j, (j < Z.to_nat (blacklist_pos + 1))%nat -> rd bl j <> -1) /\
    RareBranch.contains_id (rb_fuzzing - 1) bl = true /\
    (forall b, RareBranch.contains_id b blacklist = true ->
               RareBranch.contains_id b bl = true).
Proof.
  intros Hsz Hlen Hfr Hpos Hterm Hbefore Hrb.
  set (grown := firstn (Z.to_nat (2 * blacklist_size)) (blacklist ++ fresh)).
  assert (Hgl : length grown = Z.to_nat (2 * blacklist_size)).
  { unfold grown. rewrite length_firstn, length_app. lia. }
  assert (Hgr : forall j, (j < length blacklist)%nat ->
                          rd grown j = rd blacklist j).
  { intros j Hj. unfold grown, rd. rewrite nth_firstn.
    replace (j <? Z.to_nat (2 * blacklist_size))%nat with true
      by (symmetry; apply Nat.ltb_lt; lia).
    apply app_nth1. exact Hj. }
  assert (Hcase : exists bl0 size,
             (if blacklist_size - 1 <=? blacklist_pos
              then (grown, 2 * blacklist_size)
              else (blacklist, blacklist_size)) = (bl0, size) /\
             Z.of_nat (length bl0) = size /\ blacklist_pos + 1 < size /\
             (forall j, (j < length blacklist)%nat ->
                        rd bl0 j = rd blacklist j)).
  { destruct (blacklist_size - 1 <=? blacklist_pos) eqn:E.
    - apply Z.leb_le in E. exists grown, (2 * blacklist_size).
      repeat split; [lia | lia | exact Hgr].
    - apply Z.leb_gt in E. exists blacklist, blacklist_size.
      repeat split; [exact Hlen | lia]. }
  destruct Hcase as (bl0 & size & Hc & Hl0 & Hfit & Hsame).
  unfold blacklist_append. fold grown. rewrite Hc.
  replace (0 <=? blacklist_pos) with true by (symmetry; apply Z.leb_le; lia).
  replace (blacklist_pos + 1 <? size) with true
    by (symmetry; apply Z.ltb_lt; lia).
  replace (Z.to_nat size <=? length bl0)%nat with true
    by (symmetry; apply Nat.leb_le; lia).
  cbn [andb].
  set (bl := upd (upd bl0 (Z.to_nat blacklist_pos) (rb_fuzzing - 1))
               (Z.to_nat (blacklist_pos + 1)) (-1)).
  assert (Hbl : length bl = length bl0)
    by (unfold bl; rewrite !upd_length; reflexivity).
  assert (Hterm' : rd bl (Z.to_nat (blacklist_pos + 1)) = -1)
    by (unfold bl; apply rd_upd_eq; rewrite upd_length; lia).
  assert (Hnew : rd bl (Z.to_nat blacklist_pos) = rb_fuzzing - 1).
  { unfold bl. rewrite rd_upd_ne by lia. apply rd_upd_eq. lia. }
  assert (Hold : forall j, (j < Z.to_nat blacklist_pos)%nat ->
                           rd bl j = rd blacklist j).
  { intros j Hj. unfold bl. rewrite !rd_upd_ne by lia. apply Hsame. lia. }
  assert (Hbefore' : forall j, (j < Z.to_nat (blacklist_pos + 1))%nat ->
                               rd bl j <> -1).
  { intros j Hj.
    destruct (Nat.eq_dec j (Z.to_nat blacklist_pos)) as [->|Hne].
    - rewrite Hnew. lia.
    - rewrite Hold by lia. apply Hbefore. lia. }
  exists bl, size. split; [reflexivity|].
  split; [lia|]. split; [exact Hfit|]. split; [exact Hterm'|].
  split; [exact Hbefore'|]. split.
  - apply (@contains_id_terminated (rb_fuzzing - 1) bl
             (Z.to_nat (blacklist_pos + 1))); [lia | exact Hterm'
             | exact Hbefore' |].
    exists (Z.to_nat blacklist_pos). split; [lia | exact Hnew].
  - intros b Hb.
    apply (@contains_id_terminated b blacklist (Z.to_nat blacklist_pos))
      in Hb; [| lia | exact Hterm | exact Hbefore].
    destruct Hb as (j & Hj & Hr).
    apply (@contains_id_terminated b bl (Z.to_nat (blacklist_pos + 1)));
      [lia | exact Hterm' | exact Hbefore' |].
    exists j. split; [lia|]. rewrite Hold by exact Hj. exact Hr.
Qed.


(** A full blacklist of two slots holding branch 5: the allocation is
    doubled and branch 7 is appended. *)
Lemma blacklist_append_spec_witness :
  exists bl size,
    blacklist_append [5; -1] [0; 0] 1 2 8 = Some (bl, 1 + 1, size) /\
    Z.of_nat (length bl) = size /\ 1 + 1 < size /\
    rd bl (Z.to_nat (1 + 1)) = -1 /\
    (forall j, (j < Z.to_nat (1 + 1))%nat -> rd bl j <> -1) /\
    RareBranch.contains_id (8 - 1) bl = true /\
    (forall b, RareBranch.contains_id b [5; -1] = true ->
               RareBranch.contains_id b bl = true).
Proof.
  apply (@blacklist_append_spec [5; -1] [0; 0] 1 2 8); try reflexivity;
    try lia.
  intros [|j] Hj; [discriminate | simpl in Hj; lia].
Defined.

End TargetTheory.
